(** * Row-band image filters: a shallow embedding of the MPI and OpenMP programs

    The development follows [MPI/image_proc_mpi.c] and [OMP/image_proc_omp.c].
    Pixel buffers are lists of bytes (integers in [0, 256)), indexed the way
    the C code indexes them; every access is bounds-checked, so that a read or
    a write outside a buffer shows up as a fault instead of passing silently.
    Loops are kept as loops: a [for_] combinator over an error-and-state monad
    whose state is the set of buffers the C function can reach.

    Integer index arithmetic is carried out in [Z]: the C code computes
    [width * height * channels] in [int] when it allocates a buffer, so every
    index below that bound fits in [int] as soon as the allocation is
    meaningful.  Narrowing casts to [unsigned char] are written out as
    reductions modulo 256.  Floating-point arithmetic is the IEEE-754 one of
    the Standard Library's [SpecFloat] (binary32 for [float], binary64 for
    [double], round to nearest even, no contraction of products and sums).

    The image files and the two [main] functions are modelled over a file
    system that maps names to byte lists: [fscanf], [fread], [fprintf] and
    [fwrite] act on those lists, and what the C standard leaves undefined
    (an unassigned value that is used, an [int] that overflows, a null
    stream) is a result of its own.  What the programs print is left out. *)

From Stdlib Require Import ZArith Lia Bool.
From Stdlib Require Import Floats.SpecFloat.
From stdpp Require Import base tactics option list list_numbers functions.
From stdpp Require Import strings.

Local Open Scope Z_scope.

(** ** Outcomes *)

Inductive fault : Type :=
| OutOfBounds   (* an access outside the bounds of a buffer *)
| Unmatched.    (* a receive without a matching send *)

Inductive outcome (A : Type) : Type :=
| Ok (a : A)
| Fault (f : fault).
Arguments Ok {A} a.
Arguments Fault {A} f.

Definition obind {A R : Type} (o : outcome A) (k : A → outcome R) : outcome R :=
  match o with
  | Ok a => k a
  | Fault f => Fault f
  end.

Notation "'do' x <- c1 ; c2" := (obind c1 (fun x => c2))
  (at level 10, x name, c1 at level 100, c2 at level 200).

(** ** Byte buffers indexed by C integers *)

Definition get (l : list Z) (i : Z) : option Z :=
  if 0 <=? i then l !! Z.to_nat i else None.

Definition set (l : list Z) (i v : Z) : list Z := <[Z.to_nat i := v]> l.

Definition in_bounds (l : list Z) (i : Z) : bool :=
  (0 <=? i) && (i <? Z.of_nat (length l)).

(** [(unsigned char) v] for an integer [v]. *)
Definition to_uchar (v : Z) : Z := v mod 256.

(** The [len] bytes of [l] that start at index [off]. *)
Definition slice (l : list Z) (off len : Z) : list Z :=
  take (Z.to_nat len) (drop (Z.to_nat off) l).

(** [read_range l off len]: the [len] bytes at [l + off], as [memcpy] or a
    send reads them; a fault when part of the range is outside [l]. *)
Definition read_range (l : list Z) (off len : Z) : outcome (list Z) :=
  if (0 <=? off) && (0 <=? len) && (off + len <=? Z.of_nat (length l))
  then Ok (slice l off len)
  else Fault OutOfBounds.

(** [write_range l off src]: [l] with the bytes of [src] copied at [l + off]. *)
Definition write_range (l : list Z) (off : Z) (src : list Z)
  : outcome (list Z) :=
  if (0 <=? off) && (off + Z.of_nat (length src) <=? Z.of_nat (length l))
  then Ok (take (Z.to_nat off) l ++ src ++ drop (Z.to_nat off + length src) l)
  else Fault OutOfBounds.

(** ** The memory monad

    A memory maps the names of the buffers a function can reach to their
    contents.  A computation either faults or returns a value and the new
    memory. *)

Abbreviation mem B := (B → list Z).

Section Memory.
Context {B : Type} `{EqDecision B}.

Definition M (A : Type) : Type := mem B → outcome (A * mem B).

Definition ret {A} (a : A) : M A := fun m => Ok (a, m).

Definition bind {A R} (c : M A) (k : A → M R) : M R :=
  fun m => match c m with
           | Ok (a, m') => k a m'
           | Fault f => Fault f
           end.

Definition load (b : B) (i : Z) : M Z :=
  fun m => match get (m b) i with
           | Some v => Ok (v, m)
           | None => Fault OutOfBounds
           end.

Definition store (b : B) (i v : Z) : M unit :=
  fun m => if in_bounds (m b) i
           then Ok (tt, <[b := set (m b) i v]> m)
           else Fault OutOfBounds.

(** [memcpy(dst, src, n)] between two buffers, both from their start. *)
Definition memcpy (dst src : B) (n : Z) : M unit :=
  fun m => match read_range (m src) 0 n with
           | Ok bytes =>
               match write_range (m dst) 0 bytes with
               | Ok l => Ok (tt, <[dst := l]> m)
               | Fault f => Fault f
               end
           | Fault f => Fault f
           end.

(** [b = malloc(n)]: a fresh buffer of [n] bytes.  Its contents are
    indeterminate in C; the only [malloc]ed buffer that is read is filled by
    [memcpy] first. *)
Definition malloc (b : B) (n : Z) : M unit :=
  fun m => Ok (tt, <[b := replicate (Z.to_nat n) 0]> m).

Definition when (c : bool) (k : M unit) : M unit :=
  if c then k else ret tt.

(** [for (int i = lo; i < hi; i++) a = body i a]. *)
Fixpoint for_iter {A} (n : nat) (i : Z) (body : Z → A → M A) (a : A) : M A :=
  match n with
  | O => ret a
  | S n' => bind (body i a) (for_iter n' (i + 1) body)
  end.

Definition for_ {A} (lo hi : Z) (body : Z → A → M A) (a : A) : M A :=
  for_iter (Z.to_nat (hi - lo)) lo body a.

(** Weakest precondition for total correctness: the computation does not
    fault and its result satisfies [Q]. *)
Definition wp {A} (c : M A) (Q : A → mem B → Prop) (m : mem B) : Prop :=
  match c m with
  | Ok (a, m') => Q a m'
  | Fault _ => False
  end.
End Memory.

Arguments M B A : clear implicits.

Notation "x <- c1 ;; c2" := (bind c1 (fun x => c2))
  (at level 100, c1 at next level, right associativity).
Notation "c1 ;; c2" := (bind c1 (fun _ => c2))
  (at level 100, right associativity).

(** The pure counterpart of [for_], used to state what a loop computes. *)
Fixpoint forZ_iter {A} (n : nat) (i : Z) (body : Z → A → A) (a : A) : A :=
  match n with
  | O => a
  | S n' => forZ_iter n' (i + 1) body (body i a)
  end.

Definition forZ {A} (lo hi : Z) (body : Z → A → A) (a : A) : A :=
  forZ_iter (Z.to_nat (hi - lo)) lo body a.

(** ** Floating-point arithmetic

    [float] is IEEE-754 binary32 and [double] is binary64; every operation
    rounds to nearest, ties to even, as [SpecFloat] specifies it. *)

Module F32.
Definition prec : Z := 24.
Definition emax : Z := 128.
Definition of_int (z : Z) : spec_float := binary_normalize prec emax z 0 false.
Definition add : spec_float → spec_float → spec_float := SFadd prec emax.
Definition mul : spec_float → spec_float → spec_float := SFmul prec emax.
Definition ltb : spec_float → spec_float → bool := SFltb.
(** [(float) x] for a [double] [x]. *)
Definition of_double (x : spec_float) : spec_float :=
  match x with
  | S754_finite s m e => binary_round prec emax s m e
  | _ => x
  end.
End F32.

Module F64.
Definition prec : Z := 53.
Definition emax : Z := 1024.
Definition of_int (z : Z) : spec_float := binary_normalize prec emax z 0 false.
Definition add : spec_float → spec_float → spec_float := SFadd prec emax.
Definition mul : spec_float → spec_float → spec_float := SFmul prec emax.
Definition div : spec_float → spec_float → spec_float := SFdiv prec emax.
Definition sqrt : spec_float → spec_float := SFsqrt prec emax.
Definition ltb : spec_float → spec_float → bool := SFltb.
(** [(double) x] for a [float] [x]: exact, the mantissa is only realigned. *)
Definition of_float (x : spec_float) : spec_float :=
  match x with
  | S754_finite s m e => binary_round prec emax s m e
  | _ => x
  end.
(** A decimal literal [n / 10^k] written in the source, such as [0.299]:
    the binary64 number nearest to it. *)
Definition literal (n : Z) (pow10 : Z) : spec_float :=
  div (of_int n) (of_int pow10).
End F64.

(** Conversion of a floating-point value to an integer type drops the
    fractional part. *)
Definition trunc (x : spec_float) : Z :=
  match x with
  | S754_finite s m e => cond_Zopp s (Z.shiftl (Z.pos m) e)
  | _ => 0
  end.

(** [(unsigned char) x] for a floating-point [x].  All the values the filters
    convert lie in [0, 255]; outside that range the C conversion is not
    defined and the model takes the low eight bits. *)
Definition uchar_of_float (x : spec_float) : Z := to_uchar (trunc x).

(** ** Images and filter kinds *)

Record Image : Type := {
  data : list Z;
  width : Z;
  height : Z;
  channels : Z
}.

(** [create_image]: the pixel array is [calloc]ed, hence zero-filled. *)
Definition create_image (width height channels : Z) : Image :=
  {| data := replicate (Z.to_nat (width * height * channels)) 0;
     width := width; height := height; channels := channels |}.

(** The filter names accepted on the command line; any other name makes both
    programs exit with status 1 before an image is written. *)
Inductive FilterKind : Type := Grayscale | Blur | Edge | Brighten.

(** A constant 3x3 table indexed as [t[r][c]]. *)
Definition table3 (t : list (list Z)) (r c : Z) : Z :=
  nth (Z.to_nat c) (nth (Z.to_nat r) t []) 0.

(** [float kernel[3][3] = {{1.0/16, 2.0/16, 1.0/16}, ...}]: each entry is a
    [double] quotient stored into a [float]. *)
Definition kernel (r c : Z) : spec_float :=
  F32.of_double
    (F64.div (F64.of_int (table3 [[1; 2; 1]; [2; 4; 2]; [1; 2; 1]] r c))
             (F64.of_int 16)).

Definition Gx : Z → Z → Z := table3 [[-1; 0; 1]; [-2; 0; 2]; [-1; 0; 1]].
Definition Gy : Z → Z → Z := table3 [[-1; -2; -1]; [0; 0; 0]; [1; 2; 1]].

Definition fzero : spec_float := S754_zero false.

(** [(unsigned char)(0.299 * r + 0.587 * g + 0.114 * b)], in [double]. *)
Definition gray_of (r g b : Z) : Z :=
  uchar_of_float
    (F64.add
       (F64.add (F64.mul (F64.literal 299 1000) (F64.of_int r))
                (F64.mul (F64.literal 587 1000) (F64.of_int g)))
       (F64.mul (F64.literal 114 1000) (F64.of_int b))).

(** One step of [sum += pixel_val * kernel[di + 1][dj + 1]]. *)
Definition blur_acc (sum : spec_float) (pixel_val di dj : Z) : spec_float :=
  F32.add sum (F32.mul (F32.of_int pixel_val) (kernel (di + 1) (dj + 1))).

(** One step of [sum_x += pixel * Gx[..][..]; sum_y += pixel * Gy[..][..]]:
    the products are [int] products, converted when they are added. *)
Definition sobel_acc (sums : spec_float * spec_float) (pixel di dj : Z)
  : spec_float * spec_float :=
  (F32.add (fst sums) (F32.of_int (pixel * Gx (di + 1) (dj + 1))),
   F32.add (snd sums) (F32.of_int (pixel * Gy (di + 1) (dj + 1)))).

(** [sqrt(sum_x * sum_x + sum_y * sum_y)] stored into a [float]: the argument
    is a [float] expression, [sqrt] is the [double] function of <math.h>. *)
Definition sobel_norm (sums : spec_float * spec_float) : spec_float :=
  F32.of_double
    (F64.sqrt
       (F64.of_float
          (F32.add (F32.mul (fst sums) (fst sums))
                   (F32.mul (snd sums) (snd sums))))).

(** [new_val = v + brightness], clamped to [0, 255], cast to a byte. *)
Definition brighten_byte (v brightness : Z) : Z :=
  let new_val := v + brightness in
  let new_val := if 255 <? new_val then 255 else new_val in
  let new_val := if new_val <? 0 then 0 else new_val in
  to_uchar new_val.

(** ** The shared-memory program ([OMP/image_proc_omp.c])

    The [parallel for] loops distribute the iterations of the row loop over
    the threads.  Each iteration reads [input] only and writes its own row of
    [output], so the threads do not interact and the loop is modelled by its
    sequential order, which is also the order a static schedule follows
    inside each thread. *)

Inductive omp_buf : Type := Input | Output.

#[global] Instance omp_buf_eq_dec : EqDecision omp_buf.
Proof. solve_decision. Defined.

Definition grayscale_filter (width height channels : Z) : M omp_buf unit :=
  for_ 0 height (fun i _ =>
    for_ 0 width (fun j _ =>
      let idx := (i * width + j) * channels in
      r <- load Input idx ;;
      g <- (if 1 <? channels then load Input (idx + 1) else ret r) ;;
      b <- (if 2 <? channels then load Input (idx + 2) else ret r) ;;
      let gray := gray_of r g b in
      store Output idx gray ;;
      when (1 <? channels) (store Output (idx + 1) gray) ;;
      when (2 <? channels) (store Output (idx + 2) gray) ;;
      when (3 <? channels)
        (a <- load Input (idx + 3) ;; store Output (idx + 3) a)) tt) tt.

Definition blur_interior (width height channels : Z) : M omp_buf unit :=
  for_ 1 (height - 1) (fun i _ =>
    for_ 1 (width - 1) (fun j _ =>
      for_ 0 channels (fun c _ =>
        sum <- for_ (-1) 2 (fun di sum =>
                 for_ (-1) 2 (fun dj sum =>
                   let idx := ((i + di) * width + (j + dj)) * channels + c in
                   v <- load Input idx ;;
                   ret (blur_acc sum v di dj)) sum) fzero ;;
        let out_idx := (i * width + j) * channels + c in
        store Output out_idx (uchar_of_float sum)) tt) tt) tt.

Definition copy_borders (width height channels : Z) : M omp_buf unit :=
  for_ 0 height (fun i _ =>
    if (i =? 0) || (i =? height - 1) then
      for_ 0 width (fun j _ =>
        let idx := (i * width + j) * channels in
        for_ 0 channels (fun c _ =>
          v <- load Input (idx + c) ;; store Output (idx + c) v) tt) tt
    else
      let idx_left := (i * width) * channels in
      let idx_right := (i * width + width - 1) * channels in
      for_ 0 channels (fun c _ =>
        l <- load Input (idx_left + c) ;;
        store Output (idx_left + c) l ;;
        r <- load Input (idx_right + c) ;;
        store Output (idx_right + c) r) tt) tt.

Definition gaussian_blur_filter (width height channels : Z) : M omp_buf unit :=
  blur_interior width height channels ;;
  copy_borders width height channels.

Definition sobel_edge_filter (width height channels : Z) : M omp_buf unit :=
  for_ 1 (height - 1) (fun i _ =>
    for_ 1 (width - 1) (fun j _ =>
      sums <- for_ (-1) 2 (fun di sums =>
                for_ (-1) 2 (fun dj sums =>
                  let idx := ((i + di) * width + (j + dj)) * channels in
                  pixel <- load Input idx ;;
                  ret (sobel_acc sums pixel di dj)) sums) (fzero, fzero) ;;
      let magnitude := sobel_norm sums in
      let magnitude :=
        if F32.ltb (F32.of_int 255) magnitude then F32.of_int 255
        else magnitude in
      let out_idx := (i * width + j) * channels in
      let edge_value := uchar_of_float magnitude in
      for_ 0 channels (fun c _ => store Output (out_idx + c) edge_value) tt)
    tt) tt.

Definition brightness_filter (width height channels brightness : Z)
  : M omp_buf unit :=
  for_ 0 height (fun i _ =>
    for_ 0 width (fun j _ =>
      let idx := (i * width + j) * channels in
      for_ 0 channels (fun c _ =>
        v <- load Input (idx + c) ;;
        store Output (idx + c) (brighten_byte v brightness)) tt) tt) tt.

Definition omp_filter (filter : FilterKind) (width height channels : Z)
  : M omp_buf unit :=
  match filter with
  | Grayscale => grayscale_filter width height channels
  | Blur => gaussian_blur_filter width height channels
  | Edge => sobel_edge_filter width height channels
  | Brighten => brightness_filter width height channels 50
  end.

Definition omp_mem (input output : list Z) : mem omp_buf :=
  fun b => match b with Input => input | Output => output end.

(** [main]: the output image is created zero-filled, the filter runs, and
    the output image is what gets saved. *)
Definition omp_main (filter : FilterKind) (input : Image) : outcome Image :=
  let output := create_image (width input) (height input) (channels input) in
  match omp_filter filter (width input) (height input) (channels input)
          (omp_mem (data input) (data output)) with
  | Ok (_, m) =>
      Ok {| data := m Output; width := width output;
            height := height output; channels := channels output |}
  | Fault f => Fault f
  end.

(** ** The distributed program ([MPI/image_proc_mpi.c])

    Every rank owns four buffers: its band [local_data], the two halo rows,
    and the scratch copy [temp] of the stencil filters. *)

Inductive mpi_buf : Type := LocalData | Temp | HaloTop | HaloBottom.

#[global] Instance mpi_buf_eq_dec : EqDecision mpi_buf.
Proof. solve_decision. Defined.

(** [free(b)]: the buffer is gone. *)
Definition free (b : mpi_buf) : M mpi_buf unit :=
  fun m => Ok (tt, <[b := []]> m).

Definition grayscale_filter_mpi (local_height width channels : Z)
  : M mpi_buf unit :=
  for_ 0 local_height (fun i _ =>
    for_ 0 width (fun j _ =>
      let idx := (i * width + j) * channels in
      r <- load LocalData idx ;;
      g <- (if 1 <? channels then load LocalData (idx + 1) else ret r) ;;
      b <- (if 2 <? channels then load LocalData (idx + 2) else ret r) ;;
      let gray := gray_of r g b in
      store LocalData idx gray ;;
      when (1 <? channels) (store LocalData (idx + 1) gray) ;;
      when (2 <? channels) (store LocalData (idx + 2) gray)) tt) tt.

(** The pixel a stencil reads at local row [ni], column [nj], byte [c] of the
    pixel: from a halo row outside the band, from [temp] inside. *)
Definition stencil_load (local_height width channels ni nj c : Z)
  : M mpi_buf Z :=
  if ni <? 0 then load HaloTop (nj * channels + c)
  else if local_height <=? ni then load HaloBottom (nj * channels + c)
  else load Temp ((ni * width + nj) * channels + c).

(** [(rank == 0 && i == 0) || (rank == size - 1 && i == local_height - 1)] *)
Definition skip_row (local_height rank size i : Z) : bool :=
  ((rank =? 0) && (i =? 0)) || ((rank =? size - 1) && (i =? local_height - 1)).

Definition blur_rows_mpi (local_height width channels rank size : Z)
  : M mpi_buf unit :=
  for_ 0 local_height (fun i _ =>
    let start_j := if (i =? 0) || (i =? local_height - 1) then 1 else 1 in
    let end_j := width - 1 in
    if skip_row local_height rank size i then ret tt
    else
      for_ start_j end_j (fun j _ =>
        for_ 0 channels (fun c _ =>
          sum <- for_ (-1) 2 (fun di sum =>
                   for_ (-1) 2 (fun dj sum =>
                     let ni := i + di in
                     let nj := j + dj in
                     pixel_val <-
                       stencil_load local_height width channels ni nj c ;;
                     ret (blur_acc sum pixel_val di dj)) sum) fzero ;;
          let out_idx := (i * width + j) * channels + c in
          store LocalData out_idx (uchar_of_float sum)) tt) tt) tt.

Definition gaussian_blur_filter_mpi (local_height width channels rank size : Z)
  : M mpi_buf unit :=
  malloc Temp (local_height * width * channels) ;;
  memcpy Temp LocalData (local_height * width * channels) ;;
  blur_rows_mpi local_height width channels rank size ;;
  free Temp.

Definition sobel_rows_mpi (local_height width channels rank size : Z)
  : M mpi_buf unit :=
  for_ 0 local_height (fun i _ =>
    let start_j := 1 in
    let end_j := width - 1 in
    if skip_row local_height rank size i then ret tt
    else
      for_ start_j end_j (fun j _ =>
        sums <- for_ (-1) 2 (fun di sums =>
                  for_ (-1) 2 (fun dj sums =>
                    let ni := i + di in
                    let nj := j + dj in
                    pixel_val <-
                      stencil_load local_height width channels ni nj 0 ;;
                    ret (sobel_acc sums pixel_val di dj)) sums)
                  (fzero, fzero) ;;
        let magnitude := sobel_norm sums in
        let magnitude :=
          if F64.ltb (F64.of_int 255) (F64.of_float magnitude)
          then F32.of_double (F64.of_int 255)
          else magnitude in
        let edge_value := uchar_of_float magnitude in
        let out_idx := (i * width + j) * channels in
        for_ 0 channels (fun c _ => store LocalData (out_idx + c) edge_value)
          tt) tt) tt.

Definition sobel_edge_filter_mpi (local_height width channels rank size : Z)
  : M mpi_buf unit :=
  malloc Temp (local_height * width * channels) ;;
  memcpy Temp LocalData (local_height * width * channels) ;;
  sobel_rows_mpi local_height width channels rank size ;;
  free Temp.

Definition brightness_filter_mpi (local_height width channels brightness : Z)
  : M mpi_buf unit :=
  let local_size := local_height * width * channels in
  for_ 0 local_size (fun i _ =>
    v <- load LocalData i ;;
    store LocalData i (brighten_byte v brightness)) tt.

(** *** Partition of the rows ([main], "Calculate rows per process") *)

(** [local_height] of a rank. *)
Definition local_height_of (height size rank : Z) : Z :=
  let rows_per_process := height ÷ size in
  let remainder := Z.rem height size in
  let local_height := rows_per_process in
  if rank <? remainder then local_height + 1 else local_height.

(** The loop of rank 0 that fills [sendcounts] and [displs]; both arrays are
    [malloc]ed with [size] entries. *)
Definition layout (height size width channels : Z) : list Z * list Z :=
  let rows_per_process := height ÷ size in
  let remainder := Z.rem height size in
  let '(sendcounts, displs, _) :=
    forZ 0 size (fun i '(sendcounts, displs, offset) =>
      let rows := rows_per_process in
      let rows := if i <? remainder then rows + 1 else rows in
      let sendcounts := set sendcounts i (rows * width * channels) in
      let displs := set displs i offset in
      (sendcounts, displs, offset + rows * width * channels))
      (replicate (Z.to_nat size) 0, replicate (Z.to_nat size) 0, 0) in
  (sendcounts, displs).

(** Entry [i] of an [int] array of the layout. *)
Definition entry (a : list Z) (i : Z) : outcome Z :=
  match get a i with
  | Some v => Ok v
  | None => Fault OutOfBounds
  end.

(** The same step on every rank, in rank order; the first fault wins. *)
Fixpoint on_ranks {A R} (f : A → outcome R) (l : list A) : outcome (list R) :=
  match l with
  | [] => Ok []
  | a :: l' => do r <- f a; do rs <- on_ranks f l'; Ok (r :: rs)
  end.

(** *** Scatter and gather *)

(** [MPI_Scatterv]: rank [r] receives [sendcounts[r]] bytes taken at
    [displs[r]] in the buffer of rank 0, into its [local_data] of
    [local_size] bytes. *)
Definition scatterv (full : list Z) (sendcounts displs : list Z)
    (local_size rank : Z) : outcome (list Z) :=
  do count <- entry sendcounts rank;
  do displ <- entry displs rank;
  do bytes <- read_range full displ count;
  write_range (replicate (Z.to_nat local_size) 0) 0 bytes.

(** [MPI_Gatherv]: rank 0 stores the [local_size] bytes each rank sends at
    [displs[r]] of its buffer, which has room for [recvcounts[r]] there. *)
Definition gatherv_one (recvcounts displs : list Z) (full : list Z)
    (rank : Z) (local_data : list Z) (local_size : Z) : outcome (list Z) :=
  do count <- entry recvcounts rank;
  do displ <- entry displs rank;
  do bytes <- read_range local_data 0 local_size;
  if local_size <=? count then write_range full displ bytes
  else Fault OutOfBounds.

Fixpoint gatherv (recvcounts displs : list Z) (full : list Z)
    (bands : list (Z * list Z * Z)) : outcome (list Z) :=
  match bands with
  | [] => Ok full
  | (rank, local_data, local_size) :: rest =>
      do full' <- gatherv_one recvcounts displs full rank local_data local_size;
      gatherv recvcounts displs full' rest
  end.

(** *** Halo exchange *)

Record message : Type := {
  msg_src : Z;
  msg_dest : Z;
  msg_tag : Z;
  msg_bytes : list Z
}.

(** The two [MPI_Isend] of a rank: its first row to the rank above with tag
    0, its last row to the rank below with tag 1. *)
Definition halo_sends (rank size local_height row_size : Z)
    (local_data : list Z) : outcome (list message) :=
  do up <- (if 0 <? rank then
              do bytes <- read_range local_data 0 row_size;
              Ok [{| msg_src := rank; msg_dest := rank - 1; msg_tag := 0;
                     msg_bytes := bytes |}]
            else Ok []);
  do down <- (if rank <? size - 1 then
                do bytes <- read_range local_data
                              ((local_height - 1) * row_size) row_size;
                Ok [{| msg_src := rank; msg_dest := rank + 1; msg_tag := 1;
                       msg_bytes := bytes |}]
              else Ok []);
  Ok (up ++ down).

(** [MPI_Irecv] of [row_size] bytes from [src] with tag [tag] into [buf],
    completed by [MPI_Waitall]. *)
Definition halo_recv (net : list message) (me src tag : Z) (buf : list Z)
  : outcome (list Z) :=
  match List.find (fun msg => (msg_src msg =? src) && (msg_dest msg =? me)
                              && (msg_tag msg =? tag)) net with
  | Some msg => write_range buf 0 (msg_bytes msg)
  | None => Fault Unmatched
  end.

(** The halo rows of a rank after the exchange; both start [calloc]ed. *)
Definition halo_recvs (net : list message) (rank size row_size : Z)
  : outcome (list Z * list Z) :=
  let halo_top := replicate (Z.to_nat row_size) 0 in
  let halo_bottom := replicate (Z.to_nat row_size) 0 in
  do halo_top <- (if 0 <? rank then halo_recv net rank (rank - 1) 1 halo_top
                  else Ok halo_top);
  do halo_bottom <- (if rank <? size - 1
                     then halo_recv net rank (rank + 1) 0 halo_bottom
                     else Ok halo_bottom);
  Ok (halo_top, halo_bottom).

(** The exchange over all ranks: [bands] lists the [local_data] of ranks
    [0 .. size - 1].  All sends are posted, then all receives complete. *)
Definition halo_exchange (height size row_size : Z) (bands : list (list Z))
  : outcome (list (list Z * list Z)) :=
  do sent <- on_ranks (fun '(rank, local_data) =>
               halo_sends rank size (local_height_of height size rank)
                 row_size local_data) (zip (seqZ 0 size) bands);
  on_ranks (fun rank => halo_recvs (concat sent) rank size row_size)
    (seqZ 0 size).

(** *** [main] *)

Definition mpi_mem (local_data halo_top halo_bottom : list Z) : mem mpi_buf :=
  fun b => match b with
           | LocalData => local_data
           | HaloTop => halo_top
           | HaloBottom => halo_bottom
           | Temp => []
           end.

(** Run a filter on the memory of one rank and keep its band. *)
Definition run_band (c : M mpi_buf unit) (m : mem mpi_buf) : outcome (list Z) :=
  match c m with
  | Ok (_, m') => Ok (m' LocalData)
  | Fault f => Fault f
  end.

(** The filter step of [main] on all ranks, halo exchange included. *)
Definition mpi_filter (filter : FilterKind) (height size width channels : Z)
    (bands : list (list Z)) : outcome (list (list Z)) :=
  let ranks := seqZ 0 size in
  let local_height rank := local_height_of height size rank in
  match filter with
  | Grayscale =>
      on_ranks (fun '(rank, local_data) =>
        run_band (grayscale_filter_mpi (local_height rank) width channels)
          (mpi_mem local_data [] [])) (zip ranks bands)
  | Blur =>
      let row_size := width * channels in
      do halos <- halo_exchange height size row_size bands;
      on_ranks (fun '(rank, local_data, (halo_top, halo_bottom)) =>
        run_band (gaussian_blur_filter_mpi (local_height rank) width channels
                    rank size)
          (mpi_mem local_data halo_top halo_bottom))
        (zip (zip ranks bands) halos)
  | Edge =>
      let row_size := width * channels in
      do halos <- halo_exchange height size row_size bands;
      on_ranks (fun '(rank, local_data, (halo_top, halo_bottom)) =>
        run_band (sobel_edge_filter_mpi (local_height rank) width channels
                    rank size)
          (mpi_mem local_data halo_top halo_bottom))
        (zip (zip ranks bands) halos)
  | Brighten =>
      on_ranks (fun '(rank, local_data) =>
        run_band (brightness_filter_mpi (local_height rank) width channels 50)
          (mpi_mem local_data [] [])) (zip ranks bands)
  end.

(** [main] run by [size] processes on the image rank 0 loaded: layout,
    scatter, filter, gather; the gathered buffer is the image that is saved. *)
Definition mpi_main (size : Z) (filter : FilterKind) (full_image : Image)
  : outcome Image :=
  let width := width full_image in
  let height := height full_image in
  let channels := channels full_image in
  let '(sendcounts, displs) := layout height size width channels in
  let ranks := seqZ 0 size in
  let local_size rank := local_height_of height size rank * width * channels in
  do bands <- on_ranks (fun rank =>
                scatterv (data full_image) sendcounts displs (local_size rank)
                  rank) ranks;
  do bands' <- mpi_filter filter height size width channels bands;
  do full <- gatherv sendcounts displs (data full_image)
               (zip (zip ranks bands') (local_size <$> ranks));
  Ok {| data := full; width := width; height := height;
        channels := channels |}.

(** ** Specification vocabulary *)

Definition sumZ (l : list Z) : Z := foldr Z.add 0 l.

(** The exclusive prefix sum of the row counts, in rank order. *)
Definition row_offset_of (height size rank : Z) : Z :=
  sumZ (local_height_of height size <$> seqZ 0 rank).

(** *** Footprints

    How a loop nest that fills a buffer is specified: the computation [c]
    writes the buffer [out] only, and only at the indices of its footprint
    [fp], where it leaves the bytes [G] prescribes; every other buffer keeps
    the contents [ctx] gives it.  A filter that works in place may read the
    bytes of its footprint before it overwrites them: they still hold the
    original contents [orig] of [out] when [c] starts. *)

Section Footprint.
Context {B : Type} `{EqDecision B}.
Variables (out : B) (ctx : mem B) (orig : list Z).

Definition stable (m : mem B) : Prop :=
  length (m out) = length orig ∧ ∀ b, b ≠ out → m b = ctx b.

Definition untouched (fp : Z → Prop) (m : mem B) : Prop :=
  ∀ idx, fp idx → get (m out) idx = get orig idx.

Definition writes (fp : Z → Prop) (G : Z → Z) (c : M B unit) : Prop :=
  ∀ m, stable m → untouched fp m →
    wp c (fun _ m' =>
            stable m' ∧
            (∀ idx, fp idx → get (m' out) idx = Some (G idx)) ∧
            (∀ idx, ¬ fp idx → get (m' out) idx = get (m out) idx)) m.

Definition reads {A} (fp : Z → Prop) (c : M B A) (a : A) : Prop :=
  ∀ m, stable m → untouched fp m → c m = Ok (a, m).

(** A filter that does not read [out] needs no such assumption, and may
    write a byte more than once. *)
Definition fills (fp : Z → Prop) (G : Z → Z) (c : M B unit) : Prop :=
  ∀ m, stable m →
    wp c (fun _ m' =>
            stable m' ∧
            (∀ idx, fp idx → get (m' out) idx = Some (G idx)) ∧
            (∀ idx, ¬ fp idx → get (m' out) idx = get (m out) idx) ∧
            (∀ idx, get (m' out) idx = Some (G idx) ∨
                    get (m' out) idx = get (m out) idx)) m.

Definition looks {A} (c : M B A) (a : A) : Prop :=
  ∀ m, stable m → c m = Ok (a, m).
End Footprint.

(** The byte of a buffer at an index, 0 outside the buffer. *)
Definition byte (l : list Z) (i : Z) : Z := default 0 (get l i).

(** Offset of byte [c] of the pixel at row [i], column [j]. *)
Definition offset (width channels i j c : Z) : Z :=
  (i * width + j) * channels + c.

(** Row, column and channel of the byte at an offset. *)
Definition row_of (width channels idx : Z) : Z := idx / (width * channels).
Definition col_of (width channels idx : Z) : Z := (idx / channels) mod width.
Definition chan_of (channels idx : Z) : Z := idx mod channels.

(** The bytes of one pixel, and the bytes of one row. *)
Definition pixel_fp (width channels i j idx : Z) : Prop :=
  ∃ c, 0 ≤ c < channels ∧ idx = offset width channels i j c.

Definition row_fp (width channels i idx : Z) : Prop :=
  ∃ j, 0 ≤ j < width ∧ pixel_fp width channels i j idx.

(** *** What each filter computes, byte by byte *)

(** Brighten: every byte of the input, brightened. *)
Definition brighten_spec (input : list Z) (brightness idx : Z) : Z :=
  brighten_byte (byte input idx) brightness.

(** Grayscale: the gray level of the pixel in its first three bytes, the
    input byte elsewhere. *)
Definition gray_pixel (channels : Z) (input : list Z) (p : Z) : Z :=
  let r := byte input p in
  let g := if 1 <? channels then byte input (p + 1) else r in
  let b := if 2 <? channels then byte input (p + 2) else r in
  gray_of r g b.

Definition grayscale_spec (channels : Z) (input : list Z) (idx : Z) : Z :=
  let c := chan_of channels idx in
  if c <? 3 then gray_pixel channels input (idx - c) else byte input idx.

(** The 3x3 neighbourhood sums, over a reader [rd di dj] of the pixel at
    row offset [di] and column offset [dj]. *)
Definition blur_value (rd : Z → Z → Z) : Z :=
  uchar_of_float
    (forZ (-1) 2 (fun di sum =>
       forZ (-1) 2 (fun dj sum => blur_acc sum (rd di dj) di dj) sum) fzero).

Definition sobel_sums (rd : Z → Z → Z) : spec_float * spec_float :=
  forZ (-1) 2 (fun di sums =>
    forZ (-1) 2 (fun dj sums => sobel_acc sums (rd di dj) di dj) sums)
    (fzero, fzero).

(** [if (magnitude > 255) magnitude = 255;] of the OpenMP program compares
    in [float]; [if (magnitude > 255.0) magnitude = 255.0;] of the MPI
    program compares in [double]. *)
Definition edge_value_omp (rd : Z → Z → Z) : Z :=
  let magnitude := sobel_norm (sobel_sums rd) in
  uchar_of_float
    (if F32.ltb (F32.of_int 255) magnitude then F32.of_int 255 else magnitude).

Definition edge_value_mpi (rd : Z → Z → Z) : Z :=
  let magnitude := sobel_norm (sobel_sums rd) in
  uchar_of_float
    (if F64.ltb (F64.of_int 255) (F64.of_float magnitude)
     then F32.of_double (F64.of_int 255) else magnitude).

(** Interior pixels: not on the first or last row or column. *)
Definition interior (width height i j : Z) : bool :=
  (1 <=? i) && (i <? height - 1) && (1 <=? j) && (j <? width - 1).

(** Blur of a whole image: the kernel on interior pixels, the input byte on
    the border. *)
Definition blur_spec (width height channels : Z) (input : list Z) (idx : Z)
  : Z :=
  let i := row_of width channels idx in
  let j := col_of width channels idx in
  let c := chan_of channels idx in
  if interior width height i j
  then blur_value (fun di dj =>
         byte input (offset width channels (i + di) (j + dj) c))
  else byte input idx.

(** Edge detection of a whole image on an interior pixel: the gradient of
    byte 0 of the neighbours, in every byte of the pixel. *)
Definition sobel_spec (width channels : Z) (input : list Z) (idx : Z) : Z :=
  let i := row_of width channels idx in
  let j := col_of width channels idx in
  edge_value_omp (fun di dj =>
    byte input (((i + di) * width + (j + dj)) * channels)).

(** [clamp v lo hi] as the specification writes it. *)
Definition clamp (v lo hi : Z) : Z := Z.max lo (Z.min v hi).

(** The bytes of a buffer are bytes. *)
Definition bytes (l : list Z) : Prop := ∀ i v, get l i = Some v → 0 ≤ v < 256.

(** *** What the stencil filters compute on a band

    [temp] is the band as it was scattered, [halo_top] and [halo_bottom] the
    rows received from the neighbours. *)

Definition band_read (local_height width channels : Z)
    (temp halo_top halo_bottom : list Z) (ni nj c : Z) : Z :=
  if ni <? 0 then byte halo_top (nj * channels + c)
  else if local_height <=? ni then byte halo_bottom (nj * channels + c)
  else byte temp ((ni * width + nj) * channels + c).

(** The pixels a stencil filter recomputes in a band: those of the rows it
    does not skip, first and last column excluded. *)
Definition recomputed (local_height width rank size i j : Z) : bool :=
  negb (skip_row local_height rank size i) && (1 <=? j) && (j <? width - 1).

Definition blur_band_spec (local_height width channels rank size : Z)
    (temp halo_top halo_bottom : list Z) (idx : Z) : Z :=
  let i := row_of width channels idx in
  let j := col_of width channels idx in
  let c := chan_of channels idx in
  if recomputed local_height width rank size i j
  then blur_value (fun di dj =>
         band_read local_height width channels temp halo_top halo_bottom
           (i + di) (j + dj) c)
  else byte temp idx.

Definition sobel_band_spec (local_height width channels rank size : Z)
    (temp halo_top halo_bottom : list Z) (idx : Z) : Z :=
  let i := row_of width channels idx in
  let j := col_of width channels idx in
  if recomputed local_height width rank size i j
  then edge_value_mpi (fun di dj =>
         band_read local_height width channels temp halo_top halo_bottom
           (i + di) (j + dj) 0)
  else byte temp idx.

(** The memory of a rank inside a stencil filter, after [memcpy]. *)
Definition stencil_mem (local_data temp halo_top halo_bottom : list Z)
  : mem mpi_buf :=
  fun b => match b with
           | LocalData => local_data
           | Temp => temp
           | HaloTop => halo_top
           | HaloBottom => halo_bottom
           end.

(** The bytes a stencil filter recomputes in a band. *)
Definition stencil_fp (local_height width channels rank size idx : Z) : Prop :=
  ∃ i, 0 ≤ i < local_height ∧ skip_row local_height rank size i = false ∧
  ∃ j, 1 ≤ j < width - 1 ∧ ∃ c, 0 ≤ c < channels ∧
    idx = offset width channels i j c.

(** The bytes a filter of the shared-memory program writes in the output
    image, and what it writes there: a value computed from the input image
    alone. *)
Definition omp_written (filter : FilterKind) (width height channels idx : Z)
  : Prop :=
  match filter with
  | Grayscale =>
      ∃ i, 0 ≤ i < height ∧ ∃ j, 0 ≤ j < width ∧
      ∃ c, 0 ≤ c < Z.min channels 4 ∧ idx = offset width channels i j c
  | Edge =>
      ∃ i, 1 ≤ i < height - 1 ∧ ∃ j, 1 ≤ j < width - 1 ∧
      ∃ c, 0 ≤ c < channels ∧ idx = offset width channels i j c
  | Blur | Brighten => 0 ≤ idx < width * height * channels
  end.

Definition omp_spec (filter : FilterKind) (width height channels : Z)
    (input : list Z) : Z → Z :=
  match filter with
  | Grayscale => grayscale_spec channels input
  | Blur => blur_spec width height channels input
  | Edge => sobel_spec width channels input
  | Brighten => brighten_spec input 50
  end.

(** Modelled from the spec's words, to compare with [gray_of]: the gray
    level [floor(0.299 R + 0.587 G + 0.114 B)] in exact arithmetic. *)
Definition gray_floor_exact (r g b : Z) : Z :=
  (299 * r + 587 * g + 114 * b) / 1000.

(** What the grayscale filter leaves in [output] for the image [input]: the
    gray level of each pixel, computed by [gray_of] from its bytes (a missing
    G or B defaults to R), in the first three bytes of the pixel, and the
    input byte in byte 3. *)
Definition grayscale_image (width height channels : Z) (input output : list Z)
  : Prop :=
  ∀ i j, 0 ≤ i < height → 0 ≤ j < width →
    let r := byte input (offset width channels i j 0) in
    let g := if 1 <? channels then byte input (offset width channels i j 1)
             else r in
    let b := if 2 <? channels then byte input (offset width channels i j 2)
             else r in
    (∀ c, 0 ≤ c < Z.min channels 3 →
       get output (offset width channels i j c) = Some (gray_of r g b)) ∧
    (3 < channels →
       get output (offset width channels i j 3) =
       get input (offset width channels i j 3)).

(** *** Rows and bands of an image *)

(** The [rows] rows of the image that start at row [first]. *)
Definition band_rows (width channels : Z) (input : list Z) (first rows : Z)
  : list Z :=
  slice input (first * width * channels) (rows * width * channels).

Definition image_row (width channels : Z) (input : list Z) (r : Z) : list Z :=
  band_rows width channels input r 1.

(** The band of a rank: [local_height] rows from its row offset on. *)
Definition band_of (width height channels size : Z) (input : list Z)
    (rank : Z) : list Z :=
  band_rows width channels input (row_offset_of height size rank)
    (local_height_of height size rank).

(** The messages a rank posts in the halo exchange. *)
Definition sends_of (width height channels size : Z) (input : list Z)
    (rank : Z) : list message :=
  (if 0 <? rank
   then [{| msg_src := rank; msg_dest := rank - 1; msg_tag := 0;
            msg_bytes := image_row width channels input
                           (row_offset_of height size rank) |}]
   else []) ++
  (if rank <? size - 1
   then [{| msg_src := rank; msg_dest := rank + 1; msg_tag := 1;
            msg_bytes := image_row width channels input
                           (row_offset_of height size rank +
                            local_height_of height size rank - 1) |}]
   else []).

(** The halo rows a rank holds after the exchange: the image rows just above
    and just below its band, zeros where the band touches the image edge. *)
Definition halos_of (width height channels size : Z) (input : list Z)
    (rank : Z) : list Z * list Z :=
  (if 0 <? rank
   then image_row width channels input (row_offset_of height size rank - 1)
   else replicate (Z.to_nat (width * channels)) 0,
   if rank <? size - 1
   then image_row width channels input
          (row_offset_of height size rank + local_height_of height size rank)
   else replicate (Z.to_nat (width * channels)) 0).

(** *** What the distributed program computes on the whole image *)

(** Edge detection as the distributed program performs it: the gradient on
    interior pixels, the input byte on the border. *)
Definition edge_image_spec (width height channels : Z) (input : list Z)
    (idx : Z) : Z :=
  let i := row_of width channels idx in
  let j := col_of width channels idx in
  if interior width height i j
  then edge_value_mpi (fun di dj =>
         byte input (offset width channels (i + di) (j + dj) 0))
  else byte input idx.

Definition mpi_spec (filter : FilterKind) (width height channels : Z)
    (input : list Z) : Z → Z :=
  match filter with
  | Grayscale => grayscale_spec channels input
  | Blur => blur_spec width height channels input
  | Edge => edge_image_spec width height channels input
  | Brighten => brighten_spec input 50
  end.

(** The buffer of [n] bytes whose byte at [idx] is [f idx]. *)
Definition buffer_of (n : Z) (f : Z → Z) : list Z := f <$> seqZ 0 n.

(** ** The C library calls of the I/O code

    [load_image], [save_image] and the two [main] functions talk to the
    file system and to the command line.  A file is the list of its bytes; a
    stream open for reading is the list of the bytes not read yet. *)

(** What the C standard leaves undefined and this code can run into. *)
Inductive undefined : Type :=
| Indeterminate        (* the value of an object never assigned is used *)
| IntOverflow          (* an [int] result cannot be represented *)
| NullPointer          (* a library call on a null pointer *)
| Faulted (f : fault). (* a fault of a buffer access or of the exchange *)

Inductive result (A : Type) : Type :=
| Res (a : A)
| Undef (u : undefined).
Arguments Res {A} a.
Arguments Undef {A} u.

#[global] Instance result_bind : MBind result := fun A R k r =>
  match r with
  | Res a => k a
  | Undef u => Undef u
  end.

Definition of_outcome {A} (o : outcome A) : result A :=
  match o with
  | Ok a => Res a
  | Fault f => Undef (Faulted f)
  end.

Definition INT_MAX : Z := 2147483647.
Definition INT_MIN : Z := -2147483648.

(** An [int] result: undefined when it cannot be represented. *)
Definition int (v : Z) : result Z :=
  if (INT_MIN <=? v) && (v <=? INT_MAX) then Res v else Undef IntOverflow.

(** [(size_t) v], with a [size_t] of 64 bits. *)
Definition size_t (v : Z) : Z := v mod 2 ^ 64.

(** The bytes of a string literal. *)
Definition codes (s : string) : list Z :=
  (fun c => Z.of_N (Ascii.N_of_ascii c)) <$> String.list_ascii_of_string s.

(** [isspace] and [isdigit] in the "C" locale. *)
Definition isspace (c : Z) : bool := (c =? 32) || ((9 <=? c) && (c <=? 13)).
Definition isdigit (c : Z) : bool := (48 <=? c) && (c <=? 57).

(** *** [fscanf] *)

Fixpoint skip_space (fp : list Z) : list Z :=
  match fp with
  | c :: fp' => if isspace c then skip_space fp' else fp
  | [] => []
  end.

(** At most [w] bytes up to the next white space. *)
Fixpoint scan_word (w : nat) (fp : list Z) : list Z * list Z :=
  match w, fp with
  | S w', c :: fp' =>
      if isspace c then ([], fp)
      else let '(word, rest) := scan_word w' fp' in (c :: word, rest)
  | _, _ => ([], fp)
  end.

(** [%ws]: white space is skipped, then at most [w] bytes that are not
    white space are stored; the conversion fails at the end of the file. *)
Definition scan_s (w : nat) (fp : list Z) : option (list Z) * list Z :=
  match scan_word w (skip_space fp) with
  | ([], rest) => (None, rest)
  | (word, rest) => (Some word, rest)
  end.

Fixpoint scan_digits (fp : list Z) (acc : Z) : Z * list Z :=
  match fp with
  | c :: fp' =>
      if isdigit c then scan_digits fp' (acc * 10 + (c - 48)) else (acc, fp)
  | [] => (acc, [])
  end.

(** [%d], and [strtol] in base 10: white space is skipped, then an optional
    sign and decimal digits are read; the conversion fails when no digit
    follows. *)
Definition scan_d (fp : list Z) : option Z * list Z :=
  let fp := skip_space fp in
  let '(negative, fp) :=
    match fp with
    | c :: fp' =>
        if c =? 45 then (true, fp')
        else if c =? 43 then (false, fp')
        else (false, fp)
    | [] => (false, fp)
    end in
  match fp with
  | c :: _ =>
      if isdigit c
      then let '(v, rest) := scan_digits fp 0 in
           (Some (if negative then - v else v), rest)
      else (None, fp)
  | [] => (None, [])
  end.

Inductive directive : Type :=
| conv_s (w : nat)   (* [%ws] *)
| conv_d             (* [%d] *)
| white.             (* white space in the format *)

Inductive item : Type :=
| item_s (s : list Z)
| item_d (v : Z).

(** [fscanf(fp, fmt, ...)]: the items converted, in order, and the stream
    after the call.  The call returns at the first conversion that fails;
    a number that does not fit its [int] is undefined. *)
Fixpoint fscanf (fmt : list directive) (fp : list Z)
  : result (list item * list Z) :=
  match fmt with
  | [] => Res ([], fp)
  | white :: fmt' => fscanf fmt' (skip_space fp)
  | conv_s w :: fmt' =>
      match scan_s w fp with
      | (Some s, fp') =>
          '(items, fp'') ← fscanf fmt' fp'; Res (item_s s :: items, fp'')
      | (None, fp') => Res ([], fp')
      end
  | conv_d :: fmt' =>
      match scan_d fp with
      | (Some v, fp') =>
          v ← int v;
          '(items, fp'') ← fscanf fmt' fp'; Res (item_d v :: items, fp'')
      | (None, fp') => Res ([], fp')
      end
  end.

(** [atoi(s)]: the number [s] starts with, 0 when it starts with none. *)
Definition atoi (s : string) : result Z :=
  match scan_d (codes s) with
  | (Some v, _) => int v
  | (None, _) => Res 0
  end.

(** [fread(buf, 1, n, fp)]: the bytes read overwrite the start of [buf];
    the result is [buf], the number of bytes read and the stream. *)
Definition fread (buf : list Z) (n : Z) (fp : list Z)
  : list Z * Z * list Z :=
  let bytes := take (Z.to_nat n) fp in
  (bytes ++ drop (length bytes) buf, Z.of_nat (length bytes),
   drop (Z.to_nat n) fp).

(** *** [fprintf] *)

(** The decimal digits of [n >= 0], most significant first. *)
Fixpoint digits (fuel : nat) (n : Z) (acc : list Z) : list Z :=
  match fuel with
  | O => acc
  | S fuel' =>
      let acc := (48 + n mod 10) :: acc in
      if n <? 10 then acc else digits fuel' (n / 10) acc
  end.

(** [%d] *)
Definition print_d (n : Z) : list Z :=
  if n <? 0 then 45 :: digits (S (Z.to_nat (Z.log2 (- n)))) (- n) []
  else digits (S (Z.to_nat (Z.log2 n))) n [].

(** ["P6\n%d %d\n255\n"] *)
Definition ppm_header (width height : Z) : list Z :=
  codes "P6" ++ [10] ++ print_d width ++ [32] ++ print_d height ++ [10] ++
  codes "255" ++ [10].

(** *** The file system *)

Record filesystem : Type := {
  (** the bytes of the files [fopen(name, "rb")] opens *)
  file : string → option (list Z);
  (** the names [fopen(name, "wb")] opens *)
  writable : string → bool
}.

(** A file written and closed. *)
Definition write_file (fs : filesystem) (name : string) (bytes : list Z)
  : filesystem :=
  {| file := <[name := Some bytes]> (file fs); writable := writable fs |}.

(** ** Image files of the shared-memory program *)

(** [create_image] with its [int] product [width * height * channels]. *)
Definition create_image_int (width height channels : Z) : result Image :=
  n ← int (width * height);
  _ ← int (n * channels);
  Res (create_image width height channels).

Definition load_image (fs : filesystem) (filename : string)
  : result (option Image) :=
  match file fs filename with
  | None => Res None
  | Some fp =>
      '(items, fp) ← fscanf [conv_s 2; white; conv_d; white; conv_d; white;
                              conv_d] fp;
      match items with
      | [item_s format; item_d width; item_d height; item_d max_val] =>
          if negb (bool_decide (format = codes "P6")) then Res None
          else if (width <=? 0) || (height <=? 0) then Res None
          else
            match fp with
            | [] => Res None
            | c :: fp =>
                img ← create_image_int width height 3;
                let expected := size_t (size_t width * size_t height * 3) in
                let '(data, nread, _) := fread (data img) expected fp in
                if negb (nread =? expected) then Res None
                else Res (Some {| data := data; width := width;
                                  height := height; channels := 3 |})
            end
      | _ => Res None
      end
  end.

(** [fwrite(data, 1, n, fp)]: the bytes appended to the stream. *)
Definition fwrite (data : list Z) (n : Z) : result (list Z) :=
  of_outcome (read_range data 0 n).

Definition save_image (fs : filesystem) (filename : string) (img : Image)
  : result filesystem :=
  if writable fs filename then
    let fp := ppm_header (width img) (height img) in
    let expected :=
      size_t (size_t (size_t (width img) * size_t (height img))
              * size_t (channels img)) in
    bytes ← fwrite (data img) expected;
    Res (write_file fs filename (fp ++ bytes))
  else Res fs.

(** The filter named on the command line. *)
Definition filter_of (filter_type : string) : option FilterKind :=
  if String.eqb filter_type "grayscale" then Some Grayscale
  else if String.eqb filter_type "blur" then Some Blur
  else if String.eqb filter_type "edge" then Some Edge
  else if String.eqb filter_type "brighten" then Some Brighten
  else None.

(** How a process ends: [return code] from [main], or [MPI_Abort]. *)
Inductive status : Type :=
| Exit (code : Z)
| Aborted (code : Z).

Definition arg (argv : list string) (i : nat) : string := nth i argv "".

(** [main] of the shared-memory program: the exit status and the files it
    leaves.  What it prints is not modelled.

    Every filter hands [thread_count] to [num_threads].  Whether the OpenMP
    runtime can start a team of that many threads is not in the source:
    [team n] tells it.  When it cannot, the runtime ends the process inside
    the filter with status 1, as libgomp does; when it can, the iterations of
    the row loop are run by the team, in the order of [omp_main] within each
    thread. *)
Definition omp_program (team : Z → bool) (argv : list string)
    (fs : filesystem) : result (status * filesystem) :=
  if (length argv <? 5)%nat then Res (Exit 1, fs)
  else
    let input_file := arg argv 1 in
    let output_file := arg argv 2 in
    let filter_type := arg argv 3 in
    thread_count ← atoi (arg argv 4);
    if thread_count <? 1 then Res (Exit 1, fs)
    else
      input ← load_image fs input_file;
      match input with
      | None => Res (Exit 1, fs)
      | Some input =>
          _ ← create_image_int (width input) (height input) (channels input);
          match filter_of filter_type with
          | None => Res (Exit 1, fs)
          | Some filter =>
              if team thread_count then
                output ← of_outcome (omp_main filter input);
                fs ← save_image fs output_file output;
                Res (Exit 0, fs)
              else Res (Exit 1, fs)
          end
      end.

(** ** Image files of the distributed program *)

(** [load_image] checks neither the result of [fscanf] nor that of [fread];
    its format ends in white space, so the call also consumes the white
    space that follows the header. *)
Definition load_image_mpi (fs : filesystem) (filename : string)
  : result (option Image) :=
  match file fs filename with
  | None => Res None
  | Some fp =>
      '(items, fp) ← fscanf [conv_s 2; white; conv_d; white; conv_d; white;
                              conv_d; white] fp;
      match items with
      | item_s format :: items =>
          if negb (bool_decide (format = codes "P6")) then Res None
          else
            match items with
            | item_d width :: item_d height :: _ =>
                img ← create_image_int width height 3;
                n ← int (width * height);
                n ← int (n * 3);
                if n <? 0 then Undef NullPointer
                else
                  let '(data, _, _) := fread (data img) (size_t n) fp in
                  Res (Some {| data := data; width := width;
                               height := height; channels := 3 |})
            | _ => Undef Indeterminate
            end
      | _ => Undef Indeterminate
      end
  end.

Definition save_image_mpi (fs : filesystem) (filename : string) (img : Image)
  : result filesystem :=
  if writable fs filename then
    let fp := ppm_header (width img) (height img) in
    n ← int (width img * height img);
    n ← int (n * channels img);
    bytes ← fwrite (data img) (size_t n);
    Res (write_file fs filename (fp ++ bytes))
  else Undef NullPointer.

(** The steps of [mpi_main] on their own. *)
Definition mpi_scatter (size : Z) (full_image : Image)
  : outcome (list (list Z)) :=
  let width := width full_image in
  let height := height full_image in
  let channels := channels full_image in
  let '(sendcounts, displs) := layout height size width channels in
  let local_size rank := local_height_of height size rank * width * channels in
  on_ranks (fun rank =>
    scatterv (data full_image) sendcounts displs (local_size rank) rank)
    (seqZ 0 size).

Definition mpi_gather (size : Z) (full_image : Image) (bands : list (list Z))
  : outcome (list Z) :=
  let width := width full_image in
  let height := height full_image in
  let channels := channels full_image in
  let '(sendcounts, displs) := layout height size width channels in
  let ranks := seqZ 0 size in
  let local_size rank := local_height_of height size rank * width * channels in
  gatherv sendcounts displs (data full_image)
    (zip (zip ranks bands) (local_size <$> ranks)).

(** [main] of the distributed program run by [size] processes: rank 0 loads
    and saves, an unknown filter name is found out after the scatter. *)
Definition mpi_program (size : Z) (argv : list string) (fs : filesystem)
  : result (status * filesystem) :=
  if (length argv <? 4)%nat then Res (Exit 1, fs)
  else
    let input_file := arg argv 1 in
    let output_file := arg argv 2 in
    let filter_type := arg argv 3 in
    full_image ← load_image_mpi fs input_file;
    match full_image with
    | None => Res (Aborted 1, fs)
    | Some full_image =>
        match filter_of filter_type with
        | None =>
            _ ← of_outcome (mpi_scatter size full_image);
            Res (Exit 1, fs)
        | Some filter =>
            output ← of_outcome (mpi_main size filter full_image);
            fs ← save_image_mpi fs output_file output;
            Res (Exit 0, fs)
        end
    end.

(** ** Examples *)

(** No file to read, every name writable. *)
Definition no_files : filesystem :=
  {| file := fun _ => None; writable := fun _ => true |}.

(** The same files, none writable. *)
Definition read_only (fs : filesystem) : filesystem :=
  {| file := file fs; writable := fun _ => false |}.

(** A runtime that starts teams of up to [limit] threads. *)
Definition up_to (limit : Z) : Z → bool := fun n => n <=? limit.

(** One pixel wide, two pixels high. *)
Definition two_pixels : Image :=
  {| data := [100; 150; 200; 250; 7; 230]; width := 1; height := 2;
     channels := 3 |}.

(** ["in.ppm"] holds [two_pixels] as [save_image] writes it. *)
Definition two_pixels_file : filesystem :=
  write_file no_files "in.ppm" (ppm_header 1 2 ++ data two_pixels).

(* ==================================================================== *)
(** * Proofs *)
(* ==================================================================== *)

(** ** Buffers *)

Lemma get_Some_bounds l i v : get l i = Some v → 0 ≤ i < Z.of_nat (length l).
Proof.
  unfold get. destruct (Z.leb_spec 0 i); [|done].
  intros Hl. apply lookup_lt_Some in Hl. lia.
Qed.

Lemma get_is_Some l i : 0 ≤ i < Z.of_nat (length l) → is_Some (get l i).
Proof.
  intros [H0 Hl]. unfold get. destruct (Z.leb_spec 0 i); [|lia].
  apply lookup_lt_is_Some. lia.
Qed.

Lemma get_set_eq l i v :
  0 ≤ i < Z.of_nat (length l) → get (set l i v) i = Some v.
Proof.
  intros [H0 Hl]. unfold get, set. destruct (Z.leb_spec 0 i); [|lia].
  apply list_lookup_insert_eq. lia.
Qed.

Lemma get_set_ne l i j v : i ≠ j → 0 ≤ i → get (set l i v) j = get l j.
Proof.
  intros Hne H0. unfold get, set. destruct (Z.leb_spec 0 j); [|done].
  apply list_lookup_insert_ne. lia.
Qed.

Lemma length_set l i v : length (set l i v) = length l.
Proof. apply length_insert. Qed.

Lemma in_bounds_true l i : in_bounds l i = true ↔ 0 ≤ i < Z.of_nat (length l).
Proof. unfold in_bounds. rewrite andb_true_iff. lia. Qed.

Lemma get_replicate n v i : 0 ≤ i < Z.of_nat n → get (replicate n v) i = Some v.
Proof.
  intros [H0 Hl]. unfold get. destruct (Z.leb_spec 0 i); [|lia].
  apply lookup_replicate_2. lia.
Qed.

(** Two buffers with the same bytes at every index are equal. *)
Lemma get_ext l1 l2 : (∀ i, get l1 i = get l2 i) → l1 = l2.
Proof.
  intros H. apply list_eq. intros n. specialize (H (Z.of_nat n)).
  unfold get in H. destruct (Z.leb_spec 0 (Z.of_nat n)); [|lia].
  by rewrite Nat2Z.id in H.
Qed.

(** ** Pure loops *)

Lemma forZ_iter_ind {A} (P : Z → A → Prop) body n i a :
  P i a →
  (∀ k x, i ≤ k < i + Z.of_nat n → P k x → P (k + 1) (body k x)) →
  P (i + Z.of_nat n) (forZ_iter n i body a).
Proof.
  revert i a. induction n as [|n IH]; intros i a Hi Hstep; simpl forZ_iter.
  - by replace (i + Z.of_nat 0) with i by lia.
  - replace (i + Z.of_nat (S n)) with ((i + 1) + Z.of_nat n) by lia.
    apply IH.
    + apply Hstep; [lia|done].
    + intros k x Hk. apply Hstep. lia.
Qed.

Lemma forZ_ind {A} (P : Z → A → Prop) body lo hi a :
  lo ≤ hi →
  P lo a →
  (∀ k x, lo ≤ k < hi → P k x → P (k + 1) (body k x)) →
  P hi (forZ lo hi body a).
Proof.
  intros Hle Hlo Hstep. unfold forZ.
  replace hi with (lo + Z.of_nat (Z.to_nat (hi - lo))) at 1 by lia.
  apply forZ_iter_ind; [done|]. intros k x Hk. apply Hstep. lia.
Qed.

(** ** The partition of the rows *)

Lemma sumZ_app l1 l2 : sumZ (l1 ++ l2) = sumZ l1 + sumZ l2.
Proof. induction l1 as [|x l1 IH]; simpl; lia. Qed.

Section Partition.
Variables height size : Z.
Hypothesis height_nonneg : 0 ≤ height.
Hypothesis size_pos : 1 ≤ size.

Lemma local_height_of_eq rank :
  local_height_of height size rank =
  height / size + (if rank <? height mod size then 1 else 0).
Proof.
  unfold local_height_of.
  rewrite Z.quot_div_nonneg, Z.rem_mod_nonneg by lia.
  destruct (rank <? height mod size); lia.
Qed.

Lemma local_height_of_nonneg rank : 0 ≤ local_height_of height size rank.
Proof.
  rewrite local_height_of_eq.
  pose proof (Z.div_pos height size). destruct (rank <? height mod size); lia.
Qed.

Lemma row_offset_of_succ rank :
  0 ≤ rank →
  row_offset_of height size (rank + 1) =
  row_offset_of height size rank + local_height_of height size rank.
Proof.
  intros Hr. unfold row_offset_of.
  rewrite seqZ_app by lia. rewrite fmap_app, sumZ_app.
  rewrite (seqZ_cons _ 1), (seqZ_nil _ (Z.pred 1)) by lia.
  simpl. rewrite Z.add_0_r. done.
Qed.

Lemma row_offset_of_closed rank :
  0 ≤ rank →
  row_offset_of height size rank =
  rank * (height / size) + Z.min rank (height mod size).
Proof.
  pose proof (Z.mod_pos_bound height size) as Hm.
  revert rank. apply natlike_ind.
  - unfold row_offset_of. rewrite seqZ_nil by lia. simpl. lia.
  - intros rank Hr IH. unfold Z.succ. rewrite row_offset_of_succ by done.
    rewrite IH, local_height_of_eq.
    destruct (Z.ltb_spec rank (height mod size)); lia.
Qed.

Lemma row_offset_of_size : row_offset_of height size size = height.
Proof.
  rewrite row_offset_of_closed by lia.
  pose proof (Z.mod_pos_bound height size).
  pose proof (Z.div_mod height size). lia.
Qed.

Lemma row_offset_of_nonneg rank : 0 ≤ rank → 0 ≤ row_offset_of height size rank.
Proof.
  intros Hr. rewrite row_offset_of_closed by done.
  pose proof (Z.mod_pos_bound height size).
  pose proof (Z.div_pos height size). nia.
Qed.

Lemma row_offset_of_le rank :
  0 ≤ rank ≤ size →
  row_offset_of height size rank + local_height_of height size rank ≤ height
  ∨ rank = size.
Proof.
  intros Hr. destruct (decide (rank = size)) as [|Hne]; [by right|left].
  rewrite <- row_offset_of_succ by lia.
  rewrite row_offset_of_closed by lia.
  pose proof (Z.mod_pos_bound height size).
  pose proof (Z.div_pos height size).
  pose proof (Z.div_mod height size). nia.
Qed.

(** What the loop of rank 0 leaves in [sendcounts] and [displs]. *)
Lemma layout_spec width channels sendcounts displs :
  layout height size width channels = (sendcounts, displs) →
  length sendcounts = Z.to_nat size ∧ length displs = Z.to_nat size ∧
  ∀ i, 0 ≤ i < size →
    get sendcounts i = Some (local_height_of height size i * width * channels) ∧
    get displs i = Some (row_offset_of height size i * width * channels).
Proof.
  unfold layout.
  set (body := fun (i : Z) '(sc, dp, offset) => _).
  set (init := (replicate (Z.to_nat size) 0, replicate (Z.to_nat size) 0, 0)).
  pose (P := fun (k : Z) (st : list Z * list Z * Z) =>
    length st.1.1 = Z.to_nat size ∧ length st.1.2 = Z.to_nat size ∧
    st.2 = row_offset_of height size k * width * channels ∧
    ∀ i, 0 ≤ i < k →
      get st.1.1 i = Some (local_height_of height size i * width * channels) ∧
      get st.1.2 i = Some (row_offset_of height size i * width * channels)).
  assert (P size (forZ 0 size body init)) as HP.
  { apply forZ_ind; [lia| |].
    - subst P init. cbn [fst snd]. rewrite !length_replicate.
      split; [done|]. split; [done|]. split; [|intros; lia].
      unfold row_offset_of. rewrite seqZ_nil by lia. simpl. lia.
    - intros k [[sc dp] off] Hk (Hsc & Hdp & Hoff & Hall). subst P.
      cbn [fst snd body] in *.
      rewrite !length_set. split; [done|]. split; [done|]. split.
      + rewrite row_offset_of_succ by lia. subst off.
        unfold local_height_of. destruct (k <? Z.rem height size); lia.
      + intros i Hi. destruct (decide (i = k)) as [->|Hne].
        * rewrite !get_set_eq by lia. subst off. split; [|done].
          unfold local_height_of. by destruct (k <? Z.rem height size).
        * rewrite !get_set_ne by lia. apply Hall. lia. }
  destruct (forZ 0 size body init) as [[sc dp] off].
  intros [= <- <-]. destruct HP as (Hsc & Hdp & _ & Hall). done.
Qed.

End Partition.

(** C3 (row coverage).  For [height > 0] and [size >= 1] workers, each worker
    gets [height / size] rows plus one for the first [height mod size]
    workers; the counts are non-negative and sum to [height]; and the loop
    that fills [sendcounts] and [displs] stores, for worker [i], its row count
    and the exclusive prefix sum of the row counts, both scaled by the bytes
    of a row. *)
Theorem partition_row_coverage (height size width channels : Z) :
  0 < height → 1 ≤ size →
  (∀ i, 0 ≤ i < size →
     local_height_of height size i =
       height / size + (if i <? height mod size then 1 else 0) ∧
     0 ≤ local_height_of height size i) ∧
  sumZ (local_height_of height size <$> seqZ 0 size) = height ∧
  (∀ i, 0 ≤ i < size →
     get (layout height size width channels).1 i =
       Some (local_height_of height size i * width * channels) ∧
     get (layout height size width channels).2 i =
       Some (row_offset_of height size i * width * channels)).
Proof.
  intros Hh Hs. split; [|split].
  - intros i _. split.
    + apply local_height_of_eq; lia.
    + apply local_height_of_nonneg; lia.
  - apply (row_offset_of_size height size); lia.
  - intros i Hi.
    destruct (layout height size width channels) as [sc dp] eqn:E.
    apply layout_spec in E as (_ & _ & Hall); [|lia..]. by apply Hall.
Qed.

Lemma partition_row_coverage_witness :
  sumZ (local_height_of 10 4 <$> seqZ 0 4) = 10 ∧
  get (layout 10 4 3 2).2 3 = Some (row_offset_of 10 4 3 * 3 * 2).
Proof.
  pose proof (partition_row_coverage 10 4 3 2 ltac:(lia) ltac:(lia))
    as (_ & Hsum & Hlay).
  split; [exact Hsum|]. exact (proj2 (Hlay 3 ltac:(lia))).
Defined.

(** C10 (balance).  For [height >= 0] and [size >= 1], any two row counts
    differ by at most one and the row counts never increase with the rank. *)
Theorem partition_balanced (height size : Z) :
  0 ≤ height → 1 ≤ size →
  ∀ i j, 0 ≤ i < size → 0 ≤ j < size →
    Z.abs (local_height_of height size i - local_height_of height size j) ≤ 1 ∧
    (i ≤ j → local_height_of height size j ≤ local_height_of height size i).
Proof.
  intros Hh Hs i j Hi Hj.
  rewrite !local_height_of_eq by lia.
  destruct (Z.ltb_spec i (height mod size)), (Z.ltb_spec j (height mod size));
    lia.
Qed.

Lemma partition_balanced_witness :
  Z.abs (local_height_of 10 4 1 - local_height_of 10 4 3) ≤ 1 ∧
  (1 ≤ 3 → local_height_of 10 4 3 ≤ local_height_of 10 4 1).
Proof.
  apply (partition_balanced 10 4); lia.
Defined.

(** ** The memory monad: weakest preconditions and footprints *)

Section MemoryRules.
Context {B : Type} `{EqDecision B}.
Implicit Types (m : mem B) (b : B).

Lemma wp_ret {A} (a : A) (Q : A → mem B → Prop) m : Q a m → wp (ret a) Q m.
Proof. done. Qed.

Lemma wp_bind {A R} (c : M B A) (k : A → M B R) (Q : R → mem B → Prop) m :
  wp c (fun a m' => wp (k a) Q m') m → wp (bind c k) Q m.
Proof. unfold wp, bind. by destruct (c m) as [[a m']|]. Qed.

Lemma wp_mono {A} (c : M B A) (Q Q' : A → mem B → Prop) m :
  (∀ a m', Q a m' → Q' a m') → wp c Q m → wp c Q' m.
Proof. unfold wp. destruct (c m) as [[a m']|]; auto. Qed.

Lemma wp_inv {A} (c : M B A) (Q : A → mem B → Prop) m :
  wp c Q m → ∃ a m', c m = Ok (a, m') ∧ Q a m'.
Proof. unfold wp. destruct (c m) as [[a m']|]; [eauto|done]. Qed.

Lemma wp_store b i v (Q : unit → mem B → Prop) m :
  0 ≤ i < Z.of_nat (length (m b)) →
  Q tt (<[b := set (m b) i v]> m) → wp (store b i v) Q m.
Proof.
  intros Hi HQ. unfold wp, store.
  by rewrite (proj2 (in_bounds_true _ _) Hi).
Qed.

Variables (out : B) (ctx : mem B) (orig : list Z).
Local Abbreviation stable := (stable out ctx orig).
Local Abbreviation untouched := (untouched out orig).
Local Abbreviation writes := (writes out ctx orig).
Local Abbreviation reads := (reads out ctx orig).

Lemma stable_store m i v : stable m → stable (<[out := set (m out) i v]> m).
Proof.
  intros [Hlen Hctx]. split.
  - by rewrite fn_lookup_insert, length_set.
  - intros b Hb. rewrite fn_lookup_insert_ne by done. by apply Hctx.
Qed.

(** *** Read-only computations *)

Lemma reads_ret {A} fp (a : A) : reads fp (ret a) a.
Proof. by intros m _ _. Qed.

Lemma reads_bind {A R} fp (c : M B A) (k : A → M B R) a r :
  reads fp c a → reads fp (k a) r → reads fp (bind c k) r.
Proof.
  intros Hc Hk m Hst Hun. unfold bind. rewrite (Hc m Hst Hun). by apply Hk.
Qed.

Lemma reads_load_out (fp : Z → Prop) i v :
  fp i → get orig i = Some v → reads fp (load out i) v.
Proof.
  intros Hfp Hv m _ Hun. unfold load. by rewrite (Hun i Hfp), Hv.
Qed.

(** *** Computations that fill their footprint *)

Lemma writes_ret G : writes (fun _ => False) G (ret tt).
Proof. intros m Hst _. apply wp_ret. split; [done|]. by split. Qed.

Lemma writes_weaken (fp fp' : Z → Prop) G c :
  (∀ idx, fp idx ↔ fp' idx) → writes fp G c → writes fp' G c.
Proof.
  intros Heq Hc m Hst Hun. eapply wp_mono; [|apply Hc; [done|]].
  - intros _ m' (Hst' & Hin & Hout). split; [done|]. split.
    + intros idx Hfp. apply Hin. by apply Heq.
    + intros idx Hfp. apply Hout. by rewrite Heq.
  - intros idx Hfp. apply Hun. by apply Heq.
Qed.

Lemma writes_store G i v :
  0 ≤ i < Z.of_nat (length orig) → v = G i →
  writes (fun idx => idx = i) G (store out i v).
Proof.
  intros Hi -> m Hst _. pose proof Hst as [Hlen _].
  apply wp_store; [lia|]. split; [by apply stable_store|].
  rewrite fn_lookup_insert. split.
  - intros idx ->. apply get_set_eq. lia.
  - intros idx Hne. apply get_set_ne; [congruence|lia].
Qed.

Lemma writes_bind (fp1 fp2 : Z → Prop) G c (k : unit → M B unit) :
  writes fp1 G c → (∀ u, writes fp2 G (k u)) →
  (∀ idx, fp1 idx → ¬ fp2 idx) →
  writes (fun idx => fp1 idx ∨ fp2 idx) G (bind c k).
Proof.
  intros Hc Hk Hdisj m Hst Hun. apply wp_bind.
  eapply wp_mono; [|apply Hc; [done|]]; [|intros idx Hfp; apply Hun; by left].
  intros u m1 (Hst1 & Hin1 & Hout1).
  eapply wp_mono; [|apply Hk; [done|]].
  - intros _ m2 (Hst2 & Hin2 & Hout2). split; [done|]. split.
    + intros idx [H1|H2]; [|by apply Hin2].
      rewrite Hout2 by by apply Hdisj. by apply Hin1.
    + intros idx Hno. rewrite Hout2, Hout1; [done|tauto..].
  - intros idx H2. rewrite Hout1.
    + apply Hun. by right.
    + intros H1. by apply (Hdisj idx).
Qed.

Lemma writes_reads {A} (fp : Z → Prop) G (c : M B A) a (k : A → M B unit) :
  reads fp c a → writes fp G (k a) → writes fp G (bind c k).
Proof.
  intros Hc Hk m Hst Hun. unfold wp, bind. rewrite (Hc m Hst Hun).
  by apply Hk.
Qed.

Lemma writes_when (fp : Z → Prop) G (t : bool) c :
  (t = true → writes fp G c) →
  writes (fun idx => t = true ∧ fp idx) G (when t c).
Proof.
  intros Hc. destruct t; simpl.
  - eapply writes_weaken; [|by apply Hc]. intros idx. tauto.
  - eapply writes_weaken; [|apply writes_ret]. intros idx. split; [done|].
    by intros [? _].
Qed.

Lemma writes_for_iter (fp : Z → Z → Prop) G body n i :
  (∀ k, i ≤ k < i + Z.of_nat n → writes (fp k) G (body k tt)) →
  (∀ k k' idx, i ≤ k < k' → k' < i + Z.of_nat n → fp k idx → ¬ fp k' idx) →
  writes (fun idx => ∃ k, i ≤ k < i + Z.of_nat n ∧ fp k idx) G
    (for_iter n i body tt).
Proof.
  revert i. induction n as [|n IH]; intros i Hstep Hdisj; simpl for_iter.
  - eapply writes_weaken; [|apply writes_ret].
    intros idx. split; [done|]. intros (k & Hk & _). lia.
  - apply (writes_weaken
             (fun idx => fp i idx ∨
                         ∃ k, i + 1 ≤ k < (i + 1) + Z.of_nat n ∧ fp k idx)).
    { intros idx. split.
      - intros [Hi|(k & Hk & Hfp)]; [exists i|exists k]; split; try done; lia.
      - intros (k & Hk & Hfp). destruct (decide (k = i)) as [->|Hne].
        + by left.
        + right. exists k. split; [lia|done]. }
    apply (writes_bind (fp i)).
    + apply Hstep. lia.
    + intros []. apply IH.
      * intros k Hk. apply Hstep. lia.
      * intros k k' idx Hk Hk'. apply Hdisj; lia.
    + intros idx Hi (k & Hk & Hfp).
      eapply Hdisj; [| |exact Hi|exact Hfp]; lia.
Qed.

Lemma writes_for (fp : Z → Z → Prop) G body lo hi :
  (∀ k, lo ≤ k < hi → writes (fp k) G (body k tt)) →
  (∀ k k' idx, lo ≤ k < k' → k' < hi → fp k idx → ¬ fp k' idx) →
  writes (fun idx => ∃ k, lo ≤ k < hi ∧ fp k idx) G (for_ lo hi body tt).
Proof.
  intros Hstep Hdisj. unfold for_.
  apply (writes_weaken
           (fun idx => ∃ k, lo ≤ k < lo + Z.of_nat (Z.to_nat (hi - lo)) ∧
                            fp k idx)).
  { intros idx. split; intros (k & Hk & Hfp); exists k; (split; [lia|done]). }
  apply writes_for_iter.
  - intros k Hk. apply Hstep. lia.
  - intros k k' idx Hk Hk'. apply Hdisj; lia.
Qed.

(** *** Computations that fill a buffer they do not read *)

Lemma looks_ret {A} (a : A) : looks out ctx orig (ret a) a.
Proof. by intros m _. Qed.

Lemma looks_bind {A R} (c : M B A) (k : A → M B R) a r :
  looks out ctx orig c a → looks out ctx orig (k a) r →
  looks out ctx orig (bind c k) r.
Proof. intros Hc Hk m Hst. unfold bind. rewrite (Hc m Hst). by apply Hk. Qed.

Lemma looks_load b i v :
  b ≠ out → get (ctx b) i = Some v → looks out ctx orig (load b i) v.
Proof. intros Hb Hv m [_ Hctx]. unfold load. by rewrite (Hctx b Hb), Hv. Qed.

Lemma looks_for_iter {A} body pbody n i (a : A) :
  (∀ k x, i ≤ k < i + Z.of_nat n → looks out ctx orig (body k x) (pbody k x)) →
  looks out ctx orig (for_iter n i body a) (forZ_iter n i pbody a).
Proof.
  revert i a. induction n as [|n IH]; intros i a Hstep; simpl.
  - apply looks_ret.
  - eapply looks_bind; [apply Hstep; lia|].
    apply IH. intros k x Hk. apply Hstep. lia.
Qed.

Lemma looks_for {A} body pbody lo hi (a : A) :
  (∀ k x, lo ≤ k < hi → looks out ctx orig (body k x) (pbody k x)) →
  looks out ctx orig (for_ lo hi body a) (forZ lo hi pbody a).
Proof.
  intros Hstep. apply looks_for_iter. intros k x Hk. apply Hstep. lia.
Qed.

Lemma fills_ret G : fills out ctx orig (fun _ => False) G (ret tt).
Proof. intros m Hst. apply wp_ret. split; [done|]. split; [done|]. auto. Qed.

Lemma fills_weaken (fp fp' : Z → Prop) G c :
  (∀ idx, fp idx ↔ fp' idx) →
  fills out ctx orig fp G c → fills out ctx orig fp' G c.
Proof.
  intros Heq Hc m Hst. eapply wp_mono; [|by apply Hc].
  intros _ m' (Hst' & Hin & Hout & Hany). split; [done|]. split; [|split].
  - intros idx Hfp. apply Hin. by apply Heq.
  - intros idx Hfp. apply Hout. by rewrite Heq.
  - done.
Qed.

Lemma fills_store G i v :
  0 ≤ i < Z.of_nat (length orig) → v = G i →
  fills out ctx orig (fun idx => idx = i) G (store out i v).
Proof.
  intros Hi -> m Hst. pose proof Hst as [Hlen _].
  apply wp_store; [lia|]. split; [by apply stable_store|].
  rewrite fn_lookup_insert. split; [|split].
  - intros idx ->. apply get_set_eq. lia.
  - intros idx Hne. apply get_set_ne; [congruence|lia].
  - intros idx. destruct (decide (idx = i)) as [->|Hne].
    + left. apply get_set_eq. lia.
    + right. apply get_set_ne; [congruence|lia].
Qed.

Lemma fills_bind (fp1 fp2 : Z → Prop) G c (k : unit → M B unit) :
  fills out ctx orig fp1 G c → (∀ u, fills out ctx orig fp2 G (k u)) →
  fills out ctx orig (fun idx => fp1 idx ∨ fp2 idx) G (bind c k).
Proof.
  intros Hc Hk m Hst. apply wp_bind.
  eapply wp_mono; [|by apply Hc].
  intros u m1 (Hst1 & Hin1 & Hout1 & Hany1).
  eapply wp_mono; [|by apply Hk].
  intros _ m2 (Hst2 & Hin2 & Hout2 & Hany2). split; [done|].
  split; [|split].
  - intros idx [H1|H2]; [|by apply Hin2].
    destruct (Hany2 idx) as [->| ->]; [done|by apply Hin1].
  - intros idx Hno. rewrite Hout2, Hout1; [done|tauto..].
  - intros idx. destruct (Hany2 idx) as [->| ->]; [by left|apply Hany1].
Qed.

Lemma fills_looks {A} (fp : Z → Prop) G (c : M B A) a (k : A → M B unit) :
  looks out ctx orig c a → fills out ctx orig fp G (k a) →
  fills out ctx orig fp G (bind c k).
Proof.
  intros Hc Hk m Hst. unfold wp, bind. rewrite (Hc m Hst). by apply Hk.
Qed.

Lemma fills_when (fp : Z → Prop) G (t : bool) c :
  (t = true → fills out ctx orig fp G c) →
  fills out ctx orig (fun idx => t = true ∧ fp idx) G (when t c).
Proof.
  intros Hc. destruct t; simpl.
  - eapply fills_weaken; [|by apply Hc]. intros idx. tauto.
  - eapply fills_weaken; [|apply fills_ret]. intros idx. split; [done|].
    by intros [? _].
Qed.

Lemma fills_for_iter (fp : Z → Z → Prop) G body n i :
  (∀ k, i ≤ k < i + Z.of_nat n → fills out ctx orig (fp k) G (body k tt)) →
  fills out ctx orig (fun idx => ∃ k, i ≤ k < i + Z.of_nat n ∧ fp k idx) G
    (for_iter n i body tt).
Proof.
  revert i. induction n as [|n IH]; intros i Hstep; simpl for_iter.
  - eapply fills_weaken; [|apply fills_ret].
    intros idx. split; [done|]. intros (k & Hk & _). lia.
  - apply (fills_weaken
             (fun idx => fp i idx ∨
                         ∃ k, i + 1 ≤ k < (i + 1) + Z.of_nat n ∧ fp k idx)).
    { intros idx. split.
      - intros [Hi|(k & Hk & Hfp)]; [exists i|exists k]; split; try done; lia.
      - intros (k & Hk & Hfp). destruct (decide (k = i)) as [->|Hne].
        + by left.
        + right. exists k. split; [lia|done]. }
    apply (fills_bind (fp i)).
    + apply Hstep. lia.
    + intros []. apply IH. intros k Hk. apply Hstep. lia.
Qed.

Lemma fills_for (fp : Z → Z → Prop) G body lo hi :
  (∀ k, lo ≤ k < hi → fills out ctx orig (fp k) G (body k tt)) →
  fills out ctx orig (fun idx => ∃ k, lo ≤ k < hi ∧ fp k idx) G
    (for_ lo hi body tt).
Proof.
  intros Hstep. unfold for_.
  apply (fills_weaken
           (fun idx => ∃ k, lo ≤ k < lo + Z.of_nat (Z.to_nat (hi - lo)) ∧
                            fp k idx)).
  { intros idx. split; intros (k & Hk & Hfp); exists k; (split; [lia|done]). }
  apply fills_for_iter. intros k Hk. apply Hstep. lia.
Qed.

End MemoryRules.

(** ** Offsets of pixels *)

Lemma get_byte l i : 0 ≤ i < Z.of_nat (length l) → get l i = Some (byte l i).
Proof. intros Hi. unfold byte. by destruct (get_is_Some l i Hi) as [v ->]. Qed.

Lemma get_Some_byte l i v : get l i = Some v → byte l i = v.
Proof. unfold byte. by intros ->. Qed.

Section Offsets.
Variables width channels : Z.
Hypothesis width_pos : 0 < width.
Hypothesis channels_pos : 0 < channels.

Lemma offset_split i j c :
  offset width channels i j c = (width * channels) * i + (channels * j + c).
Proof. unfold offset. lia. Qed.

Lemma offset_in_row j c :
  0 ≤ j < width → 0 ≤ c < channels →
  0 ≤ channels * j + c < width * channels.
Proof. intros Hj Hc. nia. Qed.

Lemma row_of_offset i j c :
  0 ≤ j < width → 0 ≤ c < channels →
  row_of width channels (offset width channels i j c) = i.
Proof.
  intros Hj Hc. unfold row_of. symmetry.
  apply (Z.div_unique _ _ i (channels * j + c)).
  - left. by apply offset_in_row.
  - apply offset_split.
Qed.

Lemma chan_of_offset i j c :
  0 ≤ c < channels → chan_of channels (offset width channels i j c) = c.
Proof.
  intros Hc. unfold chan_of, offset. symmetry.
  apply (Z.mod_unique _ _ (i * width + j)); [by left|lia].
Qed.

Lemma col_of_offset i j c :
  0 ≤ j < width → 0 ≤ c < channels →
  col_of width channels (offset width channels i j c) = j.
Proof.
  intros Hj Hc. unfold col_of, offset.
  replace (((i * width + j) * channels + c) / channels) with (i * width + j).
  - symmetry. apply (Z.mod_unique _ _ i); [by left|lia].
  - apply (Z.div_unique _ _ _ c); [by left|lia].
Qed.

Lemma offset_inj i j c i' j' c' :
  0 ≤ j < width → 0 ≤ c < channels → 0 ≤ j' < width → 0 ≤ c' < channels →
  offset width channels i j c = offset width channels i' j' c' →
  i = i' ∧ j = j' ∧ c = c'.
Proof.
  intros Hj Hc Hj' Hc' Heq.
  pose proof (row_of_offset i j c Hj Hc) as Hi.
  pose proof (col_of_offset i j c Hj Hc) as Hcol.
  pose proof (chan_of_offset i j c Hc) as Hch.
  rewrite Heq in Hi, Hcol, Hch.
  rewrite row_of_offset in Hi by done.
  rewrite col_of_offset in Hcol by done.
  rewrite chan_of_offset in Hch by done. done.
Qed.

Lemma offset_bounds height i j c :
  0 ≤ i < height → 0 ≤ j < width → 0 ≤ c < channels →
  0 ≤ offset width channels i j c < width * height * channels.
Proof.
  intros Hi Hj Hc. rewrite offset_split.
  pose proof (offset_in_row j c Hj Hc). nia.
Qed.

(** Every byte of an image belongs to exactly one pixel. *)
Lemma offset_cover height idx :
  0 ≤ idx < width * height * channels →
  idx = offset width channels (row_of width channels idx)
          (col_of width channels idx) (chan_of channels idx) ∧
  0 ≤ row_of width channels idx < height ∧
  0 ≤ col_of width channels idx < width ∧
  0 ≤ chan_of channels idx < channels.
Proof.
  intros Hidx. unfold row_of, col_of, chan_of, offset.
  pose proof (Z.div_mod idx channels ltac:(lia)) as Hc.
  pose proof (Z.mod_pos_bound idx channels ltac:(lia)) as Hcb.
  pose proof (Z.div_mod (idx / channels) width ltac:(lia)) as Hj.
  pose proof (Z.mod_pos_bound (idx / channels) width ltac:(lia)) as Hjb.
  assert (idx / (width * channels) = idx / channels / width) as Hrow.
  { rewrite (Z.mul_comm width). by rewrite Z.div_div by lia. }
  rewrite Hrow.
  assert (0 ≤ idx / channels / width < height) as Hib.
  { split.
    - apply Z.div_pos; [|lia]. apply Z.div_pos; lia.
    - apply Z.div_lt_upper_bound; [lia|].
      apply Z.div_lt_upper_bound; [lia|]. lia. }
  repeat split; try lia.
Qed.

Lemma pixel_fp_inj i j i' j' idx :
  0 ≤ j < width → 0 ≤ j' < width →
  pixel_fp width channels i j idx → pixel_fp width channels i' j' idx →
  i = i' ∧ j = j'.
Proof.
  intros Hj Hj' (c & Hc & ->) (c' & Hc' & Heq).
  apply offset_inj in Heq; [|done..]. tauto.
Qed.

Lemma row_fp_inj i i' idx :
  row_fp width channels i idx → row_fp width channels i' idx → i = i'.
Proof.
  intros (j & Hj & Hp) (j' & Hj' & Hp').
  by destruct (pixel_fp_inj i j i' j' idx Hj Hj' Hp Hp').
Qed.

Lemma image_fp height idx :
  0 ≤ idx < width * height * channels ↔
  ∃ i, 0 ≤ i < height ∧ ∃ j, 0 ≤ j < width ∧
    ∃ c, 0 ≤ c < channels ∧ idx = offset width channels i j c.
Proof.
  split.
  - intros Hidx.
    destruct (offset_cover height idx Hidx) as (Heq & Hi & Hj & Hc).
    eauto 10.
  - intros (i & Hi & j & Hj & c & Hc & ->). by apply offset_bounds.
Qed.

End Offsets.

(** Loops over the pixels of a row and over the rows of an image write
    disjoint footprints. *)
Section PixelLoops.
Context {B : Type} `{EqDecision B}.
Variables (out : B) (ctx : mem B) (orig : list Z).
Variables width channels : Z.
Hypothesis width_pos : 0 < width.
Hypothesis channels_pos : 0 < channels.

Lemma writes_for_cols i (fp : Z → Z → Prop) G body lo hi :
  0 ≤ lo → hi ≤ width →
  (∀ j idx, fp j idx → pixel_fp width channels i j idx) →
  (∀ j, lo ≤ j < hi → writes out ctx orig (fp j) G (body j tt)) →
  writes out ctx orig (fun idx => ∃ j, lo ≤ j < hi ∧ fp j idx) G
    (for_ lo hi body tt).
Proof.
  intros Hlo Hhi Hsub Hbody. apply writes_for; [done|].
  intros j j' idx Hj Hj' Hfp Hfp'.
  apply Hsub in Hfp, Hfp'.
  destruct (pixel_fp_inj width channels channels_pos i j i j' idx)
    as [_ ?]; [lia|lia|done|done|lia].
Qed.

Lemma writes_for_rows (fp : Z → Z → Prop) G body lo hi :
  (∀ i idx, fp i idx → row_fp width channels i idx) →
  (∀ i, lo ≤ i < hi → writes out ctx orig (fp i) G (body i tt)) →
  writes out ctx orig (fun idx => ∃ i, lo ≤ i < hi ∧ fp i idx) G
    (for_ lo hi body tt).
Proof.
  intros Hsub Hbody. apply writes_for; [done|].
  intros i i' idx Hi Hi' Hfp Hfp'.
  apply Hsub in Hfp, Hfp'.
  pose proof (row_fp_inj width channels channels_pos i i' idx Hfp Hfp').
  lia.
Qed.

End PixelLoops.

(** ** The shared-memory filters *)

Lemma grayscale_spec_at width channels input i j c e :
  0 ≤ j < width → 0 ≤ c < channels → e = offset width channels i j c →
  grayscale_spec channels input e =
  if c <? 3 then gray_pixel channels input ((i * width + j) * channels)
  else byte input e.
Proof.
  intros Hj Hc ->. unfold grayscale_spec.
  rewrite chan_of_offset by done.
  destruct (c <? 3); [|done]. f_equal. unfold offset. lia.
Qed.

Lemma interior_true width height i j :
  1 ≤ i < height - 1 → 1 ≤ j < width - 1 → interior width height i j = true.
Proof. intros Hi Hj. unfold interior. rewrite !andb_true_iff. lia. Qed.

Lemma interior_false width height i j :
  ¬ (1 ≤ i < height - 1 ∧ 1 ≤ j < width - 1) →
  interior width height i j = false.
Proof.
  intros Hno. apply not_true_is_false. unfold interior.
  rewrite !andb_true_iff. lia.
Qed.

Lemma blur_spec_interior width height channels input i j c e :
  1 ≤ i < height - 1 → 1 ≤ j < width - 1 → 0 ≤ c < channels →
  e = offset width channels i j c →
  blur_spec width height channels input e =
  blur_value (fun di dj =>
    byte input (offset width channels (i + di) (j + dj) c)).
Proof.
  intros Hi Hj Hc ->. unfold blur_spec.
  rewrite row_of_offset, col_of_offset, chan_of_offset by lia.
  by rewrite interior_true.
Qed.

Lemma blur_spec_border width height channels input i j c e :
  0 ≤ j < width → 0 ≤ c < channels →
  ¬ (1 ≤ i < height - 1 ∧ 1 ≤ j < width - 1) →
  e = offset width channels i j c →
  blur_spec width height channels input e = byte input e.
Proof.
  intros Hj Hc Hno ->. unfold blur_spec.
  rewrite row_of_offset, col_of_offset by lia.
  by rewrite interior_false.
Qed.

Lemma sobel_spec_at width channels input i j c e :
  0 ≤ j < width → 0 ≤ c < channels → e = offset width channels i j c →
  sobel_spec width channels input e =
  edge_value_omp (fun di dj =>
    byte input (((i + di) * width + (j + dj)) * channels)).
Proof.
  intros Hj Hc ->. unfold sobel_spec.
  by rewrite row_of_offset, col_of_offset by lia.
Qed.

Section OMP.
Variables (width height channels : Z) (input orig : list Z).
Hypothesis width_pos : 0 < width.
Hypothesis height_nonneg : 0 ≤ height.
Hypothesis channels_pos : 0 < channels.
Hypothesis input_len : Z.of_nat (length input) = width * height * channels.
Hypothesis orig_len : Z.of_nat (length orig) = width * height * channels.

Local Abbreviation ctx := (omp_mem input []).
Local Abbreviation off := (offset width channels).
Local Abbreviation image idx := (0 ≤ idx < width * height * channels).

Lemma image_fp_rows idx :
  image idx ↔
  ∃ i, 0 ≤ i < height ∧ ∃ j, 0 ≤ j < width ∧
    ∃ c, 0 ≤ c < channels ∧ idx = off i j c.
Proof. by apply image_fp. Qed.

Lemma input_get i j c :
  0 ≤ i < height → 0 ≤ j < width → 0 ≤ c < channels →
  get input (off i j c) = Some (byte input (off i j c)).
Proof.
  intros Hi Hj Hc. apply get_byte. rewrite input_len.
  by apply offset_bounds.
Qed.

Lemma brightness_filter_fills brightness :
  fills Output ctx orig (fun idx => image idx)
    (brighten_spec input brightness)
    (brightness_filter width height channels brightness).
Proof.
  eapply fills_weaken; [intros idx; symmetry; apply image_fp_rows|].
  unfold brightness_filter.
  apply (fills_for Output ctx orig (fun i idx => ∃ j, 0 ≤ j < width ∧
           ∃ c, 0 ≤ c < channels ∧ idx = off i j c)).
  intros i Hi. cbv beta.
  apply (fills_for Output ctx orig (fun j idx =>
           ∃ c, 0 ≤ c < channels ∧ idx = off i j c)).
  intros j Hj. cbv beta zeta.
  apply (fills_for Output ctx orig (fun c idx => idx = off i j c)).
  intros c Hc. cbv beta.
  eapply fills_looks.
  - apply looks_load; [done|]. by apply input_get.
  - apply fills_store; [|done].
    rewrite orig_len. by apply offset_bounds.
Qed.

Lemma input_get' i j c e :
  0 ≤ i < height → 0 ≤ j < width → 0 ≤ c < channels → e = off i j c →
  get input e = Some (byte input e).
Proof. intros Hi Hj Hc ->. by apply input_get. Qed.

Lemma orig_bounds i j c e :
  0 ≤ i < height → 0 ≤ j < width → 0 ≤ c < channels → e = off i j c →
  0 ≤ e < Z.of_nat (length orig).
Proof. intros Hi Hj Hc ->. rewrite orig_len. by apply offset_bounds. Qed.

Lemma grayscale_filter_fills :
  fills Output ctx orig
    (fun idx => ∃ i, 0 ≤ i < height ∧ ∃ j, 0 ≤ j < width ∧
       ∃ c, 0 ≤ c < Z.min channels 4 ∧ idx = off i j c)
    (grayscale_spec channels input)
    (grayscale_filter width height channels).
Proof.
  unfold grayscale_filter.
  apply (fills_for Output ctx orig (fun i idx => ∃ j, 0 ≤ j < width ∧
           ∃ c, 0 ≤ c < Z.min channels 4 ∧ idx = off i j c)).
  intros i Hi. cbv beta.
  apply (fills_for Output ctx orig (fun j idx =>
           ∃ c, 0 ≤ c < Z.min channels 4 ∧ idx = off i j c)).
  intros j Hj. cbv beta zeta.
  set (p := (i * width + j) * channels).
  assert (∀ c, p + c = off i j c) as Hoff by (intros; unfold offset; lia).
  assert (p = off i j 0) as Hp by (unfold offset; lia).
  eapply fills_looks.
  { apply looks_load; [done|]. apply (input_get' i j 0); [lia..|done]. }
  eapply fills_looks
    with (a := if 1 <? channels then byte input (p + 1) else byte input p).
  { destruct (Z.ltb_spec 1 channels); [|apply looks_ret].
    apply looks_load; [done|]. apply (input_get' i j 1); [lia..|done]. }
  eapply fills_looks
    with (a := if 2 <? channels then byte input (p + 2) else byte input p).
  { destruct (Z.ltb_spec 2 channels); [|apply looks_ret].
    apply looks_load; [done|]. apply (input_get' i j 2); [lia..|done]. }
  apply (fills_weaken Output ctx orig
           (fun idx => idx = p ∨ ((1 <? channels) = true ∧ idx = p + 1) ∨
                       ((2 <? channels) = true ∧ idx = p + 2) ∨
                       ((3 <? channels) = true ∧ idx = p + 3))).
  { intros idx. rewrite !Z.ltb_lt. unfold offset. fold p. split.
    - intros [->|[[? ->]|[[? ->]|[? ->]]]];
        [exists 0|exists 1|exists 2|exists 3]; lia.
    - intros (c & Hc & ->).
      assert (c = 0 ∨ c = 1 ∨ c = 2 ∨ c = 3) as [->|[->|[->| ->]]] by lia;
        lia. }
  apply fills_bind.
  { apply fills_store; [apply (orig_bounds i j 0); [lia..|done]|].
    rewrite (grayscale_spec_at width channels input i j 0) by (done || lia).
    done. }
  intros _. apply fills_bind.
  { apply fills_when. rewrite Z.ltb_lt. intros H1.
    apply fills_store; [apply (orig_bounds i j 1); [lia..|done]|].
    rewrite (grayscale_spec_at width channels input i j 1) by (done || lia).
    done. }
  intros _. apply fills_bind.
  { apply fills_when. rewrite Z.ltb_lt. intros H2.
    apply fills_store; [apply (orig_bounds i j 2); [lia..|done]|].
    rewrite (grayscale_spec_at width channels input i j 2) by (done || lia).
    done. }
  intros _. apply fills_when. rewrite Z.ltb_lt. intros H3.
  eapply fills_looks.
  { apply looks_load; [done|]. apply (input_get' i j 3); [lia..|done]. }
  apply fills_store; [apply (orig_bounds i j 3); [lia..|done]|].
  rewrite (grayscale_spec_at width channels input i j 3) by (done || lia). done.
Qed.

Lemma blur_sum_looks i j c :
  1 ≤ i < height - 1 → 1 ≤ j < width - 1 → 0 ≤ c < channels →
  looks Output ctx orig
    (for_ (-1) 2 (fun di sum =>
       for_ (-1) 2 (fun dj sum =>
         let idx := ((i + di) * width + (j + dj)) * channels + c in
         v <- load Input idx ;; ret (blur_acc sum v di dj)) sum) fzero)
    (forZ (-1) 2 (fun di sum =>
       forZ (-1) 2 (fun dj sum =>
         blur_acc sum (byte input (off (i + di) (j + dj) c)) di dj) sum)
       fzero).
Proof.
  intros Hi Hj Hc.
  apply (looks_for Output ctx orig _ (fun di sum =>
    forZ (-1) 2 (fun dj sum =>
      blur_acc sum (byte input (off (i + di) (j + dj) c)) di dj) sum)).
  intros di sum Hdi. cbv beta.
  apply (looks_for Output ctx orig _ (fun dj sum =>
    blur_acc sum (byte input (off (i + di) (j + dj) c)) di dj)).
  intros dj sum' Hdj. cbv beta zeta.
  eapply looks_bind; [|apply looks_ret].
  apply looks_load; [done|]. apply input_get; lia.
Qed.

Lemma blur_interior_fills :
  fills Output ctx orig
    (fun idx => ∃ i, 1 ≤ i < height - 1 ∧ ∃ j, 1 ≤ j < width - 1 ∧
       ∃ c, 0 ≤ c < channels ∧ idx = off i j c)
    (blur_spec width height channels input)
    (blur_interior width height channels).
Proof.
  unfold blur_interior.
  apply (fills_for Output ctx orig (fun i idx => ∃ j, 1 ≤ j < width - 1 ∧
           ∃ c, 0 ≤ c < channels ∧ idx = off i j c)).
  intros i Hi. cbv beta.
  apply (fills_for Output ctx orig (fun j idx =>
           ∃ c, 0 ≤ c < channels ∧ idx = off i j c)).
  intros j Hj. cbv beta.
  apply (fills_for Output ctx orig (fun c idx => idx = off i j c)).
  intros c Hc. cbv beta.
  eapply fills_looks; [by apply blur_sum_looks|]. cbv zeta.
  apply fills_store; [apply (orig_bounds i j c); [lia..|done]|].
  rewrite (blur_spec_interior width height channels input i j c)
    by (lia || done).
  unfold blur_value. reflexivity.
Qed.

Lemma copy_pixel_fills G i j :
  0 ≤ i < height → 0 ≤ j < width →
  (∀ c, 0 ≤ c < channels → G (off i j c) = byte input (off i j c)) →
  fills Output ctx orig (fun idx => ∃ c, 0 ≤ c < channels ∧ idx = off i j c) G
    (for_ 0 channels (fun c _ =>
       v <- load Input ((i * width + j) * channels + c) ;;
       store Output ((i * width + j) * channels + c) v) tt).
Proof.
  intros Hi Hj HG.
  apply (fills_for Output ctx orig (fun c idx => idx = off i j c)).
  intros c Hc. cbv beta.
  eapply fills_looks.
  - apply looks_load; [done|]. by apply input_get.
  - apply fills_store; [by apply (orig_bounds i j c)|]. symmetry. by apply HG.
Qed.

(** The bytes [copy_borders] writes in row [i]. *)
Lemma copy_borders_fills :
  fills Output ctx orig
    (fun idx => ∃ i, 0 ≤ i < height ∧ ∃ j, 0 ≤ j < width ∧
       ¬ (1 ≤ i < height - 1 ∧ 1 ≤ j < width - 1) ∧
       ∃ c, 0 ≤ c < channels ∧ idx = off i j c)
    (blur_spec width height channels input)
    (copy_borders width height channels).
Proof.
  unfold copy_borders.
  apply (fills_for Output ctx orig (fun i idx => ∃ j, 0 ≤ j < width ∧
           ¬ (1 ≤ i < height - 1 ∧ 1 ≤ j < width - 1) ∧
           ∃ c, 0 ≤ c < channels ∧ idx = off i j c)).
  intros i Hi. cbv beta.
  destruct ((i =? 0) || (i =? height - 1)) eqn:Hrow.
  - apply orb_true_iff in Hrow. rewrite !Z.eqb_eq in Hrow.
    apply (fills_weaken Output ctx orig (fun idx => ∃ j, 0 ≤ j < width ∧
             ∃ c, 0 ≤ c < channels ∧ idx = off i j c)).
    { intros idx. split.
      - intros (j & Hj & Hc). exists j. split; [done|]. split; [lia|done].
      - intros (j & Hj & _ & Hc). eauto. }
    apply (fills_for Output ctx orig (fun j idx =>
             ∃ c, 0 ≤ c < channels ∧ idx = off i j c)).
    intros j Hj. cbv beta zeta. apply copy_pixel_fills; [done..|].
    intros c Hc.
    apply (blur_spec_border width height channels input i j c);
      [done|done|lia|done].
  - apply orb_false_iff in Hrow. rewrite !Z.eqb_neq in Hrow. cbv zeta.
    apply (fills_weaken Output ctx orig (fun idx => ∃ c, 0 ≤ c < channels ∧
             (idx = off i 0 c ∨ idx = off i (width - 1) c))).
    { intros idx. split.
      - intros (c & Hc & [->| ->]); [exists 0|exists (width - 1)];
          (split; [lia|]); (split; [lia|]); eauto.
      - intros (j & Hj & Hb & c & Hc & ->). exists c. split; [done|].
        assert (j = 0 ∨ j = width - 1) as [->| ->] by lia; auto. }
    apply (fills_for Output ctx orig (fun c idx =>
             idx = off i 0 c ∨ idx = off i (width - 1) c)).
    intros c Hc. cbv beta.
    eapply fills_looks.
    { apply looks_load; [done|].
      apply (input_get' i 0 c); [lia..|unfold offset; lia]. }
    apply (fills_weaken Output ctx orig (fun idx =>
             idx = i * width * channels + c ∨
             idx = (i * width + width - 1) * channels + c)).
    { intros idx. unfold offset. lia. }
    apply fills_bind.
    { apply fills_store.
      - apply (orig_bounds i 0 c); [lia..|unfold offset; lia].
      - symmetry.
        apply (blur_spec_border width height channels input i 0 c);
          [lia..|unfold offset; lia]. }
    intros _. eapply fills_looks.
    { apply looks_load; [done|].
      apply (input_get' i (width - 1) c); [lia..|unfold offset; lia]. }
    apply fills_store.
    + apply (orig_bounds i (width - 1) c); [lia..|unfold offset; lia].
    + symmetry.
      apply (blur_spec_border width height channels input i (width - 1) c);
        [lia..|unfold offset; lia].
Qed.

Lemma gaussian_blur_filter_fills :
  fills Output ctx orig (fun idx => image idx)
    (blur_spec width height channels input)
    (gaussian_blur_filter width height channels).
Proof.
  unfold gaussian_blur_filter.
  eapply fills_weaken;
    [|apply fills_bind; [apply blur_interior_fills|
                         intros _; apply copy_borders_fills]].
  intros idx. cbv beta. rewrite image_fp_rows. split.
  - intros [(i & Hi & j & Hj & Hc)|(i & Hi & j & Hj & _ & Hc)];
      exists i; (split; [lia|]); exists j; (split; [lia|done]).
  - intros (i & Hi & j & Hj & Hc).
    destruct (decide (1 ≤ i < height - 1 ∧ 1 ≤ j < width - 1)) as [[??]|Hno].
    + left. eauto 10.
    + right. eauto 10.
Qed.

Lemma sobel_sums_looks i j :
  1 ≤ i < height - 1 → 1 ≤ j < width - 1 →
  looks Output ctx orig
    (for_ (-1) 2 (fun di sums =>
       for_ (-1) 2 (fun dj sums =>
         let idx := ((i + di) * width + (j + dj)) * channels in
         pixel <- load Input idx ;; ret (sobel_acc sums pixel di dj)) sums)
       (fzero, fzero))
    (sobel_sums (fun di dj =>
       byte input (((i + di) * width + (j + dj)) * channels))).
Proof.
  intros Hi Hj. unfold sobel_sums.
  apply (looks_for Output ctx orig _ (fun di sums =>
    forZ (-1) 2 (fun dj sums =>
      sobel_acc sums (byte input (((i + di) * width + (j + dj)) * channels))
        di dj) sums)).
  intros di sums Hdi. cbv beta.
  apply (looks_for Output ctx orig _ (fun dj sums =>
    sobel_acc sums (byte input (((i + di) * width + (j + dj)) * channels))
      di dj)).
  intros dj sums' Hdj. cbv beta zeta.
  eapply looks_bind; [|apply looks_ret].
  apply looks_load; [done|].
  apply (input_get' (i + di) (j + dj) 0); [lia..|unfold offset; lia].
Qed.

Lemma sobel_edge_filter_fills :
  fills Output ctx orig
    (fun idx => ∃ i, 1 ≤ i < height - 1 ∧ ∃ j, 1 ≤ j < width - 1 ∧
       ∃ c, 0 ≤ c < channels ∧ idx = off i j c)
    (sobel_spec width channels input)
    (sobel_edge_filter width height channels).
Proof.
  unfold sobel_edge_filter.
  apply (fills_for Output ctx orig (fun i idx => ∃ j, 1 ≤ j < width - 1 ∧
           ∃ c, 0 ≤ c < channels ∧ idx = off i j c)).
  intros i Hi. cbv beta.
  apply (fills_for Output ctx orig (fun j idx =>
           ∃ c, 0 ≤ c < channels ∧ idx = off i j c)).
  intros j Hj. cbv beta.
  eapply fills_looks; [by apply sobel_sums_looks|]. cbv zeta.
  apply (fills_for Output ctx orig (fun c idx => idx = off i j c)).
  intros c Hc. cbv beta.
  apply fills_store; [apply (orig_bounds i j c); [lia..|done]|].
  rewrite (sobel_spec_at width channels input i j c) by (lia || done).
  unfold edge_value_omp. reflexivity.
Qed.

End OMP.

(** ** The pointwise filters of the distributed program work in place *)

Section MPIPointwise.
Variables (local_height width channels : Z) (orig : list Z).
Hypothesis width_pos : 0 < width.
Hypothesis height_nonneg : 0 ≤ local_height.
Hypothesis channels_pos : 0 < channels.
Hypothesis orig_len :
  Z.of_nat (length orig) = local_height * width * channels.
Variable ctx : mem mpi_buf.

Local Abbreviation off := (offset width channels).

Lemma band_get i j c e :
  0 ≤ i < local_height → 0 ≤ j < width → 0 ≤ c < channels → e = off i j c →
  get orig e = Some (byte orig e).
Proof.
  intros Hi Hj Hc ->. apply get_byte. rewrite orig_len.
  assert (0 ≤ off i j c < width * local_height * channels)
    by (apply offset_bounds; done).
  lia.
Qed.

Lemma band_bounds i j c e :
  0 ≤ i < local_height → 0 ≤ j < width → 0 ≤ c < channels → e = off i j c →
  0 ≤ e < Z.of_nat (length orig).
Proof.
  intros Hi Hj Hc ->. rewrite orig_len.
  assert (0 ≤ off i j c < width * local_height * channels)
    by (apply offset_bounds; done).
  lia.
Qed.

Lemma brightness_filter_mpi_writes brightness :
  writes LocalData ctx orig
    (fun idx => 0 ≤ idx < local_height * width * channels)
    (brighten_spec orig brightness)
    (brightness_filter_mpi local_height width channels brightness).
Proof.
  unfold brightness_filter_mpi. cbv zeta.
  apply (writes_weaken LocalData ctx orig
           (fun idx => ∃ i, 0 ≤ i < local_height * width * channels ∧ idx = i)).
  { intros idx. split; [intros (i & Hi & ->); lia|eauto]. }
  apply (writes_for LocalData ctx orig (fun i idx => idx = i)); [|lia].
  intros i Hi. cbv beta.
  eapply writes_reads.
  - apply reads_load_out; [done|]. apply get_byte. lia.
  - apply writes_store; [lia|done].
Qed.

Lemma grayscale_filter_mpi_writes :
  writes LocalData ctx orig
    (fun idx => ∃ i, 0 ≤ i < local_height ∧ ∃ j, 0 ≤ j < width ∧
       ∃ c, 0 ≤ c < Z.min channels 3 ∧ idx = off i j c)
    (grayscale_spec channels orig)
    (grayscale_filter_mpi local_height width channels).
Proof.
  unfold grayscale_filter_mpi.
  apply (writes_for_rows LocalData ctx orig width channels channels_pos
           (fun i idx => ∃ j, 0 ≤ j < width ∧
              ∃ c, 0 ≤ c < Z.min channels 3 ∧ idx = off i j c)).
  { intros i idx (j & Hj & c & Hc & ->). exists j. split; [done|].
    exists c. split; [lia|done]. }
  intros i Hi. cbv beta.
  apply (writes_for_cols LocalData ctx orig width channels channels_pos i
           (fun j idx => ∃ c, 0 ≤ c < Z.min channels 3 ∧ idx = off i j c));
    [lia|lia| |].
  { intros j idx (c & Hc & ->). exists c. split; [lia|done]. }
  intros j Hj. cbv beta zeta.
  set (p := (i * width + j) * channels).
  apply (writes_weaken LocalData ctx orig
           (fun idx => idx = p ∨ ((1 <? channels) = true ∧ idx = p + 1) ∨
                       ((2 <? channels) = true ∧ idx = p + 2))).
  { intros idx. rewrite !Z.ltb_lt. unfold offset. fold p. split.
    - intros [->|[[? ->]|[? ->]]]; [exists 0|exists 1|exists 2]; lia.
    - intros (c & Hc & ->).
      assert (c = 0 ∨ c = 1 ∨ c = 2) as [->|[->| ->]] by lia; lia. }
  eapply writes_reads.
  { apply reads_load_out; [by left|].
    apply (band_get i j 0); [lia..|unfold offset; lia]. }
  eapply writes_reads
    with (a := if 1 <? channels then byte orig (p + 1) else byte orig p).
  { destruct (Z.ltb_spec 1 channels); [|apply reads_ret].
    apply reads_load_out; [right; left; by split|].
    apply (band_get i j 1); [lia..|done]. }
  eapply writes_reads
    with (a := if 2 <? channels then byte orig (p + 2) else byte orig p).
  { destruct (Z.ltb_spec 2 channels); [|apply reads_ret].
    apply reads_load_out; [right; right; by split|].
    apply (band_get i j 2); [lia..|done]. }
  apply writes_bind; [| |intros idx -> [[_ ?]|[_ ?]]; lia].
  { apply writes_store;
      [apply (band_bounds i j 0); [lia..|unfold offset; lia]|].
    rewrite (grayscale_spec_at width channels orig i j 0)
      by (lia || (unfold offset; lia)).
    done. }
  intros _. apply writes_bind; [| |intros idx [_ ->] [_ ?]; lia].
  { apply writes_when. rewrite Z.ltb_lt. intros H1.
    apply writes_store; [apply (band_bounds i j 1); [lia..|done]|].
    rewrite (grayscale_spec_at width channels orig i j 1) by (lia || done).
    done. }
  intros _. apply writes_when. rewrite Z.ltb_lt. intros H2.
  apply writes_store; [apply (band_bounds i j 2); [lia..|done]|].
  rewrite (grayscale_spec_at width channels orig i j 2) by (lia || done). done.
Qed.

End MPIPointwise.

(** ** The stencil filters of the distributed program *)

Section MPIStencil.
Variables (local_height width channels rank size : Z).
Variables (temp halo_top halo_bottom : list Z).
Hypothesis width_pos : 0 < width.
Hypothesis height_nonneg : 0 ≤ local_height.
Hypothesis channels_pos : 0 < channels.
Hypothesis temp_len :
  Z.of_nat (length temp) = local_height * width * channels.
Hypothesis top_len : Z.of_nat (length halo_top) = width * channels.
Hypothesis bottom_len : Z.of_nat (length halo_bottom) = width * channels.

Local Abbreviation ctx := (stencil_mem [] temp halo_top halo_bottom).
Local Abbreviation off := (offset width channels).
Local Abbreviation rd :=
  (band_read local_height width channels temp halo_top halo_bottom).

Lemma temp_bounds i j c e :
  0 ≤ i < local_height → 0 ≤ j < width → 0 ≤ c < channels → e = off i j c →
  0 ≤ e < Z.of_nat (length temp).
Proof.
  intros Hi Hj Hc ->. rewrite temp_len.
  assert (0 ≤ off i j c < width * local_height * channels)
    by (apply offset_bounds; done).
  lia.
Qed.

Lemma stencil_load_looks ni nj c :
  -1 ≤ ni ≤ local_height → 0 ≤ nj < width → 0 ≤ c < channels →
  looks LocalData ctx temp
    (stencil_load local_height width channels ni nj c) (rd ni nj c).
Proof.
  intros Hni Hnj Hc. unfold stencil_load, band_read.
  destruct (Z.ltb_spec ni 0); [|destruct (Z.leb_spec local_height ni)].
  - apply looks_load; [done|]. apply get_byte. rewrite top_len. nia.
  - apply looks_load; [done|]. apply get_byte. rewrite bottom_len. nia.
  - apply looks_load; [done|]. apply get_byte.
    apply (temp_bounds ni nj c); [lia..|done].
Qed.

Lemma recomputed_true i j :
  skip_row local_height rank size i = false → 1 ≤ j < width - 1 →
  recomputed local_height width rank size i j = true.
Proof.
  intros Hs Hj. unfold recomputed. rewrite Hs. simpl.
  apply andb_true_iff. lia.
Qed.

Lemma blur_band_spec_at i j c e :
  skip_row local_height rank size i = false → 1 ≤ j < width - 1 →
  0 ≤ c < channels → e = off i j c →
  blur_band_spec local_height width channels rank size
    temp halo_top halo_bottom e =
  blur_value (fun di dj => rd (i + di) (j + dj) c).
Proof.
  intros Hs Hj Hc ->. unfold blur_band_spec.
  rewrite row_of_offset, col_of_offset, chan_of_offset by lia.
  by rewrite recomputed_true.
Qed.

Lemma sobel_band_spec_at i j c e :
  skip_row local_height rank size i = false → 1 ≤ j < width - 1 →
  0 ≤ c < channels → e = off i j c →
  sobel_band_spec local_height width channels rank size
    temp halo_top halo_bottom e =
  edge_value_mpi (fun di dj => rd (i + di) (j + dj) 0).
Proof.
  intros Hs Hj Hc ->. unfold sobel_band_spec.
  rewrite row_of_offset, col_of_offset by lia.
  by rewrite recomputed_true.
Qed.

Lemma blur_rows_mpi_fills :
  fills LocalData ctx temp
    (stencil_fp local_height width channels rank size)
    (blur_band_spec local_height width channels rank size
       temp halo_top halo_bottom)
    (blur_rows_mpi local_height width channels rank size).
Proof.
  unfold blur_rows_mpi, stencil_fp.
  apply (fills_for LocalData ctx temp (fun i idx =>
           skip_row local_height rank size i = false ∧
           ∃ j, 1 ≤ j < width - 1 ∧ ∃ c, 0 ≤ c < channels ∧ idx = off i j c)).
  intros i Hi. cbv beta zeta.
  destruct (skip_row local_height rank size i) eqn:Hskip.
  { eapply fills_weaken; [|apply fills_ret]. intros idx. split; [done|].
    by intros [? _]. }
  replace (if (i =? 0) || (i =? local_height - 1) then 1 else 1) with 1
    by by destruct ((i =? 0) || (i =? local_height - 1)).
  apply (fills_weaken LocalData ctx temp (fun idx =>
           ∃ j, 1 ≤ j < width - 1 ∧ ∃ c, 0 ≤ c < channels ∧ idx = off i j c)).
  { intros idx. split; [by split|by intros [_ ?]]. }
  apply (fills_for LocalData ctx temp (fun j idx =>
           ∃ c, 0 ≤ c < channels ∧ idx = off i j c)).
  intros j Hj. cbv beta.
  apply (fills_for LocalData ctx temp (fun c idx => idx = off i j c)).
  intros c Hc. cbv beta.
  eapply fills_looks.
  { apply (looks_for LocalData ctx temp _ (fun di sum =>
      forZ (-1) 2 (fun dj sum =>
        blur_acc sum (rd (i + di) (j + dj) c) di dj) sum)).
    intros di sum Hdi. cbv beta.
    apply (looks_for LocalData ctx temp _ (fun dj sum =>
      blur_acc sum (rd (i + di) (j + dj) c) di dj)).
    intros dj sum' Hdj. cbv beta zeta.
    eapply looks_bind; [|apply looks_ret].
    apply stencil_load_looks; lia. }
  cbv zeta.
  apply fills_store; [apply (temp_bounds i j c); [lia..|done]|].
  rewrite (blur_band_spec_at i j c) by (lia || done).
  unfold blur_value. reflexivity.
Qed.

Lemma sobel_rows_mpi_fills :
  fills LocalData ctx temp
    (stencil_fp local_height width channels rank size)
    (sobel_band_spec local_height width channels rank size
       temp halo_top halo_bottom)
    (sobel_rows_mpi local_height width channels rank size).
Proof.
  unfold sobel_rows_mpi, stencil_fp.
  apply (fills_for LocalData ctx temp (fun i idx =>
           skip_row local_height rank size i = false ∧
           ∃ j, 1 ≤ j < width - 1 ∧ ∃ c, 0 ≤ c < channels ∧ idx = off i j c)).
  intros i Hi. cbv beta zeta.
  destruct (skip_row local_height rank size i) eqn:Hskip.
  { eapply fills_weaken; [|apply fills_ret]. intros idx. split; [done|].
    by intros [? _]. }
  apply (fills_weaken LocalData ctx temp (fun idx =>
           ∃ j, 1 ≤ j < width - 1 ∧ ∃ c, 0 ≤ c < channels ∧ idx = off i j c)).
  { intros idx. split; [by split|by intros [_ ?]]. }
  apply (fills_for LocalData ctx temp (fun j idx =>
           ∃ c, 0 ≤ c < channels ∧ idx = off i j c)).
  intros j Hj. cbv beta.
  eapply fills_looks.
  { apply (looks_for LocalData ctx temp _ (fun di sums =>
      forZ (-1) 2 (fun dj sums =>
        sobel_acc sums (rd (i + di) (j + dj) 0) di dj) sums)).
    intros di sums Hdi. cbv beta.
    apply (looks_for LocalData ctx temp _ (fun dj sums =>
      sobel_acc sums (rd (i + di) (j + dj) 0) di dj)).
    intros dj sums' Hdj. cbv beta zeta.
    eapply looks_bind; [|apply looks_ret].
    apply stencil_load_looks; lia. }
  apply (fills_for LocalData ctx temp (fun c idx => idx = off i j c)).
  intros c Hc. cbv beta.
  apply fills_store; [apply (temp_bounds i j c); [lia..|done]|].
  rewrite (sobel_band_spec_at i j c) by (lia || done).
  unfold edge_value_mpi, sobel_sums. reflexivity.
Qed.

End MPIStencil.

(** ** Running a filter *)

Section Run.
Context {B : Type} `{EqDecision B}.
Variables (out : B) (ctx : mem B) (orig : list Z).

Lemma fills_run fp G c m :
  fills out ctx orig fp G c → stable out ctx orig m →
  ∃ m', c m = Ok (tt, m') ∧ stable out ctx orig m' ∧
    (∀ idx, fp idx → get (m' out) idx = Some (G idx)) ∧
    (∀ idx, ¬ fp idx → get (m' out) idx = get (m out) idx).
Proof.
  intros Hc Hst. destruct (wp_inv _ _ _ (Hc m Hst))
    as ([] & m' & Hrun & Hst' & Hin & Hout & _). eauto.
Qed.

Lemma writes_run fp G c m :
  writes out ctx orig fp G c → stable out ctx orig m → m out = orig →
  ∃ m', c m = Ok (tt, m') ∧ stable out ctx orig m' ∧
    (∀ idx, fp idx → get (m' out) idx = Some (G idx)) ∧
    (∀ idx, ¬ fp idx → get (m' out) idx = get orig idx).
Proof.
  intros Hc Hst Horig.
  assert (untouched out orig fp m) as Hun by (intros idx _; by rewrite Horig).
  destruct (wp_inv _ _ _ (Hc m Hst Hun))
    as ([] & m' & Hrun & Hst' & Hin & Hout).
  exists m'. split; [done|]. split; [done|]. split; [done|].
  intros idx Hno. rewrite <- Horig. by apply Hout.
Qed.

End Run.

Lemma get_None_ge l i : Z.of_nat (length l) ≤ i → get l i = None.
Proof.
  intros Hi. unfold get. destruct (Z.leb_spec 0 i); [|done].
  apply lookup_ge_None. lia.
Qed.

Lemma get_None_neg l i : i < 0 → get l i = None.
Proof. intros Hi. unfold get. by destruct (Z.leb_spec 0 i); [lia|]. Qed.

(** A buffer is determined by its length and its bytes. *)
Lemma get_ext_len l1 l2 :
  length l1 = length l2 →
  (∀ i, 0 ≤ i < Z.of_nat (length l1) → get l1 i = get l2 i) → l1 = l2.
Proof.
  intros Hlen Hget. apply get_ext. intros i.
  destruct (decide (0 ≤ i < Z.of_nat (length l1))) as [Hi|Hi]; [by apply Hget|].
  destruct (decide (i < 0)).
  - by rewrite !get_None_neg.
  - rewrite !get_None_ge; [done|lia..].
Qed.

Lemma brighten_byte_clamp b :
  0 ≤ b < 256 → brighten_byte b 50 = clamp (b + 50) 0 255.
Proof.
  intros Hb. unfold brighten_byte, clamp, to_uchar. cbv zeta.
  destruct (Z.ltb_spec 255 (b + 50)).
  - destruct (Z.ltb_spec 255 0); [lia|]. rewrite Z.mod_small; lia.
  - destruct (Z.ltb_spec (b + 50) 0); [lia|].
    rewrite Z.mod_small; lia.
Qed.

(** The memory [main] starts a shared-memory filter in. *)
Lemma omp_mem_stable input output orig :
  length output = length orig →
  stable Output (omp_mem input []) orig (omp_mem input output).
Proof. intros Hlen. split; [done|]. by intros []. Qed.

Lemma omp_main_run filter input m :
  omp_filter filter (width input) (height input) (channels input)
    (omp_mem (data input) (data (create_image (width input) (height input)
                                    (channels input)))) = Ok (tt, m) →
  omp_main filter input =
  Ok {| data := m Output; width := width input; height := height input;
        channels := channels input |}.
Proof. unfold omp_main. by intros ->. Qed.

Lemma mpi_mem_stable local_data halo_top halo_bottom :
  stable LocalData (mpi_mem [] halo_top halo_bottom) local_data
    (mpi_mem local_data halo_top halo_bottom).
Proof. split; [done|]. by intros []. Qed.

Lemma create_image_len width height channels :
  0 < width → 0 ≤ height → 0 < channels →
  Z.of_nat (length (data (create_image width height channels))) =
  width * height * channels.
Proof. intros Hw Hh Hc. simpl. rewrite length_replicate. nia. Qed.

(** The shared-memory run of a filter whose footprint is known. *)
Lemma omp_main_fills filter (img : Image) fp G :
  0 < width img → 0 ≤ height img → 0 < channels img →
  fills Output (omp_mem (data img) [])
    (data (create_image (width img) (height img) (channels img))) fp G
    (omp_filter filter (width img) (height img) (channels img)) →
  ∃ output, omp_main filter img = Ok output ∧
    width output = width img ∧ height output = height img ∧
    channels output = channels img ∧
    Z.of_nat (length (data output)) = width img * height img * channels img ∧
    (∀ idx, fp idx → get (data output) idx = Some (G idx)) ∧
    (∀ idx, ¬ fp idx → get (data output) idx =
       get (replicate (Z.to_nat (width img * height img * channels img)) 0)
         idx).
Proof.
  intros Hw Hh Hc Hfills.
  destruct (fills_run _ _ _ _ _ _ _ Hfills
              (omp_mem_stable (data img) _ _ eq_refl))
    as (m' & Hrun & [Hlen _] & Hin & Hout).
  eexists. split; [by apply omp_main_run|]. simpl.
  split; [done|]. split; [done|]. split; [done|]. split; [|by split].
  rewrite Hlen. by apply create_image_len.
Qed.

Lemma gray_pixel_eq width channels input i j :
  gray_pixel channels input ((i * width + j) * channels) =
  gray_of (byte input (offset width channels i j 0))
    (if 1 <? channels then byte input (offset width channels i j 1)
     else byte input (offset width channels i j 0))
    (if 2 <? channels then byte input (offset width channels i j 2)
     else byte input (offset width channels i j 0)).
Proof. unfold gray_pixel, offset. by rewrite Z.add_0_r. Qed.

(** ** Uniform images *)

Lemma forZ_iter_ext {A} (body body' : Z → A → A) n i a :
  (∀ k x, i ≤ k < i + Z.of_nat n → body k x = body' k x) →
  forZ_iter n i body a = forZ_iter n i body' a.
Proof.
  revert i a. induction n as [|n IH]; intros i a Hext; simpl; [done|].
  rewrite Hext by lia. apply IH. intros k x Hk. apply Hext. lia.
Qed.

Lemma forZ_ext {A} (body body' : Z → A → A) lo hi a :
  (∀ k x, lo ≤ k < hi → body k x = body' k x) →
  forZ lo hi body a = forZ lo hi body' a.
Proof.
  intros Hext. apply forZ_iter_ext. intros k x Hk. apply Hext. lia.
Qed.

Lemma blur_value_ext rd rd' :
  (∀ di dj, -1 ≤ di < 2 → -1 ≤ dj < 2 → rd di dj = rd' di dj) →
  blur_value rd = blur_value rd'.
Proof.
  intros Hext. unfold blur_value. f_equal.
  apply forZ_ext. intros di sum Hdi.
  apply forZ_ext. intros dj sum' Hdj. by rewrite Hext.
Qed.

Lemma sobel_sums_ext rd rd' :
  (∀ di dj, -1 ≤ di < 2 → -1 ≤ dj < 2 → rd di dj = rd' di dj) →
  sobel_sums rd = sobel_sums rd'.
Proof.
  intros Hext. unfold sobel_sums.
  apply forZ_ext. intros di sum Hdi.
  apply forZ_ext. intros dj sum' Hdj. by rewrite Hext.
Qed.

Lemma blur_value_100 : blur_value (fun _ _ => 100) = 100.
Proof. vm_compute. reflexivity. Qed.

Lemma edge_value_omp_100 : edge_value_omp (fun _ _ => 100) = 0.
Proof. vm_compute. reflexivity. Qed.

Lemma edge_value_mpi_100 : edge_value_mpi (fun _ _ => 100) = 0.
Proof. vm_compute. reflexivity. Qed.

(** ** Slices of buffers *)

Lemma length_slice l off len :
  0 ≤ off → 0 ≤ len → off + len ≤ Z.of_nat (length l) →
  Z.of_nat (length (slice l off len)) = len.
Proof.
  intros Hoff Hlen Hle. unfold slice.
  rewrite length_take, length_drop. lia.
Qed.

Lemma get_slice l off len i :
  0 ≤ off → 0 ≤ i < len → get (slice l off len) i = get l (off + i).
Proof.
  intros Hoff Hi. unfold get, slice.
  destruct (Z.leb_spec 0 i); [|lia]. destruct (Z.leb_spec 0 (off + i)); [|lia].
  rewrite lookup_take_lt by lia. rewrite lookup_drop. f_equal. lia.
Qed.

Lemma slice_slice l o n off len :
  0 ≤ o → 0 ≤ off → 0 ≤ len → off + len ≤ n →
  slice (slice l o n) off len = slice l (o + off) len.
Proof.
  intros Ho Hoff Hlen Hle. unfold slice. apply list_eq. intros k.
  rewrite !lookup_take, !lookup_drop.
  case_decide; [|done].
  rewrite lookup_take_lt by lia. rewrite lookup_drop. f_equal. lia.
Qed.

Lemma slice_all l len : Z.of_nat (length l) = len → slice l 0 len = l.
Proof. intros <-. unfold slice. rewrite drop_0, take_ge; [done|lia]. Qed.

Lemma read_range_Ok l off len :
  0 ≤ off → 0 ≤ len → off + len ≤ Z.of_nat (length l) →
  read_range l off len = Ok (slice l off len).
Proof.
  intros Hoff Hlen Hle. unfold read_range.
  destruct (Z.leb_spec 0 off); [|lia]. destruct (Z.leb_spec 0 len); [|lia].
  by destruct (Z.leb_spec (off + len) (Z.of_nat (length l))); [|lia].
Qed.

Lemma read_range_Fault l off len :
  Z.of_nat (length l) < off + len → read_range l off len = Fault OutOfBounds.
Proof.
  intros Hlt. unfold read_range.
  destruct (Z.leb_spec (off + len) (Z.of_nat (length l))); [lia|].
  by rewrite andb_false_r.
Qed.

(** Filling a whole buffer replaces it. *)
Lemma write_range_all l src :
  length src = length l → write_range l 0 src = Ok src.
Proof.
  intros Hlen. unfold write_range. simpl.
  destruct (Z.leb_spec (0 + Z.of_nat (length src)) (Z.of_nat (length l)));
    [|lia].
  rewrite drop_ge by lia. by rewrite app_nil_r.
Qed.

(** ** Steps taken on every rank *)

Lemma on_ranks_fmap {A R} (f : A → outcome R) (g : A → R) (l : list A) :
  (∀ a, a ∈ l → f a = Ok (g a)) → on_ranks f l = Ok (g <$> l).
Proof.
  induction l as [|a l IH]; intros Hf; simpl; [done|].
  rewrite Hf by apply list_elem_of_here. simpl.
  rewrite IH; [done|]. intros a' Ha'. apply Hf. by apply list_elem_of_further.
Qed.

Lemma on_ranks_Fault {A R} (f : A → outcome R) (g : A → R) (l1 l2 : list A)
    a e :
  (∀ x, x ∈ l1 → f x = Ok (g x)) → f a = Fault e →
  on_ranks f (l1 ++ a :: l2) = Fault e.
Proof.
  induction l1 as [|x l1 IH]; intros Hf Ha; simpl.
  - by rewrite Ha.
  - rewrite Hf by apply list_elem_of_here. simpl.
    rewrite IH; [done| |done]. intros y Hy. apply Hf.
    by apply list_elem_of_further.
Qed.

Lemma zip_fmap_self {A R} (g : A → R) (l : list A) :
  zip l (g <$> l) = (fun a => (a, g a)) <$> l.
Proof. induction l as [|a l IH]; [done|]. simpl. by f_equal. Qed.

(** ** Scatter and halo exchange *)

Lemma halo_recv_found net me src tag buf bytes :
  (∃ msg, In msg net ∧ msg_src msg = src ∧ msg_dest msg = me ∧
          msg_tag msg = tag) →
  (∀ msg, In msg net → msg_src msg = src → msg_dest msg = me →
          msg_tag msg = tag → msg_bytes msg = bytes) →
  length bytes = length buf →
  halo_recv net me src tag buf = Ok bytes.
Proof.
  intros (msg & Hin & Hs & Hd & Ht) Hall Hlen. unfold halo_recv.
  destruct (find _ net) as [msg'|] eqn:Hfind.
  - apply find_some in Hfind as [Hin' Hp].
    rewrite !andb_true_iff, !Z.eqb_eq in Hp. destruct Hp as [[Hs' Hd'] Ht'].
    rewrite (Hall msg' Hin' Hs' Hd' Ht'). by apply write_range_all.
  - apply (find_none _ _ Hfind) in Hin.
    rewrite !andb_false_iff, !Z.eqb_neq in Hin. tauto.
Qed.

Section Pipeline.
Variables (width height channels size : Z) (input : list Z).
Hypothesis width_pos : 0 < width.
Hypothesis height_nonneg : 0 ≤ height.
Hypothesis channels_pos : 0 < channels.
Hypothesis size_pos : 1 ≤ size.
Hypothesis input_len : Z.of_nat (length input) = width * height * channels.

Local Abbreviation lh := (local_height_of height size).
Local Abbreviation ro := (row_offset_of height size).
Local Abbreviation band := (band_of width height channels size input).
Local Abbreviation row := (image_row width channels input).
Local Abbreviation ranks := (seqZ 0 size).

Lemma rank_rows rank :
  0 ≤ rank < size → 0 ≤ ro rank ∧ 0 ≤ lh rank ∧ ro rank + lh rank ≤ height.
Proof using All.
  intros Hr. split; [apply row_offset_of_nonneg; lia|].
  split; [apply local_height_of_nonneg; lia|].
  destruct (row_offset_of_le height size height_nonneg size_pos rank); lia.
Qed.

Lemma rows_in_image first rows :
  0 ≤ first → 0 ≤ rows → first + rows ≤ height →
  0 ≤ first * width * channels ∧ 0 ≤ rows * width * channels ∧
  first * width * channels + rows * width * channels ≤
    Z.of_nat (length input).
Proof using All.
  intros Hf Hr Hle. rewrite input_len.
  assert (0 < width * channels) as Hp by nia.
  rewrite <- !Z.mul_assoc.
  replace (width * (height * channels)) with (height * (width * channels))
    by ring.
  set (p := width * channels) in *. nia.
Qed.

Lemma length_band_rows first rows :
  0 ≤ first → 0 ≤ rows → first + rows ≤ height →
  Z.of_nat (length (band_rows width channels input first rows)) =
  rows * width * channels.
Proof using All.
  intros Hf Hr Hle. destruct (rows_in_image first rows) as (? & ? & ?);
    [done..|].
  unfold band_rows. by apply length_slice.
Qed.

Lemma length_band rank :
  0 ≤ rank < size →
  Z.of_nat (length (band rank)) = lh rank * width * channels.
Proof using All.
  intros Hr. destruct (rank_rows rank Hr) as (? & ? & ?).
  by apply length_band_rows.
Qed.

Lemma length_row r :
  0 ≤ r < height → Z.of_nat (length (row r)) = width * channels.
Proof using All.
  intros Hr. unfold image_row. rewrite length_band_rows; lia.
Qed.

(** Row [k] of a band is a row of the image. *)
Lemma band_rows_row first rows k :
  0 ≤ first → 0 ≤ k < rows → first + rows ≤ height →
  slice (band_rows width channels input first rows)
    (k * (width * channels)) (width * channels) = row (first + k).
Proof using All.
  intros Hf Hk Hle. unfold image_row, band_rows.
  rewrite slice_slice by nia. f_equal; lia.
Qed.

Lemma scatterv_band rank :
  0 ≤ rank < size →
  scatterv input (layout height size width channels).1
    (layout height size width channels).2
    (lh rank * width * channels) rank = Ok (band rank).
Proof using All.
  intros Hr. destruct (rank_rows rank Hr) as (Ho & Hl & Hle).
  destruct (rows_in_image (ro rank) (lh rank)) as (? & ? & ?); [done..|].
  destruct (layout height size width channels) as [sc dp] eqn:E.
  apply layout_spec in E as (_ & _ & Hall); [|done..].
  destruct (Hall rank Hr) as [Hsc Hdp].
  unfold scatterv, entry. simpl. rewrite Hsc, Hdp. simpl.
  rewrite read_range_Ok by done. simpl.
  apply write_range_all. rewrite length_replicate.
  apply Nat2Z.inj. rewrite length_band by done. lia.
Qed.

Lemma scatter_bands :
  on_ranks (fun rank =>
    scatterv input (layout height size width channels).1
      (layout height size width channels).2
      (lh rank * width * channels) rank) ranks = Ok (band <$> ranks).
Proof using All.
  apply on_ranks_fmap. intros rank Hr. apply elem_of_seqZ in Hr.
  apply scatterv_band. lia.
Qed.

Lemma halo_sends_band rank :
  0 ≤ rank < size → 1 ≤ lh rank →
  halo_sends rank size (lh rank) (width * channels) (band rank) =
  Ok (sends_of width height channels size input rank).
Proof using All.
  intros Hr Hlh. destruct (rank_rows rank Hr) as (Ho & Hl & Hle).
  pose proof (length_band rank Hr) as Hlen.
  unfold halo_sends, sends_of.
  assert (read_range (band rank) 0 (width * channels) = Ok (row (ro rank)))
    as Hfirst.
  { rewrite read_range_Ok by nia. f_equal.
    pose proof (band_rows_row (ro rank) (lh rank) 0) as Hrow.
    rewrite Z.add_0_r in Hrow. rewrite <- Hrow by lia.
    unfold band_of. f_equal; lia. }
  assert (read_range (band rank) ((lh rank - 1) * (width * channels))
            (width * channels) = Ok (row (ro rank + lh rank - 1))) as Hlast.
  { rewrite read_range_Ok by nia. f_equal.
    replace (ro rank + lh rank - 1) with (ro rank + (lh rank - 1)) by lia.
    rewrite <- (band_rows_row (ro rank) (lh rank) (lh rank - 1)) by lia.
    unfold band_of. f_equal; lia. }
  rewrite Hfirst, Hlast. simpl. by destruct (0 <? rank), (rank <? size - 1).
Qed.

Lemma In_sends_of msg rank :
  In msg (sends_of width height channels size input rank) →
  msg_src msg = rank ∧
  ((msg_dest msg = rank - 1 ∧ msg_tag msg = 0 ∧ 0 < rank ∧
    msg_bytes msg = row (ro rank)) ∨
   (msg_dest msg = rank + 1 ∧ msg_tag msg = 1 ∧ rank < size - 1 ∧
    msg_bytes msg = row (ro rank + lh rank - 1))).
Proof using All.
  unfold sends_of. intros Hin. apply in_app_or in Hin as [Hin|Hin].
  - destruct (Z.ltb_spec 0 rank); [|done].
    destruct Hin as [<-|[]]. simpl. split; [done|]. by left.
  - destruct (Z.ltb_spec rank (size - 1)); [|done].
    destruct Hin as [<-|[]]. simpl. split; [done|]. by right.
Qed.

Lemma In_net msg :
  In msg (concat (sends_of width height channels size input <$> ranks)) ↔
  ∃ rank, 0 ≤ rank < size ∧
    In msg (sends_of width height channels size input rank).
Proof using All.
  rewrite in_concat. split.
  - intros (l & Hl & Hmsg). apply list_elem_of_In in Hl.
    apply list_elem_of_fmap in Hl as (rank & -> & Hr).
    apply elem_of_seqZ in Hr. exists rank. split; [lia|done].
  - intros (rank & Hr & Hmsg). eexists. split; [|exact Hmsg].
    apply list_elem_of_In. apply list_elem_of_fmap. exists rank.
    split; [done|]. apply elem_of_seqZ. lia.
Qed.

Lemma halo_recvs_net rank :
  0 ≤ rank < size → (∀ k, 0 ≤ k < size → 1 ≤ lh k) →
  halo_recvs (concat (sends_of width height channels size input <$> ranks))
    rank size (width * channels) =
  Ok (halos_of width height channels size input rank).
Proof using All.
  intros Hr Hall. unfold halo_recvs, halos_of.
  set (net := concat _).
  assert ((if 0 <? rank
           then halo_recv net rank (rank - 1) 1
                  (replicate (Z.to_nat (width * channels)) 0)
           else Ok (replicate (Z.to_nat (width * channels)) 0)) =
          Ok (if 0 <? rank then row (ro rank - 1)
              else replicate (Z.to_nat (width * channels)) 0)) as ->.
  { destruct (Z.ltb_spec 0 rank); [|done].
    destruct (rank_rows (rank - 1)) as (Ho & Hl & Hle); [lia|].
    pose proof (Hall (rank - 1) ltac:(lia)) as Hlh.
    assert (ro rank = ro (rank - 1) + lh (rank - 1)) as Hro.
    { replace rank with ((rank - 1) + 1) at 1 by lia.
      apply row_offset_of_succ. lia. }
    apply halo_recv_found.
    - eexists {| msg_src := rank - 1; msg_dest := rank - 1 + 1; msg_tag := 1;
                 msg_bytes := row (ro (rank - 1) + lh (rank - 1) - 1) |}.
      split; [|simpl; lia]. apply In_net. exists (rank - 1). split; [lia|].
      unfold sends_of. apply in_or_app. right.
      destruct (Z.ltb_spec (rank - 1) (size - 1)); [|lia]. by left.
    - intros msg Hin Hs Hd Ht. apply In_net in Hin as (k & Hk & Hin).
      apply In_sends_of in Hin as [Hsrc [(? & ? & ? & ?)|(? & ? & ? & ->)]];
        [lia|].
      assert (k = rank - 1) as -> by lia. f_equal. lia.
    - rewrite length_replicate. apply Nat2Z.inj.
      rewrite length_row by lia. lia. }
  assert ((if rank <? size - 1
           then halo_recv net rank (rank + 1) 0
                  (replicate (Z.to_nat (width * channels)) 0)
           else Ok (replicate (Z.to_nat (width * channels)) 0)) =
          Ok (if rank <? size - 1 then row (ro rank + lh rank)
              else replicate (Z.to_nat (width * channels)) 0)) as ->.
  { destruct (Z.ltb_spec rank (size - 1)); [|done].
    destruct (rank_rows (rank + 1)) as (Ho & Hl & Hle); [lia|].
    pose proof (Hall (rank + 1) ltac:(lia)) as Hlh.
    assert (ro (rank + 1) = ro rank + lh rank) as Hro
      by (apply row_offset_of_succ; lia).
    apply halo_recv_found.
    - eexists {| msg_src := rank + 1; msg_dest := rank + 1 - 1; msg_tag := 0;
                 msg_bytes := row (ro (rank + 1)) |}.
      split; [|simpl; lia]. apply In_net. exists (rank + 1). split; [lia|].
      unfold sends_of. apply in_or_app. left.
      destruct (Z.ltb_spec 0 (rank + 1)); [|lia]. by left.
    - intros msg Hin Hs Hd Ht. apply In_net in Hin as (k & Hk & Hin).
      apply In_sends_of in Hin as [Hsrc [(? & ? & ? & ->)|(? & ? & ? & ?)]];
        [|lia].
      assert (k = rank + 1) as -> by lia. f_equal. lia.
    - rewrite length_replicate. apply Nat2Z.inj.
      rewrite length_row by lia. lia. }
  done.
Qed.

(** The halo exchange over the scattered bands, when every band has a row. *)
Lemma halo_exchange_bands :
  (∀ k, 0 ≤ k < size → 1 ≤ lh k) →
  halo_exchange height size (width * channels) (band <$> ranks) =
  Ok (halos_of width height channels size input <$> ranks).
Proof using All.
  intros Hall. unfold halo_exchange. rewrite zip_fmap_self.
  rewrite (on_ranks_fmap _
             (fun p => sends_of width height channels size input p.1)).
  - simpl. rewrite <- list_fmap_compose.
    apply on_ranks_fmap. intros rank Hr. apply elem_of_seqZ in Hr.
    apply halo_recvs_net; [lia|done].
  - intros [rank ld] Hin.
    apply list_elem_of_fmap in Hin as (r & [= -> ->] & Hr).
    apply elem_of_seqZ in Hr. simpl. apply halo_sends_band; [lia|].
    apply Hall. lia.
Qed.

End Pipeline.

(** With more workers than rows, the first rank without a row posts a send
    of a whole row from its empty band. *)
Lemma halo_exchange_fault width height channels size input :
  0 < width → 0 < channels → 0 < height < size →
  Z.of_nat (length input) = width * height * channels →
  halo_exchange height size (width * channels)
    (band_of width height channels size input <$> seqZ 0 size) =
  Fault OutOfBounds.
Proof.
  intros Hw Hc Hh Hlen. unfold halo_exchange. rewrite zip_fmap_self.
  assert (∀ k, 0 ≤ k < size →
            local_height_of height size k = if k <? height then 1 else 0)
    as Hlh.
  { intros k Hk. rewrite local_height_of_eq by lia.
    rewrite Z.div_small, Z.mod_small by lia.
    destruct (k <? height); lia. }
  assert (seqZ 0 size =
          seqZ 0 height ++ height :: seqZ (height + 1) (size - height - 1))
    as ->.
  { transitivity (seqZ 0 (height + (size - height))); [f_equal; lia|].
    rewrite seqZ_app by lia. f_equal.
    rewrite seqZ_cons by lia. unfold Z.succ, Z.pred.
    repeat (f_equal; try lia). }
  rewrite fmap_app, fmap_cons.
  rewrite (on_ranks_Fault _
             (fun p => sends_of width height channels size input p.1)
             _ _ _ OutOfBounds); [done| |].
  - intros [rank ld] Hin.
    apply list_elem_of_fmap in Hin as (r & [= -> ->] & Hr).
    apply elem_of_seqZ in Hr. simpl.
    apply halo_sends_band; try done; try lia.
    rewrite Hlh by lia. destruct (Z.ltb_spec r height); lia.
  - simpl. unfold halo_sends.
    destruct (Z.ltb_spec 0 height); [|lia].
    rewrite read_range_Fault; [done|].
    assert (Z.of_nat (length (band_of width height channels size input height))
            = local_height_of height size height * width * channels) as ->.
    { apply length_band; try done; lia. }
    rewrite Hlh by lia. destruct (Z.ltb_spec height height); [lia|]. nia.
Qed.

Lemma local_height_of_pos height size rank :
  1 ≤ size ≤ height → 1 ≤ local_height_of height size rank.
Proof.
  intros Hs. rewrite local_height_of_eq by lia.
  assert (1 ≤ height / size) by (apply Z.div_le_lower_bound; lia).
  destruct (rank <? height mod size); lia.
Qed.

Lemma lookup_ranks {A} (f : Z → A) size rank :
  0 ≤ rank < size → (f <$> seqZ 0 size) !! Z.to_nat rank = Some (f rank).
Proof.
  intros Hr. rewrite list_lookup_fmap, lookup_seqZ_lt by lia.
  simpl. do 2 f_equal. lia.
Qed.

(** A rank without a row holds an empty band, and its send to the rank
    above reads [row_size] bytes outside of it. *)
Lemma zero_row_send width height channels size input rank :
  0 < width → 0 < height → 0 < channels → height ≤ rank < size →
  Z.of_nat (length input) = width * height * channels →
  band_of width height channels size input rank = [] ∧
  halo_sends rank size (local_height_of height size rank) (width * channels)
    [] = Fault OutOfBounds.
Proof.
  intros Hw Hh Hc Hr Hlen.
  assert (local_height_of height size rank = 0) as Hlh.
  { rewrite local_height_of_eq by lia.
    rewrite Z.div_small, Z.mod_small by lia.
    destruct (Z.ltb_spec rank height); lia. }
  split.
  - apply nil_length_inv.
    pose proof (length_band width height channels size input Hw
                  (Z.lt_le_incl _ _ Hh) Hc ltac:(lia) Hlen rank ltac:(lia))
      as Hband.
    rewrite Hlh in Hband. lia.
  - unfold halo_sends. destruct (Z.ltb_spec 0 rank); [|lia].
    rewrite read_range_Fault; [done|]. simpl. nia.
Qed.

(** C7 (halo exchange).  The bands are the ones [MPI_Scatterv] delivers.
    When every band has a row, the exchange completes and every rank holds
    two halo rows of [width * channels] bytes: with a predecessor,
    [halo_top] is the last row of the predecessor's band; with a successor,
    [halo_bottom] is the first row of the successor's band.  With more
    workers than rows the claim fails: every rank from [height] on holds an
    empty band and still sends [width * channels] bytes of it to the rank
    above, a read outside the band, so that the exchange does not leave
    rows of the image in the halos. *)
Theorem halo_exchange_rows (width height channels size : Z) (input : list Z) :
  0 < width → 0 < height → 0 < channels → 1 ≤ size →
  Z.of_nat (length input) = width * height * channels →
  let row_size := width * channels in
  let bands := band_of width height channels size input <$> seqZ 0 size in
  on_ranks (fun rank =>
    scatterv input (layout height size width channels).1
      (layout height size width channels).2
      (local_height_of height size rank * width * channels) rank)
    (seqZ 0 size) = Ok bands ∧
  (size ≤ height →
   ∃ halos, halo_exchange height size row_size bands = Ok halos ∧
    length halos = Z.to_nat size ∧
    ∀ rank halo_top halo_bottom,
      0 ≤ rank < size →
      halos !! Z.to_nat rank = Some (halo_top, halo_bottom) →
      Z.of_nat (length halo_top) = row_size ∧
      Z.of_nat (length halo_bottom) = row_size ∧
      (0 < rank →
       ∃ prev, bands !! Z.to_nat (rank - 1) = Some prev ∧
         halo_top =
         slice prev ((local_height_of height size (rank - 1) - 1) * row_size)
           row_size) ∧
      (rank < size - 1 →
       ∃ next, bands !! Z.to_nat (rank + 1) = Some next ∧
         halo_bottom = slice next 0 row_size)) ∧
  (height < size →
   halo_exchange height size row_size bands = Fault OutOfBounds ∧
   ∀ rank, height ≤ rank < size →
     bands !! Z.to_nat rank = Some [] ∧
     halo_sends rank size (local_height_of height size rank) row_size [] =
     Fault OutOfBounds).
Proof.
  intros Hw Hh Hc Hs Hlen row_size bands.
  split; [apply scatter_bands; done || lia|].
  split.
  2:{ intros Hgt. split; [apply halo_exchange_fault; done || lia|].
      intros rank Hr.
      destruct (zero_row_send width height channels size input rank)
        as [Hband Hsend]; [done..|].
      split; [|done]. unfold bands. rewrite lookup_ranks by lia.
      by rewrite Hband. }
  intros Hle.
  exists (halos_of width height channels size input <$> seqZ 0 size).
  split.
  { apply halo_exchange_bands; try done; try lia.
    intros k _. by apply local_height_of_pos. }
  split; [by rewrite length_fmap, length_seqZ|].
  intros rank halo_top halo_bottom Hr Hlook.
  rewrite lookup_ranks in Hlook by done. injection Hlook as <- <-.
  assert (∀ k, 0 ≤ k < size →
            0 ≤ row_offset_of height size k ∧
            1 ≤ local_height_of height size k ∧
            row_offset_of height size k + local_height_of height size k
              ≤ height) as Hrows.
  { intros k Hk.
    assert (1 ≤ local_height_of height size k)
      by (apply local_height_of_pos; lia).
    assert (0 ≤ row_offset_of height size k ∧
            0 ≤ local_height_of height size k ∧
            row_offset_of height size k + local_height_of height size k
              ≤ height)
      by (apply (rank_rows width height channels size input); done || lia).
    lia. }
  destruct (Hrows rank Hr) as (Ho & Hl & Hlim).
  split; [|split; [|split]].
  - destruct (Z.ltb_spec 0 rank).
    + destruct (Hrows (rank - 1) ltac:(lia)) as (? & ? & ?).
      assert (row_offset_of height size rank =
              row_offset_of height size (rank - 1) +
              local_height_of height size (rank - 1)) as Hro.
      { replace rank with ((rank - 1) + 1) at 1 by lia.
        apply row_offset_of_succ. lia. }
      apply (length_row width height channels size input); done || lia.
    + rewrite length_replicate. unfold row_size. nia.
  - destruct (Z.ltb_spec rank (size - 1)).
    + destruct (Hrows (rank + 1) ltac:(lia)) as (? & ? & ?).
      pose proof (row_offset_of_succ height size rank ltac:(lia)).
      apply (length_row width height channels size input); done || lia.
    + rewrite length_replicate. unfold row_size. nia.
  - intros Hpos. eexists. split; [apply lookup_ranks; lia|].
    destruct (Z.ltb_spec 0 rank); [|lia].
    destruct (Hrows (rank - 1) ltac:(lia)) as (? & ? & ?).
    assert (row_offset_of height size rank =
            row_offset_of height size (rank - 1) +
            local_height_of height size (rank - 1)) as Hro.
    { replace rank with ((rank - 1) + 1) at 1 by lia.
      apply row_offset_of_succ. lia. }
    unfold band_of, row_size.
    rewrite (band_rows_row width height channels size input)
      by (done || lia).
    f_equal. lia.
  - intros Hlast. eexists. split; [apply lookup_ranks; lia|].
    destruct (Z.ltb_spec rank (size - 1)); [|lia].
    destruct (Hrows (rank + 1) ltac:(lia)) as (? & ? & ?).
    pose proof (row_offset_of_succ height size rank ltac:(lia)) as Hro.
    unfold band_of, row_size.
    pose proof (band_rows_row width height channels size input
                  Hw (Z.lt_le_incl _ _ Hh) Hc Hs Hlen
                  (row_offset_of height size (rank + 1))
                  (local_height_of height size (rank + 1)) 0) as Hrow.
    rewrite Z.mul_0_l in Hrow. rewrite Hrow by (done || lia).
    f_equal. lia.
Qed.

(** Three workers on two rows: the exchange reads outside the band of
    rank 2. *)
Lemma halo_exchange_rows_witness :
  halo_exchange 2 3 (3 * 1)
    (band_of 3 2 1 3 [10; 20; 30; 40; 50; 60] <$> seqZ 0 3) =
  Fault OutOfBounds.
Proof.
  apply (halo_exchange_rows 3 2 1 3 [10; 20; 30; 40; 50; 60]);
    [lia..|done|lia].
Defined.

(** ** Which buffers a pass reads and writes *)

Lemma stencil_mem_stable local_data temp halo_top halo_bottom :
  length local_data = length temp →
  stable LocalData (stencil_mem [] temp halo_top halo_bottom) temp
    (stencil_mem local_data temp halo_top halo_bottom).
Proof. intros Hlen. split; [done|]. by intros []. Qed.

Lemma grayscale_spec_alpha width channels input i j c :
  0 ≤ j < width → 3 ≤ c < channels →
  grayscale_spec channels input (offset width channels i j c) =
  byte input (offset width channels i j c).
Proof.
  intros Hj Hc.
  rewrite (grayscale_spec_at width channels input i j c) by (lia || done).
  by destruct (Z.ltb_spec c 3); [lia|].
Qed.

(** C9 (buffers), as amended.  In the shared-memory program every filter,
    whatever the output image holds before the pass, leaves the input image
    byte-identical, writes in the bytes of its footprint values computed from
    the input image alone and leaves the other bytes of the output image as
    they were.  In the distributed program the row loops of the stencil
    filters, whatever the band holds, leave the scratch copy [temp] and the
    two halo rows byte-identical, write in the recomputed bytes of the band
    values computed from [temp] and the halo rows alone and leave the other
    bytes of the band as they were; the pointwise filters update the band
    in place, and every byte they leave is computed from the band as it was
    before the pass. *)
Theorem filter_buffers (width height channels rank size : Z)
    (input output halo_top halo_bottom : list Z) :
  0 < width → 0 ≤ height → 0 < channels →
  Z.of_nat (length input) = width * height * channels →
  Z.of_nat (length output) = width * height * channels →
  Z.of_nat (length halo_top) = width * channels →
  Z.of_nat (length halo_bottom) = width * channels →
  (∀ filter, ∃ m',
     omp_filter filter width height channels (omp_mem input output) =
       Ok (tt, m') ∧
     m' Input = input ∧
     length (m' Output) = length output ∧
     (∀ idx, omp_written filter width height channels idx →
        get (m' Output) idx =
        Some (omp_spec filter width height channels input idx)) ∧
     (∀ idx, ¬ omp_written filter width height channels idx →
        get (m' Output) idx = get output idx)) ∧
  (∃ m',
     blur_rows_mpi height width channels rank size
       (stencil_mem output input halo_top halo_bottom) = Ok (tt, m') ∧
     m' Temp = input ∧ m' HaloTop = halo_top ∧ m' HaloBottom = halo_bottom ∧
     length (m' LocalData) = length output ∧
     (∀ idx, stencil_fp height width channels rank size idx →
        get (m' LocalData) idx =
        Some (blur_band_spec height width channels rank size input halo_top
                halo_bottom idx)) ∧
     (∀ idx, ¬ stencil_fp height width channels rank size idx →
        get (m' LocalData) idx = get output idx)) ∧
  (∃ m',
     sobel_rows_mpi height width channels rank size
       (stencil_mem output input halo_top halo_bottom) = Ok (tt, m') ∧
     m' Temp = input ∧ m' HaloTop = halo_top ∧ m' HaloBottom = halo_bottom ∧
     length (m' LocalData) = length output ∧
     (∀ idx, stencil_fp height width channels rank size idx →
        get (m' LocalData) idx =
        Some (sobel_band_spec height width channels rank size input halo_top
                halo_bottom idx)) ∧
     (∀ idx, ¬ stencil_fp height width channels rank size idx →
        get (m' LocalData) idx = get output idx)) ∧
  (∃ local_data,
     run_band (grayscale_filter_mpi height width channels)
       (mpi_mem input [] []) = Ok local_data ∧
     ∀ idx, 0 ≤ idx < width * height * channels →
       get local_data idx = Some (grayscale_spec channels input idx)) ∧
  (∃ local_data,
     run_band (brightness_filter_mpi height width channels 50)
       (mpi_mem input [] []) = Ok local_data ∧
     ∀ idx, 0 ≤ idx < width * height * channels →
       get local_data idx = Some (brighten_spec input 50 idx)).
Proof.
  intros Hw Hh Hc Hlen Hout Htop Hbottom.
  assert (length output = length input) as Hsame by lia.
  split; [|split; [|split; [|split]]].
  - intros filter.
    assert (fills Output (omp_mem input []) output
              (omp_written filter width height channels)
              (omp_spec filter width height channels input)
              (omp_filter filter width height channels)) as Hfills.
    { destruct filter; unfold omp_written, omp_spec, omp_filter.
      - by apply grayscale_filter_fills.
      - by apply gaussian_blur_filter_fills.
      - by apply sobel_edge_filter_fills.
      - by apply brightness_filter_fills. }
    destruct (fills_run _ _ _ _ _ _ _ Hfills
                (omp_mem_stable input output output eq_refl))
      as (m' & Hrun & [Hlen' Hctx] & Hin & Hno).
    exists m'. split; [done|]. split; [by apply (Hctx Input)|].
    by split.
  - edestruct (fills_run LocalData (stencil_mem [] input halo_top halo_bottom)
                 input)
      as (m' & Hrun & [Hlen' Hctx] & Hin & Hno);
      [|apply (stencil_mem_stable output input halo_top halo_bottom Hsame)|].
    { apply (blur_rows_mpi_fills height width channels rank size);
        done || lia. }
    exists m'. split; [done|].
    rewrite (Hctx Temp), (Hctx HaloTop), (Hctx HaloBottom) by done.
    split; [done|]. split; [done|]. split; [done|].
    split; [by rewrite Hlen'|]. by split.
  - edestruct (fills_run LocalData (stencil_mem [] input halo_top halo_bottom)
                 input)
      as (m' & Hrun & [Hlen' Hctx] & Hin & Hno);
      [|apply (stencil_mem_stable output input halo_top halo_bottom Hsame)|].
    { apply (sobel_rows_mpi_fills height width channels rank size);
        done || lia. }
    exists m'. split; [done|].
    rewrite (Hctx Temp), (Hctx HaloTop), (Hctx HaloBottom) by done.
    split; [done|]. split; [done|]. split; [done|].
    split; [by rewrite Hlen'|]. by split.
  - edestruct (writes_run LocalData (mpi_mem [] [] []) input)
      as (m' & Hrun & [Hlen' _] & Hin & Hno);
      [|apply (mpi_mem_stable input [] [])|reflexivity|].
    { apply (grayscale_filter_mpi_writes height width channels);
        [done..|lia]. }
    exists (m' LocalData). unfold run_band. rewrite Hrun. split; [done|].
    intros idx Hidx.
    destruct (offset_cover width channels Hw Hc height idx Hidx)
      as (Heq & Hi & Hj & Hcc).
    set (i := row_of width channels idx) in *.
    set (j := col_of width channels idx) in *.
    set (c := chan_of channels idx) in *.
    destruct (decide (c < 3)) as [Hc3|Hc3].
    + apply Hin. exists i. split; [done|]. exists j. split; [done|].
      exists c. split; [lia|done].
    + rewrite Hno.
      * rewrite Heq, grayscale_spec_alpha by lia.
        apply get_byte. rewrite Hlen, <- Heq. lia.
      * intros (i' & Hi' & j' & Hj' & c' & Hc' & Heq').
        rewrite Heq in Heq'. apply offset_inj in Heq'; lia.
  - edestruct (writes_run LocalData (mpi_mem [] [] []) input)
      as (m' & Hrun & [Hlen' _] & Hin & Hno);
      [|apply (mpi_mem_stable input [] [])|reflexivity|].
    { apply (brightness_filter_mpi_writes height width channels). lia. }
    exists (m' LocalData). unfold run_band. rewrite Hrun. split; [done|].
    intros idx Hidx. apply Hin. lia.
Qed.

(** The blur row loop on a band of zeros whose scratch copy and halo rows
    hold other bytes. *)
Lemma filter_buffers_witness :
  ∃ m',
    blur_rows_mpi 3 3 1 1 3
      (stencil_mem (replicate 9 0) [1; 2; 3; 4; 5; 6; 7; 8; 9] [10; 20; 30]
         [40; 50; 60]) = Ok (tt, m') ∧
    m' Temp = [1; 2; 3; 4; 5; 6; 7; 8; 9] ∧
    m' HaloTop = [10; 20; 30] ∧ m' HaloBottom = [40; 50; 60] ∧
    length (m' LocalData) = length (replicate 9 0) ∧
    (∀ idx, stencil_fp 3 3 1 1 3 idx →
       get (m' LocalData) idx =
       Some (blur_band_spec 3 3 1 1 3 [1; 2; 3; 4; 5; 6; 7; 8; 9]
               [10; 20; 30] [40; 50; 60] idx)) ∧
    (∀ idx, ¬ stencil_fp 3 3 1 1 3 idx →
       get (m' LocalData) idx = get (replicate 9 0) idx).
Proof.
  apply (filter_buffers 3 3 1 1 3 [1; 2; 3; 4; 5; 6; 7; 8; 9]
           (replicate 9 0) [10; 20; 30] [40; 50; 60]);
    [lia..|done|done|done|done].
Defined.

(** C9 as stated fails for the pointwise filters of the distributed
    program: the grayscale pass on a one-pixel band reads the band and
    leaves its results in the band itself; the rank has no other buffer. *)
Lemma in_place_counterexample :
  ∃ m',
    grayscale_filter_mpi 1 1 3 (mpi_mem [10; 200; 30] [] []) = Ok (tt, m') ∧
    m' LocalData = [123; 123; 123] ∧
    m' LocalData ≠ [10; 200; 30] ∧
    m' Temp = [] ∧ m' HaloTop = [] ∧ m' HaloBottom = [].
Proof.
  eexists. split; [vm_compute; reflexivity|]. by repeat split.
Qed.

(** ** Where the programs part from the specification *)

(** More workers than rows: the halo exchange of the stencil filters reads
    outside the empty band of the first rank that has no row, for every
    image. *)
Lemma stencil_pass_beyond_height width height channels size input filter :
  0 < width → 0 < channels → 0 < height < size →
  Z.of_nat (length input) = width * height * channels →
  filter = Blur ∨ filter = Edge →
  mpi_main size filter {| data := input; width := width; height := height;
                          channels := channels |} = Fault OutOfBounds.
Proof.
  intros Hw Hc Hh Hlen Hfilter. unfold mpi_main. simpl.
  pose proof (scatter_bands width height channels size input
                Hw ltac:(lia) Hc ltac:(lia) Hlen) as Hscatter.
  destruct (layout height size width channels) as [sendcounts displs].
  simpl in Hscatter. rewrite Hscatter. simpl.
  destruct Hfilter as [-> | ->]; simpl;
    by rewrite halo_exchange_fault by (done || lia).
Qed.

(** ** The filter step on one rank *)

Lemma get_buffer_of n f i : 0 ≤ i < n → get (buffer_of n f) i = Some (f i).
Proof.
  intros Hi. unfold get, buffer_of. destruct (Z.leb_spec 0 i); [|lia].
  rewrite list_lookup_fmap, lookup_seqZ_lt by lia. simpl. do 2 f_equal. lia.
Qed.

Lemma length_buffer_of n f : length (buffer_of n f) = Z.to_nat n.
Proof. unfold buffer_of. by rewrite length_fmap, length_seqZ. Qed.

Lemma buffer_of_eq l n f :
  Z.of_nat (length l) = n → (∀ i, 0 ≤ i < n → get l i = Some (f i)) →
  l = buffer_of n f.
Proof.
  intros Hlen Hget. apply get_ext_len.
  - rewrite length_buffer_of. lia.
  - intros i Hi. rewrite Hget, get_buffer_of by lia. done.
Qed.

Lemma buffer_of_ext n f g :
  (∀ i, 0 ≤ i < n → f i = g i) → buffer_of n f = buffer_of n g.
Proof.
  intros Hext. unfold buffer_of. apply list_eq. intros k.
  rewrite !list_lookup_fmap. destruct (seqZ 0 n !! k) as [i|] eqn:E; [|done].
  apply lookup_seqZ in E. simpl. f_equal. apply Hext. lia.
Qed.

Section BandRun.
Variables (local_height width channels : Z) (band : list Z).
Hypothesis width_pos : 0 < width.
Hypothesis height_nonneg : 0 ≤ local_height.
Hypothesis channels_pos : 0 < channels.
Hypothesis band_len :
  Z.of_nat (length band) = local_height * width * channels.

Local Abbreviation n := (local_height * width * channels).

Lemma band_cover idx :
  0 ≤ idx < n →
  idx = offset width channels (row_of width channels idx)
          (col_of width channels idx) (chan_of channels idx) ∧
  0 ≤ row_of width channels idx < local_height ∧
  0 ≤ col_of width channels idx < width ∧
  0 ≤ chan_of channels idx < channels.
Proof using All.
  intros Hidx. apply offset_cover; [done|done|lia].
Qed.

Lemma grayscale_band_run :
  run_band (grayscale_filter_mpi local_height width channels)
    (mpi_mem band [] []) = Ok (buffer_of n (grayscale_spec channels band)).
Proof using All.
  edestruct (writes_run LocalData (mpi_mem [] [] []) band)
    as (m' & Hrun & [Hlen' _] & Hin & Hno);
    [|apply (mpi_mem_stable band [] [])|reflexivity|].
  { by apply (grayscale_filter_mpi_writes local_height width channels). }
  unfold run_band. rewrite Hrun. f_equal.
  apply buffer_of_eq; [lia|]. intros idx Hidx.
  destruct (band_cover idx Hidx) as (Heq & Hi & Hj & Hcc).
  set (i := row_of width channels idx) in *.
  set (j := col_of width channels idx) in *.
  set (c := chan_of channels idx) in *.
  destruct (decide (c < 3)) as [Hc3|Hc3].
  - apply Hin. exists i. split; [done|]. exists j. split; [done|].
    exists c. split; [lia|done].
  - rewrite Hno.
    + rewrite Heq, grayscale_spec_alpha by lia.
      apply get_byte. rewrite <- Heq. lia.
    + intros (i' & Hi' & j' & Hj' & c' & Hc' & Heq').
      rewrite Heq in Heq'. apply offset_inj in Heq'; lia.
Qed.

Lemma brightness_band_run :
  run_band (brightness_filter_mpi local_height width channels 50)
    (mpi_mem band [] []) = Ok (buffer_of n (brighten_spec band 50)).
Proof using All.
  edestruct (writes_run LocalData (mpi_mem [] [] []) band)
    as (m' & Hrun & [Hlen' _] & Hin & Hno);
    [|apply (mpi_mem_stable band [] [])|reflexivity|].
  { by apply (brightness_filter_mpi_writes local_height width channels). }
  unfold run_band. rewrite Hrun. f_equal.
  apply buffer_of_eq; [lia|]. intros idx Hidx. by apply Hin.
Qed.

Variables (rank size : Z) (halo_top halo_bottom : list Z).
Hypothesis top_len : Z.of_nat (length halo_top) = width * channels.
Hypothesis bottom_len : Z.of_nat (length halo_bottom) = width * channels.

(** [temp = malloc(n); memcpy(temp, local_data, n)] leaves a copy of the
    band in [temp]. *)
Lemma stencil_prologue (k : M mpi_buf unit) :
  ∃ m, (malloc Temp n ;; memcpy Temp LocalData n ;; k)
         (mpi_mem band halo_top halo_bottom) = k m ∧
       m LocalData = band ∧
       stable LocalData (stencil_mem [] band halo_top halo_bottom) band m.
Proof using All.
  eexists. split; [|split].
  - unfold bind at 1. unfold malloc. unfold bind at 1. unfold memcpy.
    rewrite fn_lookup_insert, fn_lookup_insert_ne by done.
    cbn [mpi_mem]. rewrite read_range_Ok by lia.
    rewrite slice_all by done.
    rewrite write_range_all; [reflexivity|].
    rewrite length_replicate. lia.
  - by rewrite fn_lookup_insert_ne.
  - split; [by rewrite fn_lookup_insert_ne|].
    intros [] Hb; try done;
      by rewrite ?fn_lookup_insert, ?fn_lookup_insert_ne by done.
Qed.

Lemma stencil_band_run (rows : M mpi_buf unit) G :
  fills LocalData (stencil_mem [] band halo_top halo_bottom) band
    (stencil_fp local_height width channels rank size) G rows →
  (∀ idx, 0 ≤ idx < n →
     recomputed local_height width rank size (row_of width channels idx)
       (col_of width channels idx) = false →
     G idx = byte band idx) →
  run_band (malloc Temp n ;; memcpy Temp LocalData n ;; rows ;; free Temp)
    (mpi_mem band halo_top halo_bottom) = Ok (buffer_of n G).
Proof using All.
  intros Hfills Hkeep. unfold run_band.
  destruct (stencil_prologue (rows ;; free Temp)) as (m & -> & Hband & Hst).
  destruct (fills_run _ _ _ _ _ _ _ Hfills Hst)
    as (m' & Hrun & [Hlen' _] & Hin & Hout).
  unfold bind. rewrite Hrun. unfold free.
  rewrite fn_lookup_insert_ne by done. f_equal.
  apply buffer_of_eq; [lia|]. intros idx Hidx.
  destruct (band_cover idx Hidx) as (Heq & Hi & Hj & Hcc).
  destruct (recomputed local_height width rank size
              (row_of width channels idx) (col_of width channels idx))
    eqn:Hre.
  - apply Hin. unfold recomputed in Hre.
    rewrite !andb_true_iff, negb_true_iff, Z.leb_le, Z.ltb_lt in Hre.
    destruct Hre as [[Hskip ?] ?].
    exists (row_of width channels idx). split; [done|]. split; [done|].
    exists (col_of width channels idx). split; [lia|].
    exists (chan_of channels idx). by split.
  - rewrite Hout, Hband.
    + rewrite Hkeep by done. apply get_byte. lia.
    + intros (i & Hi' & Hskip & j & Hj' & c & Hc' & Heq').
      rewrite Heq' in Hre.
      rewrite row_of_offset, col_of_offset in Hre by lia.
      apply not_true_iff_false in Hre. apply Hre.
      apply andb_true_iff. split; [|lia].
      apply andb_true_iff. split; [by rewrite Hskip|lia].
Qed.

Lemma blur_band_run :
  run_band (gaussian_blur_filter_mpi local_height width channels rank size)
    (mpi_mem band halo_top halo_bottom) =
  Ok (buffer_of n (blur_band_spec local_height width channels rank size
                     band halo_top halo_bottom)).
Proof using All.
  apply stencil_band_run.
  - by apply blur_rows_mpi_fills.
  - intros idx Hidx Hre. unfold blur_band_spec. by rewrite Hre.
Qed.

Lemma sobel_band_run :
  run_band (sobel_edge_filter_mpi local_height width channels rank size)
    (mpi_mem band halo_top halo_bottom) =
  Ok (buffer_of n (sobel_band_spec local_height width channels rank size
                     band halo_top halo_bottom)).
Proof using All.
  apply stencil_band_run.
  - by apply sobel_rows_mpi_fills.
  - intros idx Hidx Hre. unfold sobel_band_spec. by rewrite Hre.
Qed.

End BandRun.

(** ** A band and its halo rows against the whole image *)

Lemma byte_slice l off len i :
  0 ≤ off → 0 ≤ i < len → byte (slice l off len) i = byte l (off + i).
Proof. intros Hoff Hi. unfold byte. by rewrite get_slice. Qed.

Lemma edge_value_mpi_ext rd rd' :
  (∀ di dj, -1 ≤ di < 2 → -1 ≤ dj < 2 → rd di dj = rd' di dj) →
  edge_value_mpi rd = edge_value_mpi rd'.
Proof.
  intros Hext. unfold edge_value_mpi. by rewrite (sobel_sums_ext rd rd').
Qed.

Section Whole.
Variables (width height channels size : Z) (input : list Z).
Hypothesis width_pos : 0 < width.
Hypothesis height_pos : 0 < height.
Hypothesis channels_pos : 0 < channels.
Hypothesis size_pos : 1 ≤ size.
Hypothesis input_len : Z.of_nat (length input) = width * height * channels.

Local Abbreviation lh := (local_height_of height size).
Local Abbreviation ro := (row_offset_of height size).
Local Abbreviation band := (band_of width height channels size input).
Local Abbreviation halos := (halos_of width height channels size input).
Local Abbreviation off := (offset width channels).

Lemma rank_rows' rank :
  0 ≤ rank < size → 0 ≤ ro rank ∧ 0 ≤ lh rank ∧ ro rank + lh rank ≤ height.
Proof using All.
  intros Hr. apply (rank_rows width height channels size input); done || lia.
Qed.

Lemma offset_shift r i j c :
  r * width * channels + off i j c = off (r + i) j c.
Proof using All. unfold offset. lia. Qed.

Lemma byte_band rank idx :
  0 ≤ rank < size → 0 ≤ idx < lh rank * width * channels →
  byte (band rank) idx = byte input (ro rank * width * channels + idx).
Proof using All.
  intros Hr Hidx. destruct (rank_rows' rank Hr) as (Ho & _ & _).
  unfold band_of, band_rows. apply byte_slice; [nia|done].
Qed.

Lemma byte_band_at rank i j c :
  0 ≤ rank < size → 0 ≤ i < lh rank → 0 ≤ j < width → 0 ≤ c < channels →
  byte (band rank) (off i j c) = byte input (off (ro rank + i) j c).
Proof using All.
  intros Hr Hi Hj Hc. rewrite byte_band, offset_shift; [done..|].
  assert (0 ≤ off i j c < width * lh rank * channels)
    by (by apply offset_bounds).
  lia.
Qed.

Lemma byte_row r k :
  0 ≤ r → 0 ≤ k < width * channels →
  byte (image_row width channels input r) k =
  byte input (r * width * channels + k).
Proof using All.
  intros Hr Hk. unfold image_row, band_rows. apply byte_slice; [nia|lia].
Qed.

Lemma grayscale_band_image rank idx :
  0 ≤ rank < size → 0 ≤ idx < lh rank * width * channels →
  grayscale_spec channels (band rank) idx =
  grayscale_spec channels input (ro rank * width * channels + idx).
Proof using All.
  intros Hr Hidx. destruct (rank_rows' rank Hr) as (Ho & Hl & _).
  destruct (offset_cover width channels width_pos channels_pos (lh rank)
              idx ltac:(lia)) as (Heq & Hi & Hj & Hc).
  set (i := row_of width channels idx) in *.
  set (j := col_of width channels idx) in *.
  set (c := chan_of channels idx) in *.
  rewrite Heq, offset_shift.
  rewrite (grayscale_spec_at width channels _ i j c) by done.
  rewrite (grayscale_spec_at width channels _ (ro rank + i) j c) by done.
  rewrite byte_band_at by done.
  destruct (c <? 3); [|done].
  unfold gray_pixel.
  assert (∀ k, 0 ≤ k < channels →
            byte (band rank) ((i * width + j) * channels + k) =
            byte input (((ro rank + i) * width + j) * channels + k)) as Hk.
  { intros k Hk. apply (byte_band_at rank i j k); done. }
  pose proof (Hk 0 ltac:(lia)) as H0. rewrite !Z.add_0_r in H0. rewrite H0.
  destruct (Z.ltb_spec 1 channels), (Z.ltb_spec 2 channels);
    rewrite ?Hk by lia; done.
Qed.

Lemma brighten_band_image rank idx :
  0 ≤ rank < size → 0 ≤ idx < lh rank * width * channels →
  brighten_spec (band rank) 50 idx =
  brighten_spec input 50 (ro rank * width * channels + idx).
Proof using All.
  intros Hr Hidx. unfold brighten_spec. by rewrite byte_band.
Qed.

(** From here on every band has a row. *)
Hypothesis size_le : size ≤ height.

Lemma row_offset_of_span rank :
  0 ≤ rank < size →
  rank ≤ ro rank ∧ ro rank + lh rank + (size - 1 - rank) ≤ height.
Proof using All.
  intros Hr. rewrite <- row_offset_of_succ by lia.
  rewrite !row_offset_of_closed by lia.
  pose proof (Z.mod_pos_bound height size ltac:(lia)).
  pose proof (Z.div_mod height size ltac:(lia)).
  assert (1 ≤ height / size) by (apply Z.div_le_lower_bound; lia).
  split; [nia|]. nia.
Qed.

Lemma row_offset_of_last :
  ro (size - 1) + lh (size - 1) = height.
Proof using All.
  rewrite <- row_offset_of_succ by lia.
  replace (size - 1 + 1) with size by lia.
  apply row_offset_of_size; lia.
Qed.

(** The pixels a rank recomputes are the interior pixels of the image that
    lie in its band. *)
Lemma recomputed_interior rank i j :
  0 ≤ rank < size → 0 ≤ i < lh rank →
  recomputed (lh rank) width rank size i j =
  interior width height (ro rank + i) j.
Proof using All.
  intros Hr Hi. destruct (row_offset_of_span rank Hr) as [Hlo Hhi].
  assert (rank = 0 → ro rank = 0) as H0 by (by intros ->).
  assert (rank = size - 1 → ro rank + lh rank = height) as Hlast
    by (intros ->; apply row_offset_of_last).
  unfold recomputed, interior, skip_row.
  destruct (Z.eqb_spec rank 0);
    destruct (Z.eqb_spec rank (size - 1));
    destruct (Z.eqb_spec i 0);
    destruct (Z.eqb_spec i (lh rank - 1));
    destruct (Z.leb_spec 1 (ro rank + i));
    destruct (Z.ltb_spec (ro rank + i) (height - 1));
    simpl; try reflexivity; try lia.
Qed.

Lemma band_read_image rank i j c di dj :
  0 ≤ rank < size → 0 ≤ i < lh rank →
  1 ≤ ro rank + i < height - 1 → 1 ≤ j < width - 1 → 0 ≤ c < channels →
  -1 ≤ di < 2 → -1 ≤ dj < 2 →
  band_read (lh rank) width channels (band rank) (halos rank).1
    (halos rank).2 (i + di) (j + dj) c =
  byte input (off (ro rank + i + di) (j + dj) c).
Proof using All.
  intros Hr Hi Hgi Hj Hc Hdi Hdj.
  destruct (rank_rows' rank Hr) as (Ho & Hl & Hle).
  destruct (row_offset_of_span rank Hr) as [Hlo Hhi].
  assert (rank = 0 → ro rank = 0) as H0 by (by intros ->).
  assert (rank = size - 1 → ro rank + lh rank = height) as Hlast
    by (intros ->; apply row_offset_of_last).
  unfold band_read, halos_of. cbn [fst snd].
  destruct (Z.ltb_spec (i + di) 0); [|destruct (Z.leb_spec (lh rank) (i + di))].
  - destruct (Z.ltb_spec 0 rank); [|lia].
    rewrite byte_row by nia. f_equal. unfold offset.
    replace (ro rank + i + di) with (ro rank - 1) by lia. lia.
  - destruct (Z.ltb_spec rank (size - 1)).
    + rewrite byte_row by nia. f_equal. unfold offset.
      replace (ro rank + i + di) with (ro rank + lh rank) by lia. lia.
    + assert (rank = size - 1) as Hrank by lia. lia.
  - rewrite <- Z.add_assoc. apply byte_band_at; lia.
Qed.

Lemma blur_band_image rank idx :
  0 ≤ rank < size → 0 ≤ idx < lh rank * width * channels →
  blur_band_spec (lh rank) width channels rank size (band rank)
    (halos rank).1 (halos rank).2 idx =
  blur_spec width height channels input (ro rank * width * channels + idx).
Proof using All.
  intros Hr Hidx. destruct (rank_rows' rank Hr) as (Ho & Hl & Hle).
  destruct (offset_cover width channels width_pos channels_pos (lh rank)
              idx ltac:(lia)) as (Heq & Hi & Hj & Hc).
  unfold blur_band_spec, blur_spec.
  set (i := row_of width channels idx) in *.
  set (j := col_of width channels idx) in *.
  set (c := chan_of channels idx) in *.
  assert (ro rank * width * channels + idx = off (ro rank + i) j c) as ->
    by (rewrite Heq at 1; apply offset_shift).
  rewrite row_of_offset, col_of_offset, chan_of_offset by done.
  rewrite recomputed_interior by done.
  destruct (interior width height (ro rank + i) j) eqn:Hint.
  - unfold interior in Hint.
    rewrite !andb_true_iff, !Z.leb_le, !Z.ltb_lt in Hint.
    apply blur_value_ext. intros di dj Hdi Hdj.
    rewrite band_read_image by lia. done.
  - rewrite Heq. by apply byte_band_at.
Qed.

Lemma sobel_band_image rank idx :
  0 ≤ rank < size → 0 ≤ idx < lh rank * width * channels →
  sobel_band_spec (lh rank) width channels rank size (band rank)
    (halos rank).1 (halos rank).2 idx =
  edge_image_spec width height channels input
    (ro rank * width * channels + idx).
Proof using All.
  intros Hr Hidx. destruct (rank_rows' rank Hr) as (Ho & Hl & Hle).
  destruct (offset_cover width channels width_pos channels_pos (lh rank)
              idx ltac:(lia)) as (Heq & Hi & Hj & Hc).
  unfold sobel_band_spec, edge_image_spec.
  set (i := row_of width channels idx) in *.
  set (j := col_of width channels idx) in *.
  set (c := chan_of channels idx) in *.
  assert (ro rank * width * channels + idx = off (ro rank + i) j c) as ->
    by (rewrite Heq at 1; apply offset_shift).
  rewrite row_of_offset, col_of_offset by done.
  rewrite recomputed_interior by done.
  destruct (interior width height (ro rank + i) j) eqn:Hint.
  - unfold interior in Hint.
    rewrite !andb_true_iff, !Z.leb_le, !Z.ltb_lt in Hint.
    apply edge_value_mpi_ext. intros di dj Hdi Hdj.
    rewrite band_read_image by lia. done.
  - rewrite Heq. by apply byte_band_at.
Qed.

End Whole.

(** ** Gather *)

Lemma write_range_Ok l off src :
  0 ≤ off → off + Z.of_nat (length src) ≤ Z.of_nat (length l) →
  ∃ l', write_range l off src = Ok l' ∧ length l' = length l ∧
    (∀ i, off ≤ i < off + Z.of_nat (length src) →
       get l' i = get src (i - off)) ∧
    (∀ i, ¬ (off ≤ i < off + Z.of_nat (length src)) → get l' i = get l i).
Proof.
  intros Hoff Hle. unfold write_range.
  destruct (Z.leb_spec 0 off); [|lia].
  destruct (Z.leb_spec (off + Z.of_nat (length src)) (Z.of_nat (length l)));
    [|lia].
  eexists. split; [reflexivity|].
  assert (length (take (Z.to_nat off) l) = Z.to_nat off) as Htake
    by (rewrite length_take; lia).
  split; [|split].
  - rewrite !length_app, Htake, length_drop. lia.
  - intros i Hi. unfold get.
    destruct (Z.leb_spec 0 i); [|lia].
    destruct (Z.leb_spec 0 (i - off)); [|lia].
    rewrite lookup_app_r by lia. rewrite Htake.
    rewrite lookup_app_l by lia. f_equal. lia.
  - intros i Hi. unfold get. destruct (Z.leb_spec 0 i); [|done].
    destruct (decide (i < off)).
    + rewrite lookup_app_l by lia. apply lookup_take_lt. lia.
    + rewrite lookup_app_r by lia. rewrite Htake.
      rewrite lookup_app_r by lia. rewrite lookup_drop. f_equal. lia.
Qed.

Lemma zip_fmap_both {A R S} (g : A → R) (h : A → S) (l : list A) :
  zip (g <$> l) (h <$> l) = (fun a => (g a, h a)) <$> l.
Proof. induction l as [|a l IH]; [done|]. simpl. by f_equal. Qed.

Section Gather.
Variables (width height channels size : Z) (full0 : list Z) (F : Z → Z).
Hypothesis width_pos : 0 < width.
Hypothesis height_pos : 0 < height.
Hypothesis channels_pos : 0 < channels.
Hypothesis size_pos : 1 ≤ size.
Hypothesis full0_len : Z.of_nat (length full0) = width * height * channels.

Local Abbreviation lh := (local_height_of height size).
Local Abbreviation ro := (row_offset_of height size).
Local Abbreviation n rank := (lh rank * width * channels).
Local Abbreviation base rank := (ro rank * width * channels).

(** What rank [rank] sends back: the image bytes of its rows. *)
Local Abbreviation out rank :=
  (buffer_of (n rank) (fun idx => F (base rank + idx))).

Lemma gather_rows rank :
  0 ≤ rank < size →
  0 ≤ base rank ∧ 0 ≤ n rank ∧
  base rank + n rank = base (rank + 1) ∧
  base (rank + 1) ≤ width * height * channels.
Proof using All.
  intros Hr.
  assert (0 ≤ ro rank) by (apply row_offset_of_nonneg; lia).
  assert (0 ≤ lh rank) by (apply local_height_of_nonneg; lia).
  assert (ro (rank + 1) = ro rank + lh rank) as Hsucc
    by (apply row_offset_of_succ; lia).
  assert (ro rank + lh rank ≤ height)
    by (destruct (row_offset_of_le height size ltac:(lia) size_pos rank);
        lia).
  rewrite Hsucc.
  assert (0 < width * channels) as Hp by nia.
  rewrite <- !Z.mul_assoc.
  replace (width * (height * channels)) with (height * (width * channels))
    by ring.
  set (p := width * channels) in *. nia.
Qed.

Lemma gatherv_one_out full rank :
  0 ≤ rank < size →
  Z.of_nat (length full) = width * height * channels →
  (∀ idx, 0 ≤ idx < base rank → get full idx = Some (F idx)) →
  ∃ full',
    gatherv_one (layout height size width channels).1
      (layout height size width channels).2 full rank (out rank) (n rank) =
      Ok full' ∧
    Z.of_nat (length full') = width * height * channels ∧
    ∀ idx, 0 ≤ idx < base (rank + 1) → get full' idx = Some (F idx).
Proof using All.
  intros Hr Hlen Hpre.
  destruct (gather_rows rank Hr) as (Hb & Hn & Hsucc & Hle).
  destruct (layout height size width channels) as [sc dp] eqn:E.
  apply layout_spec in E as (_ & _ & Hall); [|lia..].
  destruct (Hall rank Hr) as [Hsc Hdp].
  assert (Z.of_nat (length (out rank)) = n rank) as Hout
    by (rewrite length_buffer_of; lia).
  destruct (write_range_Ok full (base rank) (out rank))
    as (full' & Hw & Hlen' & Hin & Hkeep); [lia..|].
  exists full'. unfold gatherv_one, entry. simpl. rewrite Hsc, Hdp. simpl.
  rewrite read_range_Ok by lia. simpl.
  rewrite slice_all by done.
  destruct (Z.leb_spec (n rank) (n rank)); [|lia].
  split; [done|]. split; [lia|].
  intros idx Hidx. destruct (decide (idx < base rank)).
  - rewrite Hkeep by lia. apply Hpre. lia.
  - rewrite Hin by lia. rewrite get_buffer_of by lia. f_equal. f_equal. lia.
Qed.

Lemma gatherv_out cnt : ∀ lo full,
  0 ≤ lo → lo + Z.of_nat cnt ≤ size →
  Z.of_nat (length full) = width * height * channels →
  (∀ idx, 0 ≤ idx < base lo → get full idx = Some (F idx)) →
  ∃ full',
    gatherv (layout height size width channels).1
      (layout height size width channels).2 full
      ((fun rank => (rank, out rank, n rank)) <$> seqZ lo (Z.of_nat cnt)) =
      Ok full' ∧
    Z.of_nat (length full') = width * height * channels ∧
    ∀ idx, 0 ≤ idx < base (lo + Z.of_nat cnt) → get full' idx = Some (F idx).
Proof using All.
  induction cnt as [|cnt IH]; intros lo full Hlo Hhi Hlen Hpre.
  - exists full. simpl. split; [done|]. split; [done|].
    intros idx Hidx. apply Hpre. by rewrite Z.add_0_r in Hidx.
  - rewrite seqZ_cons by lia. rewrite fmap_cons. cbn [gatherv].
    destruct (gatherv_one_out full lo) as (full1 & -> & Hlen1 & Hpre1);
      [lia|done|done|].
    cbn [obind].
    destruct (IH (lo + 1) full1) as (full' & Hrun & Hlen' & Hall);
      [lia|lia|done|done|].
    exists full'. replace (Z.succ lo) with (lo + 1) by lia.
    replace (Z.pred (Z.of_nat (S cnt))) with (Z.of_nat cnt) by lia.
    split; [done|]. split; [done|].
    intros idx Hidx. apply Hall.
    by replace (lo + 1 + Z.of_nat cnt) with (lo + Z.of_nat (S cnt)) by lia.
Qed.

(** Gathering the bands the ranks return rebuilds the image. *)
Lemma gatherv_image :
  gatherv (layout height size width channels).1
    (layout height size width channels).2 full0
    (zip (zip (seqZ 0 size) ((fun rank => out rank) <$> seqZ 0 size))
         ((fun rank => n rank) <$> seqZ 0 size)) =
  Ok (buffer_of (width * height * channels) F).
Proof using All.
  rewrite zip_fmap_self.
  rewrite (zip_fmap_both (fun rank => (rank, out rank)) (fun rank => n rank)).
  destruct (gatherv_out (Z.to_nat size) 0 full0)
    as (full' & Hrun & Hlen' & Hall); [lia|lia|done| |].
  { intros idx Hidx. change (ro 0) with 0 in Hidx. lia. }
  rewrite Z2Nat.id in Hrun, Hall by lia. rewrite Hrun. f_equal.
  apply buffer_of_eq; [done|]. intros idx Hidx. apply Hall.
  rewrite Z.add_0_l.
  replace (base size) with (width * height * channels); [done|].
  rewrite (row_offset_of_size height size) by lia. lia.
Qed.

End Gather.

(** ** The distributed program on the whole image *)

Section Main.
Variables (width height channels size : Z) (input : list Z).
Hypothesis width_pos : 0 < width.
Hypothesis height_pos : 0 < height.
Hypothesis channels_pos : 0 < channels.
Hypothesis size_pos : 1 ≤ size.
Hypothesis input_len : Z.of_nat (length input) = width * height * channels.

Local Abbreviation lh := (local_height_of height size).
Local Abbreviation ro := (row_offset_of height size).
Local Abbreviation band := (band_of width height channels size input).
Local Abbreviation halos := (halos_of width height channels size input).
Local Abbreviation ranks := (seqZ 0 size).
Local Abbreviation out filter rank :=
  (buffer_of (lh rank * width * channels) (fun idx =>
     mpi_spec filter width height channels input
       (ro rank * width * channels + idx))).

Lemma rank_band rank :
  0 ≤ rank < size →
  0 ≤ lh rank ∧ Z.of_nat (length (band rank)) = lh rank * width * channels.
Proof using All.
  intros Hr. split; [apply local_height_of_nonneg; lia|].
  apply length_band; done || lia.
Qed.

Lemma length_halos rank :
  size ≤ height → 0 ≤ rank < size →
  Z.of_nat (length (halos rank).1) = width * channels ∧
  Z.of_nat (length (halos rank).2) = width * channels.
Proof using All.
  intros Hle Hr.
  destruct (row_offset_of_span width height channels size input width_pos
              height_pos channels_pos size_pos input_len Hle rank Hr)
    as [Hlo Hhi].
  assert (0 ≤ lh rank) by (apply local_height_of_nonneg; lia).
  unfold halos_of. cbn [fst snd]. split.
  - destruct (Z.ltb_spec 0 rank).
    + apply (length_row width height channels size input); done || lia.
    + rewrite length_replicate. nia.
  - destruct (Z.ltb_spec rank (size - 1)).
    + apply (length_row width height channels size input); done || lia.
    + rewrite length_replicate. nia.
Qed.

Lemma pointwise_ranks (f : Z * list Z → outcome (list Z)) filter :
  (∀ rank, 0 ≤ rank < size → f (rank, band rank) = Ok (out filter rank)) →
  on_ranks f (zip ranks (band <$> ranks)) =
  Ok ((fun rank => out filter rank) <$> ranks).
Proof using Type.
  intros Hf. rewrite zip_fmap_self.
  rewrite (on_ranks_fmap _ (fun p => out filter p.1)).
  - by rewrite <- list_fmap_compose.
  - intros [rank ld] Hin.
    apply list_elem_of_fmap in Hin as (r & [= -> ->] & Hr).
    apply elem_of_seqZ in Hr. cbn [fst]. apply Hf. lia.
Qed.

Lemma stencil_ranks
    (f : Z * list Z * (list Z * list Z) → outcome (list Z)) filter :
  (∀ rank, 0 ≤ rank < size →
     f (rank, band rank, halos rank) = Ok (out filter rank)) →
  on_ranks f (zip (zip ranks (band <$> ranks)) (halos <$> ranks)) =
  Ok ((fun rank => out filter rank) <$> ranks).
Proof using Type.
  intros Hf. rewrite zip_fmap_self.
  rewrite (zip_fmap_both (fun rank => (rank, band rank)) halos).
  rewrite (on_ranks_fmap _ (fun p => out filter p.1.1)).
  - by rewrite <- list_fmap_compose.
  - intros [[rank ld] hs] Hin.
    apply list_elem_of_fmap in Hin as (r & [= -> -> ->] & Hr).
    apply elem_of_seqZ in Hr. cbn [fst]. apply Hf. lia.
Qed.

(** The filter step on the scattered bands. *)
Lemma mpi_filter_bands filter :
  (filter = Blur ∨ filter = Edge → size ≤ height) →
  mpi_filter filter height size width channels (band <$> ranks) =
  Ok ((fun rank => out filter rank) <$> ranks).
Proof using All.
  intros Hstencil. destruct filter; unfold mpi_filter.
  - apply pointwise_ranks. intros rank Hr.
    destruct (rank_band rank Hr) as [Hl Hlen].
    rewrite grayscale_band_run by done. f_equal.
    apply buffer_of_ext. intros idx Hidx. cbn [mpi_spec].
    apply grayscale_band_image; done || lia.
  - assert (size ≤ height) as Hle by auto.
    rewrite halo_exchange_bands; try done; try lia;
      [|intros k _; apply local_height_of_pos; lia].
    cbn [obind]. apply stencil_ranks. intros rank Hr.
    destruct (rank_band rank Hr) as [Hl Hlen].
    destruct (length_halos rank Hle Hr) as [Htop Hbottom].
    pose proof (blur_band_image width height channels size input
                  width_pos height_pos channels_pos size_pos input_len Hle
                  rank) as Himage.
    destruct (halos rank) as [halo_top halo_bottom].
    rewrite blur_band_run by done. f_equal.
    apply buffer_of_ext. intros idx Hidx. cbn [mpi_spec].
    by apply Himage.
  - assert (size ≤ height) as Hle by auto.
    rewrite halo_exchange_bands; try done; try lia;
      [|intros k _; apply local_height_of_pos; lia].
    cbn [obind]. apply stencil_ranks. intros rank Hr.
    destruct (rank_band rank Hr) as [Hl Hlen].
    destruct (length_halos rank Hle Hr) as [Htop Hbottom].
    pose proof (sobel_band_image width height channels size input
                  width_pos height_pos channels_pos size_pos input_len Hle
                  rank) as Himage.
    destruct (halos rank) as [halo_top halo_bottom].
    rewrite sobel_band_run by done. f_equal.
    apply buffer_of_ext. intros idx Hidx. cbn [mpi_spec].
    by apply Himage.
  - apply pointwise_ranks. intros rank Hr.
    destruct (rank_band rank Hr) as [Hl Hlen].
    rewrite brightness_band_run by done. f_equal.
    apply buffer_of_ext. intros idx Hidx. cbn [mpi_spec].
    apply brighten_band_image; done || lia.
Qed.

(** [main] returns the image the filter specifies, whatever the number of
    workers, provided every band of a stencil filter has a row. *)
Lemma mpi_main_image filter :
  (filter = Blur ∨ filter = Edge → size ≤ height) →
  mpi_main size filter (Build_Image input width height channels) =
  Ok (Build_Image
        (buffer_of (width * height * channels)
           (mpi_spec filter width height channels input))
        width height channels).
Proof using All.
  intros Hstencil. unfold mpi_main. simpl.
  pose proof (scatter_bands width height channels size input width_pos
                (Z.lt_le_incl _ _ height_pos) channels_pos size_pos input_len)
    as Hscatter.
  pose proof (gatherv_image width height channels size input
                (mpi_spec filter width height channels input)
                width_pos height_pos channels_pos size_pos input_len)
    as Hgather.
  destruct (layout height size width channels) as [sendcounts displs].
  simpl in Hscatter, Hgather. rewrite Hscatter. cbn [obind].
  rewrite mpi_filter_bands by done. cbn [obind].
  by rewrite Hgather.
Qed.

End Main.

(** ** Consequences for whole runs *)

(** Partition invariance where every band of a stencil filter has a row:
    any number of workers returns what a single worker returns. *)
Lemma partition_invariance_within_height width height channels size input
    filter :
  0 < width → 0 < height → 0 < channels → 1 ≤ size →
  Z.of_nat (length input) = width * height * channels →
  (filter = Blur ∨ filter = Edge → size ≤ height) →
  mpi_main size filter {| data := input; width := width; height := height;
                          channels := channels |} =
  mpi_main 1 filter {| data := input; width := width; height := height;
                       channels := channels |}.
Proof.
  intros Hw Hh Hc Hs Hlen Hstencil.
  rewrite !mpi_main_image; done || lia.
Qed.

(** The shared-memory blur returns the same image. *)
Lemma omp_blur_image width height channels input :
  0 < width → 0 < height → 0 < channels →
  Z.of_nat (length input) = width * height * channels →
  omp_main Blur {| data := input; width := width; height := height;
                   channels := channels |} =
  Ok {| data := buffer_of (width * height * channels)
                  (blur_spec width height channels input);
        width := width; height := height; channels := channels |}.
Proof.
  intros Hw Hh Hc Hlen.
  edestruct (omp_main_fills Blur
               {| data := input; width := width; height := height;
                  channels := channels |})
    as (output & Hrun & Hw' & Hh' & Hc' & Hlen' & Hin & _);
    [done|simpl; lia|done| |].
  { simpl. apply gaussian_blur_filter_fills;
      [done|done|done|apply create_image_len; lia]. }
  simpl in *. rewrite Hrun. f_equal. destruct output as [d w h c].
  simpl in *. subst w h c. f_equal. by apply buffer_of_eq.
Qed.

Lemma strategies_agree_on_blur width height channels size input :
  0 < width → 0 < height → 0 < channels → 1 ≤ size ≤ height →
  Z.of_nat (length input) = width * height * channels →
  mpi_main size Blur {| data := input; width := width; height := height;
                        channels := channels |} =
  omp_main Blur {| data := input; width := width; height := height;
                   channels := channels |}.
Proof.
  intros Hw Hh Hc Hs Hlen.
  rewrite mpi_main_image, omp_blur_image; done || lia.
Qed.

Lemma edge_image_spec_border width height channels input i j c :
  0 ≤ j < width → 0 ≤ c < channels →
  ¬ (1 ≤ i < height - 1 ∧ 1 ≤ j < width - 1) →
  edge_image_spec width height channels input (offset width channels i j c) =
  byte input (offset width channels i j c).
Proof.
  intros Hj Hc Hno. unfold edge_image_spec.
  rewrite row_of_offset, col_of_offset by lia.
  by rewrite interior_false.
Qed.


(** The edge filter of the shared-memory program: the gradient on interior
    pixels, the 0 of the [calloc]ed output image on the border. *)
Lemma omp_edge_image width height channels input :
  0 < width → 0 < height → 0 < channels →
  Z.of_nat (length input) = width * height * channels →
  ∃ output,
    omp_main Edge {| data := input; width := width; height := height;
                     channels := channels |} = Ok output ∧
    (∀ i j c, 1 ≤ i < height - 1 → 1 ≤ j < width - 1 → 0 ≤ c < channels →
       get (data output) (offset width channels i j c) =
       Some (sobel_spec width channels input (offset width channels i j c))) ∧
    (∀ i j c, 0 ≤ i < height → 0 ≤ j < width → 0 ≤ c < channels →
       ¬ (1 ≤ i < height - 1 ∧ 1 ≤ j < width - 1) →
       get (data output) (offset width channels i j c) = Some 0).
Proof.
  intros Hw Hh Hc Hlen.
  edestruct (omp_main_fills Edge
               {| data := input; width := width; height := height;
                  channels := channels |})
    as (output & Hrun & _ & _ & _ & _ & Hin & Hout);
    [done|simpl; lia|done| |].
  { simpl. apply sobel_edge_filter_fills;
      [done|done|done|apply create_image_len; lia]. }
  simpl in Hin, Hout. exists output. split; [done|]. split.
  - intros i j c Hi Hj Hcc. apply Hin. eauto 10.
  - intros i j c Hi Hj Hcc Hborder. rewrite Hout.
    + apply get_replicate.
      assert (0 ≤ offset width channels i j c < width * height * channels)
        by (by apply offset_bounds).
      lia.
    + intros (i' & Hi' & j' & Hj' & c' & Hc' & Heq).
      apply offset_inj in Heq; lia.
Qed.

Local Ltac whole_run := first [done | lia | by intros [|]].

(** ** The claims about whole runs *)

(** C5 (brighten exactness).  On an image of bytes, the brighten filter of
    both programs writes [clamp (b + 50) 0 255] for every byte [b] of every
    pixel: the shared-memory program into the output image, the filter of
    the distributed program into the band itself, and so the distributed
    program into the gathered image, for every number of workers. *)
Theorem brighten_exact (width height channels : Z) (input : list Z) :
  0 < width → 0 ≤ height → 0 < channels →
  Z.of_nat (length input) = width * height * channels →
  bytes input →
  (∃ output,
     omp_main Brighten {| data := input; width := width; height := height;
                          channels := channels |} = Ok output ∧
     length (data output) = length input ∧
     ∀ idx b, get input idx = Some b →
       get (data output) idx = Some (clamp (b + 50) 0 255)) ∧
  (∃ local_data,
     run_band (brightness_filter_mpi height width channels 50)
       (mpi_mem input [] []) = Ok local_data ∧
     length local_data = length input ∧
     ∀ idx b, get input idx = Some b →
       get local_data idx = Some (clamp (b + 50) 0 255)) ∧
  (∀ size, 1 ≤ size → 0 < height →
     ∃ output,
       mpi_main size Brighten {| data := input; width := width;
                                 height := height; channels := channels |} =
         Ok output ∧
       length (data output) = length input ∧
       ∀ idx b, get input idx = Some b →
         get (data output) idx = Some (clamp (b + 50) 0 255)).
Proof.
  intros Hw Hh Hc Hlen Hbytes.
  assert (∀ idx b, get input idx = Some b →
            brighten_spec input 50 idx = clamp (b + 50) 0 255) as Hspec.
  { intros idx b Hb. unfold brighten_spec. rewrite (get_Some_byte _ _ _ Hb).
    apply brighten_byte_clamp. by apply (Hbytes idx). }
  split; [|split].
  - destruct (omp_main_fills Brighten
                {| data := input; width := width; height := height;
                   channels := channels |}
                (fun idx => 0 ≤ idx < width * height * channels)
                (brighten_spec input 50))
      as (output & Hrun & _ & _ & _ & Hlen' & Hin & _); [done..| |].
    { apply brightness_filter_fills; try done.
      by apply create_image_len. }
    exists output. split; [done|]. simpl in Hlen'. split; [lia|].
    intros idx b Hb. rewrite Hin.
    + f_equal. by apply Hspec.
    + apply get_Some_bounds in Hb. lia.
  - destruct (writes_run LocalData (mpi_mem [] [] []) input
                (fun idx => 0 ≤ idx < height * width * channels)
                (brighten_spec input 50)
                (brightness_filter_mpi height width channels 50)
                (mpi_mem input [] []))
      as (m' & Hrun & [Hlen' _] & Hin & _).
    { apply brightness_filter_mpi_writes. lia. }
    { apply (mpi_mem_stable input [] []). }
    { done. }
    exists (m' LocalData). unfold run_band. rewrite Hrun.
    split; [done|]. split; [done|].
    intros idx b Hb. rewrite Hin.
    + f_equal. by apply Hspec.
    + apply get_Some_bounds in Hb. lia.
  - intros size Hs Hh'. rewrite mpi_main_image by whole_run.
    eexists. split; [done|]. cbn [data]. rewrite length_buffer_of.
    split; [lia|].
    intros idx b Hb. pose proof (get_Some_bounds _ _ _ Hb).
    rewrite get_buffer_of by lia. f_equal. by apply Hspec.
Qed.

Lemma brighten_exact_witness :
  ∃ output,
    omp_main Brighten {| data := [0; 100; 206; 255; 7; 230]; width := 2;
                         height := 1; channels := 3 |} = Ok output ∧
    length (data output) = 6%nat ∧
    ∀ idx b, get [0; 100; 206; 255; 7; 230] idx = Some b →
      get (data output) idx = Some (clamp (b + 50) 0 255).
Proof.
  apply (brighten_exact 2 1 3 [0; 100; 206; 255; 7; 230]); [lia..|done|].
  intros i v Hv. pose proof (get_Some_bounds _ _ _ Hv) as Hi. simpl in Hi.
  assert (i = 0 ∨ i = 1 ∨ i = 2 ∨ i = 3 ∨ i = 4 ∨ i = 5)
    as [->|[->|[->|[->|[->| ->]]]]] by lia;
    injection Hv as <-; lia.
Defined.

(** A buffer that holds [grayscale_spec] holds the gray image. *)
Lemma grayscale_image_spec width height channels input output :
  0 < width → 0 < channels →
  Z.of_nat (length input) = width * height * channels →
  (∀ i j c, 0 ≤ i < height → 0 ≤ j < width → 0 ≤ c < Z.min channels 4 →
     get output (offset width channels i j c) =
     Some (grayscale_spec channels input (offset width channels i j c))) →
  grayscale_image width height channels input output.
Proof.
  intros Hw Hc Hlen Hspec i j Hi Hj. cbv zeta. split.
  - intros c Hc3. rewrite Hspec by lia. f_equal.
    rewrite (grayscale_spec_at width channels input i j c) by (lia || done).
    destruct (Z.ltb_spec c 3); [|lia]. by rewrite gray_pixel_eq.
  - intros H3. rewrite Hspec by lia.
    rewrite (grayscale_spec_at width channels input i j 3) by (lia || done).
    simpl. symmetry. apply get_byte. rewrite Hlen.
    apply offset_bounds; lia.
Qed.

(** C4 (grayscale), as amended.  The grayscale filter of both programs
    writes, in bytes 0, 1 and 2 of every pixel (those the pixel has), the
    truncation of [0.299 * R + 0.587 * G + 0.114 * B] evaluated in IEEE-754
    binary64 arithmetic, products first and sums left to right; a missing G
    or B defaults to R; byte 3, when present, is the input byte.  The
    distributed program returns that image for every number of workers. *)
Theorem grayscale_double_formula (width height channels : Z) (input : list Z) :
  0 < width → 0 ≤ height → 0 < channels →
  Z.of_nat (length input) = width * height * channels →
  (∃ output,
     omp_main Grayscale {| data := input; width := width; height := height;
                           channels := channels |} = Ok output ∧
     length (data output) = length input ∧
     grayscale_image width height channels input (data output)) ∧
  (∃ local_data,
     run_band (grayscale_filter_mpi height width channels)
       (mpi_mem input [] []) = Ok local_data ∧
     length local_data = length input ∧
     grayscale_image width height channels input local_data) ∧
  (∀ size, 1 ≤ size → 0 < height →
     ∃ output,
       mpi_main size Grayscale {| data := input; width := width;
                                  height := height; channels := channels |} =
         Ok output ∧
       length (data output) = length input ∧
       grayscale_image width height channels input (data output)).
Proof.
  intros Hw Hh Hc Hlen. split; [|split].
  - edestruct (omp_main_fills Grayscale
                 {| data := input; width := width; height := height;
                    channels := channels |})
      as (output & Hrun & _ & _ & _ & Hlen' & Hin & _); [done..| |].
    { apply grayscale_filter_fills; [done..|by apply create_image_len]. }
    simpl in Hlen', Hin.
    exists output. split; [done|]. split; [lia|].
    apply grayscale_image_spec; [done..|].
    intros i j c Hi Hj Hcc. apply Hin.
    exists i. split; [done|]. exists j. split; [done|]. by exists c.
  - edestruct (writes_run LocalData (mpi_mem [] [] []) input)
      as (m' & Hrun & [Hlen' _] & Hin & Hout);
      [|apply (mpi_mem_stable input [] [])|reflexivity|].
    { apply (grayscale_filter_mpi_writes height width channels);
        [done..|lia]. }
    exists (m' LocalData). unfold run_band. rewrite Hrun.
    split; [done|]. split; [done|].
    apply grayscale_image_spec; [done..|].
    intros i j c Hi Hj Hcc.
    destruct (Z.ltb_spec c 3) as [Hc3|Hc3].
    + apply Hin. exists i. split; [done|]. exists j. split; [done|].
      exists c. split; [lia|done].
    + rewrite Hout.
      * rewrite (grayscale_spec_at width channels input i j c)
          by (lia || done).
        destruct (Z.ltb_spec c 3); [lia|].
        apply get_byte. rewrite Hlen. apply offset_bounds; lia.
      * intros (i' & Hi' & j' & Hj' & c' & Hc' & Heq).
        apply offset_inj in Heq; lia.
  - intros size Hs Hh'. rewrite mpi_main_image by whole_run.
    eexists. split; [done|]. cbn [data]. rewrite length_buffer_of.
    split; [lia|].
    apply grayscale_image_spec; [done..|].
    intros i j c Hi Hj Hcc. apply get_buffer_of. apply offset_bounds; lia.
Qed.

Lemma grayscale_double_formula_witness :
  ∃ output,
    omp_main Grayscale {| data := [10; 200; 30; 7; 8; 9]; width := 2;
                          height := 1; channels := 3 |} = Ok output ∧
    length (data output) = 6%nat ∧
    grayscale_image 2 1 3 [10; 200; 30; 7; 8; 9] (data output).
Proof.
  apply (grayscale_double_formula 2 1 3 [10; 200; 30; 7; 8; 9]); [lia..|done].
Defined.

(** C4 as stated fails: for the pixel (1, 1, 1) both programs write 0, while
    [floor(0.299 + 0.587 + 0.114)] is 1 in exact arithmetic (the binary64 sum
    is one unit in the last place below 1). *)
Lemma grayscale_exact_floor_counterexample :
  gray_floor_exact 1 1 1 = 1 ∧
  (∃ output,
     omp_main Grayscale {| data := [1; 1; 1]; width := 1; height := 1;
                           channels := 3 |} = Ok output ∧
     data output = [0; 0; 0]) ∧
  run_band (grayscale_filter_mpi 1 1 3) (mpi_mem [1; 1; 1] [] []) =
    Ok [0; 0; 0] ∧
  mpi_main 1 Grayscale {| data := [1; 1; 1]; width := 1; height := 1;
                          channels := 3 |} =
    Ok {| data := [0; 0; 0]; width := 1; height := 1; channels := 3 |}.
Proof.
  split; [reflexivity|]. split; [|split; vm_compute; reflexivity].
  eexists. split; [vm_compute; reflexivity|reflexivity].
Qed.

(** C6 (uniform field).  On an image whose bytes are all 100, the blur
    filter returns the input unchanged and the edge filter writes 0 in every
    byte of every interior pixel: in the shared-memory program, and in the
    distributed program for every number of workers up to the number of
    rows. *)
Theorem uniform_field_fixed_point (width height channels : Z) (input : list Z) :
  0 < width → 0 < height → 0 < channels →
  Z.of_nat (length input) = width * height * channels →
  (∀ idx v, get input idx = Some v → v = 100) →
  (∃ output,
     omp_main Blur {| data := input; width := width; height := height;
                      channels := channels |} = Ok output ∧
     data output = input) ∧
  (∃ output,
     omp_main Edge {| data := input; width := width; height := height;
                      channels := channels |} = Ok output ∧
     ∀ i j c, 1 ≤ i < height - 1 → 1 ≤ j < width - 1 → 0 ≤ c < channels →
       get (data output) (offset width channels i j c) = Some 0) ∧
  (∀ size, 1 ≤ size ≤ height →
     mpi_main size Blur {| data := input; width := width; height := height;
                           channels := channels |} =
     Ok {| data := input; width := width; height := height;
           channels := channels |}) ∧
  (∀ size, 1 ≤ size ≤ height →
     ∃ output,
       mpi_main size Edge {| data := input; width := width; height := height;
                             channels := channels |} = Ok output ∧
       ∀ i j c, 1 ≤ i < height - 1 → 1 ≤ j < width - 1 → 0 ≤ c < channels →
         get (data output) (offset width channels i j c) = Some 0).
Proof.
  intros Hw Hh Hc Hlen Huni.
  assert (∀ i j c, 0 ≤ i < height → 0 ≤ j < width → 0 ≤ c < channels →
            byte input (offset width channels i j c) = 100) as Hbyte.
  { intros i j c Hi Hj Hcc.
    assert (0 ≤ offset width channels i j c < Z.of_nat (length input)) as Hb
      by (rewrite Hlen; by apply offset_bounds).
    apply get_byte in Hb. by apply Huni in Hb. }
  assert (input = buffer_of (width * height * channels)
                    (blur_spec width height channels input)) as Hblur.
  { apply buffer_of_eq; [done|]. intros idx Hidx.
    destruct (offset_cover width channels Hw Hc height idx ltac:(lia))
      as (Heq & Hi & Hj & Hcc).
    rewrite (get_byte input) by lia. f_equal.
    rewrite Heq at 1. rewrite Hbyte by done. rewrite Heq.
    set (i := row_of width channels idx) in *.
    set (j := col_of width channels idx) in *.
    set (c := chan_of channels idx) in *.
    destruct (decide (1 ≤ i < height - 1 ∧ 1 ≤ j < width - 1))
      as [[Hi' Hj']|Hno].
    + rewrite (blur_spec_interior width height channels input i j c)
        by (lia || done).
      rewrite <- blur_value_100. apply blur_value_ext.
      intros di dj Hdi Hdj. symmetry. apply Hbyte; lia.
    + rewrite (blur_spec_border width height channels input i j c)
        by (lia || done).
      symmetry. by apply Hbyte. }
  split; [|split; [|split]].
  - rewrite omp_blur_image by done. eexists. split; [done|].
    cbn [data]. by rewrite <- Hblur.
  - destruct (omp_edge_image width height channels input)
      as (output & Hrun & Hin & _); [done..|].
    exists output. split; [done|].
    intros i j c Hi Hj Hcc. rewrite Hin by done. f_equal.
    rewrite (sobel_spec_at width channels input i j c) by (lia || done).
    rewrite <- edge_value_omp_100. unfold edge_value_omp.
    rewrite (sobel_sums_ext _ (fun _ _ => 100)); [done|].
    intros di dj Hdi Hdj.
    rewrite <- (Hbyte (i + di) (j + dj) 0) by lia.
    f_equal. unfold offset. lia.
  - intros size Hs. rewrite mpi_main_image by whole_run.
    unfold mpi_spec. by rewrite <- Hblur.
  - intros size Hs. rewrite mpi_main_image by whole_run.
    eexists. split; [done|]. intros i j c Hi Hj Hcc. cbn [data].
    rewrite get_buffer_of by (apply offset_bounds; lia). f_equal.
    unfold mpi_spec, edge_image_spec.
    rewrite row_of_offset, col_of_offset by lia.
    rewrite interior_true by lia.
    transitivity (edge_value_mpi (fun _ _ => 100));
      [|apply edge_value_mpi_100].
    apply edge_value_mpi_ext.
    intros di dj Hdi Hdj. apply Hbyte; lia.
Qed.

Lemma uniform_field_fixed_point_witness :
  ∃ output,
    omp_main Blur {| data := replicate 48 100; width := 4; height := 4;
                     channels := 3 |} = Ok output ∧
    data output = replicate 48 100.
Proof.
  apply (uniform_field_fixed_point 4 4 3 (replicate 48 100)); [lia..|done|].
  intros idx v Hv. pose proof (get_Some_bounds _ _ _ Hv) as Hb.
  rewrite get_replicate in Hv by done. by injection Hv.
Defined.

(** C8 (zero-row bands).  With more workers than rows, the ranks from
    [height] on have no row.  The pointwise filters tolerate them: the run
    returns the filtered image.  The stencil filters do not: the
    [MPI_Isend] of [row_size] bytes from [local_data] that every such rank
    posts reads outside its empty band, and the run does not complete. *)
Theorem zero_row_band_out_of_bounds (width height channels size : Z)
    (input : list Z) :
  0 < width → 0 < height → 0 < channels → height < size →
  Z.of_nat (length input) = width * height * channels →
  (∀ rank, height ≤ rank < size →
     local_height_of height size rank = 0 ∧
     band_of width height channels size input rank = [] ∧
     halo_sends rank size (local_height_of height size rank)
       (width * channels) (band_of width height channels size input rank) =
     Fault OutOfBounds) ∧
  (∀ filter, filter = Grayscale ∨ filter = Brighten →
     mpi_main size filter {| data := input; width := width; height := height;
                             channels := channels |} =
     Ok {| data := buffer_of (width * height * channels)
                     (mpi_spec filter width height channels input);
           width := width; height := height; channels := channels |}) ∧
  (∀ filter, filter = Blur ∨ filter = Edge →
     mpi_main size filter {| data := input; width := width; height := height;
                             channels := channels |} = Fault OutOfBounds).
Proof.
  intros Hw Hh Hc Hs Hlen. split; [|split].
  - intros rank Hr.
    assert (local_height_of height size rank = 0) as Hlh.
    { rewrite local_height_of_eq by lia.
      rewrite Z.div_small, Z.mod_small by lia.
      destruct (Z.ltb_spec rank height); lia. }
    assert (Z.of_nat (length (band_of width height channels size input rank))
            = 0) as Hband.
    { rewrite (length_band width height channels size input) by whole_run.
      rewrite Hlh. lia. }
    split; [done|]. split; [by apply nil_length_inv; lia|].
    unfold halo_sends. destruct (Z.ltb_spec 0 rank); [|lia].
    rewrite read_range_Fault; [done|]. rewrite Hband. nia.
  - intros filter [-> | ->]; by rewrite mpi_main_image by whole_run.
  - intros filter Hfilter. apply stencil_pass_beyond_height; done || lia.
Qed.

Lemma zero_row_band_out_of_bounds_witness :
  mpi_main 3 Blur {| data := [10; 20; 30; 40; 50; 60]; width := 3;
                     height := 2; channels := 1 |} = Fault OutOfBounds.
Proof.
  apply (zero_row_band_out_of_bounds 3 2 1 3 [10; 20; 30; 40; 50; 60]);
    [lia..|done|by left].
Defined.

(** C1 (partition invariance).  The run of [size] workers returns what the
    run of one worker returns exactly when the filter is pointwise or every
    band has a row: with more workers than rows the stencil filters do not
    complete, while a single worker returns the filtered image. *)
Theorem partition_invariance_iff (width height channels size : Z)
    (input : list Z) (filter : FilterKind) :
  0 < width → 0 < height → 0 < channels → 1 ≤ size →
  Z.of_nat (length input) = width * height * channels →
  mpi_main size filter {| data := input; width := width; height := height;
                          channels := channels |} =
  mpi_main 1 filter {| data := input; width := width; height := height;
                       channels := channels |} ↔
  (filter = Blur ∨ filter = Edge → size ≤ height).
Proof.
  intros Hw Hh Hc Hs Hlen. split.
  - intros Heq Hfilter.
    destruct (Z.le_gt_cases size height) as [|Hgt]; [done|].
    rewrite stencil_pass_beyond_height in Heq by (done || lia).
    by rewrite mpi_main_image in Heq by whole_run.
  - by apply partition_invariance_within_height.
Qed.

Lemma partition_invariance_iff_witness :
  mpi_main 2 Blur {| data := [10; 20; 30; 40; 50; 60]; width := 3;
                     height := 2; channels := 1 |} =
  mpi_main 1 Blur {| data := [10; 20; 30; 40; 50; 60]; width := 3;
                     height := 2; channels := 1 |} ∧
  mpi_main 3 Blur {| data := [10; 20; 30; 40; 50; 60]; width := 3;
                     height := 2; channels := 1 |} ≠
  mpi_main 1 Blur {| data := [10; 20; 30; 40; 50; 60]; width := 3;
                     height := 2; channels := 1 |}.
Proof.
  split.
  - apply (partition_invariance_iff 3 2 1 2 [10; 20; 30; 40; 50; 60] Blur);
      [lia..|done|]. intros _. lia.
  - intros Heq.
    apply (partition_invariance_iff 3 2 1 3 [10; 20; 30; 40; 50; 60] Blur)
      in Heq; [lia|lia..|done|by left].
Defined.

(** C2 (boundary pass-through).  A byte on the first or last row or column
    of the image is the input byte after the blur filter of the
    shared-memory program and after both stencil filters of the distributed
    program (while every band has a row); after the edge filter of the
    shared-memory program, which never writes the border of its
    [calloc]ed output image, it is 0. *)
Theorem boundary_pass_through_but_omp_edge (width height channels : Z)
    (input : list Z) (i j c : Z) :
  0 < width → 0 < height → 0 < channels →
  Z.of_nat (length input) = width * height * channels →
  0 ≤ i < height → 0 ≤ j < width → 0 ≤ c < channels →
  ¬ (1 ≤ i < height - 1 ∧ 1 ≤ j < width - 1) →
  (∃ output,
     omp_main Blur {| data := input; width := width; height := height;
                      channels := channels |} = Ok output ∧
     get (data output) (offset width channels i j c) =
     get input (offset width channels i j c)) ∧
  (∀ size filter, 1 ≤ size ≤ height → filter = Blur ∨ filter = Edge →
     ∃ output,
       mpi_main size filter {| data := input; width := width;
                               height := height; channels := channels |} =
         Ok output ∧
       get (data output) (offset width channels i j c) =
       get input (offset width channels i j c)) ∧
  (∃ output,
     omp_main Edge {| data := input; width := width; height := height;
                      channels := channels |} = Ok output ∧
     get (data output) (offset width channels i j c) = Some 0).
Proof.
  intros Hw Hh Hc Hlen Hi Hj Hcc Hborder.
  assert (0 ≤ offset width channels i j c < width * height * channels)
    as Hoff by (by apply offset_bounds).
  split; [|split].
  - rewrite omp_blur_image by done. eexists. split; [done|]. cbn [data].
    rewrite get_buffer_of, (get_byte input) by lia. f_equal.
    by apply (blur_spec_border _ _ _ _ i j c).
  - intros size filter Hs Hfilter. rewrite mpi_main_image by whole_run.
    eexists. split; [done|]. cbn [data].
    rewrite get_buffer_of, (get_byte input) by lia. f_equal.
    destruct Hfilter as [-> | ->]; unfold mpi_spec.
    + by apply (blur_spec_border _ _ _ _ i j c).
    + by apply edge_image_spec_border.
  - destruct (omp_edge_image width height channels input)
      as (output & Hrun & _ & Hout); [done..|].
    exists output. split; [done|]. by apply Hout.
Qed.

Lemma boundary_pass_through_but_omp_edge_witness :
  ∃ output,
    omp_main Edge {| data := [10; 20; 30; 40; 50; 60; 70; 80; 90];
                     width := 3; height := 3; channels := 1 |} = Ok output ∧
    get (data output) (offset 3 1 0 0 0) = Some 0.
Proof.
  apply (boundary_pass_through_but_omp_edge 3 3 1
           [10; 20; 30; 40; 50; 60; 70; 80; 90] 0 0 0); [lia..|done| | | |];
    lia.
Defined.

(** ** Scanning and printing *)

Lemma skip_space_app ws fp :
  Forall (fun c => isspace c = true) ws → skip_space (ws ++ fp) = skip_space fp.
Proof. induction 1 as [|c ws Hc _ IH]; simpl; [done|]. by rewrite Hc. Qed.

Lemma skip_space_cons c fp : isspace c = false → skip_space (c :: fp) = c :: fp.
Proof. intros Hc. simpl. by rewrite Hc. Qed.

Lemma skip_space_suffix fp : suffix (skip_space fp) fp.
Proof.
  induction fp as [|c fp IH]; simpl; [done|].
  destruct (isspace c); [by apply suffix_cons_r|done].
Qed.

Lemma isdigit_not_space c : isdigit c = true → isspace c = false.
Proof. unfold isdigit, isspace. lia. Qed.

(** The number a run of digits denotes, from an accumulator. *)
Lemma scan_digits_app ds fp acc :
  Forall (fun c => isdigit c = true) ds →
  match fp with c :: _ => isdigit c = false | [] => True end →
  scan_digits (ds ++ fp) acc =
  (foldl (fun a c => a * 10 + (c - 48)) acc ds, fp).
Proof.
  intros Hds Hfp. revert acc.
  induction Hds as [|c ds Hc _ IH]; intros acc; simpl.
  - destruct fp as [|c fp]; [done|]. simpl. by rewrite Hfp.
  - by rewrite Hc, IH.
Qed.

Lemma digits_acc fuel n acc : digits fuel n acc = digits fuel n [] ++ acc.
Proof.
  revert n acc. induction fuel as [|fuel IH]; intros n acc; simpl; [done|].
  destruct (n <? 10); [done|].
  rewrite (IH _ (_ :: acc)), (IH _ [_]). by rewrite <- app_assoc.
Qed.

Lemma digits_spec fuel n :
  0 ≤ n < 10 ^ Z.of_nat (S fuel) →
  Forall (fun c => isdigit c = true) (digits (S fuel) n []) ∧
  digits (S fuel) n [] ≠ [] ∧
  foldl (fun a c => a * 10 + (c - 48)) 0 (digits (S fuel) n []) = n.
Proof.
  revert n. induction fuel as [|fuel IH]; intros n Hn.
  - simpl. change (10 ^ Z.of_nat 1) with 10 in Hn.
    destruct (Z.ltb_spec n 10); [|lia].
    rewrite Z.mod_small by lia.
    split; [|split; [done|simpl; lia]].
    constructor; [|done]. unfold isdigit. lia.
  - change (digits (S (S fuel)) n []) with
      (if n <? 10 then [48 + n mod 10]
       else digits (S fuel) (n / 10) [48 + n mod 10]).
    pose proof (Z.mod_pos_bound n 10 ltac:(lia)) as Hmod.
    assert (isdigit (48 + n mod 10) = true) as Hd by (unfold isdigit; lia).
    destruct (Z.ltb_spec n 10).
    + rewrite Z.mod_small by lia.
      split; [|split; [done|simpl; lia]].
      constructor; [|done]. unfold isdigit. lia.
    + rewrite digits_acc.
      destruct (IH (n / 10)) as (Hall & Hne & Hval).
      { split; [apply Z.div_pos; lia|].
        apply Z.div_lt_upper_bound; [lia|].
        replace (Z.of_nat (S (S fuel))) with (1 + Z.of_nat (S fuel)) in Hn
          by lia.
        rewrite Z.pow_add_r in Hn by lia. lia. }
      split; [|split].
      * apply Forall_app. split; [done|]. by constructor.
      * intros Heq. by apply app_eq_nil in Heq as [? _].
      * rewrite foldl_app, Hval. simpl.
        pose proof (Z.div_mod n 10 ltac:(lia)). lia.
Qed.

Lemma fuel_enough n : 0 ≤ n → n < 10 ^ Z.of_nat (S (Z.to_nat (Z.log2 n))).
Proof.
  intros Hn. destruct (decide (n = 0)) as [->|Hne]; [done|].
  pose proof (Z.log2_nonneg n).
  pose proof (Z.log2_spec n ltac:(lia)) as [_ Hlt].
  replace (Z.of_nat (S (Z.to_nat (Z.log2 n)))) with (Z.succ (Z.log2 n))
    by lia.
  eapply Z.lt_le_trans; [done|].
  apply Z.pow_le_mono_l. lia.
Qed.

Lemma scan_d_digits ws (negative : bool) ds fp :
  Forall (fun c => isspace c = true) ws →
  Forall (fun c => isdigit c = true) ds → ds ≠ [] →
  match fp with c :: _ => isdigit c = false | [] => True end →
  scan_d (ws ++ (if negative then [45] else []) ++ ds ++ fp) =
  (Some (let v := foldl (fun a c => a * 10 + (c - 48)) 0 ds in
         if negative then - v else v), fp).
Proof.
  intros Hws Hds Hne Hfp. unfold scan_d. rewrite skip_space_app by done.
  destruct ds as [|d ds]; [done|].
  apply Forall_cons in Hds as Hd. destruct Hd as [Hd _].
  destruct negative.
  - change ([45] ++ (d :: ds) ++ fp) with (45 :: (d :: ds) ++ fp).
    rewrite skip_space_cons by done.
    change (45 =? 45) with true. cbv iota.
    change ((d :: ds) ++ fp) with (d :: (ds ++ fp)) at 1 3.
    cbv iota. rewrite Hd. by rewrite scan_digits_app by done.
  - change ([] ++ (d :: ds) ++ fp) with (d :: (ds ++ fp)).
    rewrite skip_space_cons by (by apply isdigit_not_space).
    assert ((d =? 45) = false) as -> by (unfold isdigit in Hd; lia).
    assert ((d =? 43) = false) as -> by (unfold isdigit in Hd; lia).
    rewrite Hd. change (d :: ds ++ fp) with ((d :: ds) ++ fp).
    by rewrite scan_digits_app by done.
Qed.

(** What [%d] prints, [%d] reads back. *)
Lemma scan_d_print_d ws n fp :
  Forall (fun c => isspace c = true) ws →
  match fp with c :: _ => isdigit c = false | [] => True end →
  scan_d (ws ++ print_d n ++ fp) = (Some n, fp).
Proof.
  intros Hws Hfp. unfold print_d. destruct (Z.ltb_spec n 0) as [Hneg|Hpos].
  - destruct (digits_spec (Z.to_nat (Z.log2 (- n))) (- n))
      as (Hall & Hne & Hval); [split; [lia|apply fuel_enough; lia]|].
    etrans; [exact (scan_d_digits ws true _ fp Hws Hall Hne Hfp)|].
    cbv zeta. rewrite Hval. do 2 f_equal. lia.
  - destruct (digits_spec (Z.to_nat (Z.log2 n)) n)
      as (Hall & Hne & Hval); [split; [lia|apply fuel_enough; lia]|].
    etrans; [exact (scan_d_digits ws false _ fp Hws Hall Hne Hfp)|].
    cbv zeta. by rewrite Hval.
Qed.

Lemma skip_space_idemp fp : skip_space (skip_space fp) = skip_space fp.
Proof.
  induction fp as [|c fp IH]; simpl; [done|].
  destruct (isspace c) eqn:E; [done|]. simpl. by rewrite E.
Qed.

Lemma scan_d_skip_space fp : scan_d (skip_space fp) = scan_d fp.
Proof. unfold scan_d. by rewrite skip_space_idemp. Qed.

Lemma scan_word_app w fp word rest :
  scan_word w fp = (word, rest) → fp = word ++ rest.
Proof.
  revert fp word rest. induction w as [|w IH]; intros fp word rest.
  - simpl. by intros [= <- <-].
  - destruct fp as [|c fp]; simpl; [by intros [= <- <-]|].
    destruct (isspace c); [by intros [= <- <-]|].
    destruct (scan_word w fp) as [word' rest'] eqn:E.
    intros [= <- <-]. simpl. f_equal. by apply IH.
Qed.

Lemma scan_s_suffix w fp o rest : scan_s w fp = (o, rest) → suffix rest fp.
Proof.
  unfold scan_s. destruct (scan_word w (skip_space fp)) as [word rest'] eqn:E.
  apply scan_word_app in E.
  assert (suffix rest' fp) as Hsuf.
  { etrans; [|apply skip_space_suffix]. rewrite E. by apply suffix_app_r. }
  by destruct word; intros [= <- <-].
Qed.

Lemma scan_digits_suffix fp acc : suffix (scan_digits fp acc).2 fp.
Proof.
  revert acc. induction fp as [|c fp IH]; intros acc; simpl; [done|].
  destruct (isdigit c); [|done]. by apply suffix_cons_r.
Qed.

Lemma scan_d_suffix fp o rest : scan_d fp = (o, rest) → suffix rest fp.
Proof.
  unfold scan_d. pose proof (skip_space_suffix fp) as Hskip.
  destruct (skip_space fp) as [|c fp'] eqn:E; [by intros [= <- <-]|].
  set (signed := if c =? 45 then (true, fp')
                 else if c =? 43 then (false, fp') else (false, c :: fp')).
  assert (suffix signed.2 (c :: fp')) as Hsign.
  { unfold signed. destruct (c =? 45); [by apply suffix_cons_r|].
    destruct (c =? 43); [by apply suffix_cons_r|done]. }
  destruct signed as [negative fp'']. simpl in Hsign.
  assert (suffix fp'' fp) as Hsuf by (by etrans).
  destruct fp'' as [|d fp'']; [intros [= <- <-]; apply suffix_nil|].
  destruct (isdigit d); [|by intros [= <- <-]].
  pose proof (scan_digits_suffix (d :: fp'') 0) as Hdig.
  destruct (scan_digits (d :: fp'') 0) as [v rest']. simpl in Hdig.
  intros [= <- <-]. by etrans.
Qed.

(** [fscanf] only moves forward in the stream. *)
Lemma fscanf_suffix fmt fp items rest :
  fscanf fmt fp = Res (items, rest) → suffix rest fp.
Proof.
  revert fp items rest. induction fmt as [|d fmt IH]; intros fp items rest.
  - simpl. by intros [= <- <-].
  - destruct d as [w| |]; simpl.
    + destruct (scan_s w fp) as [[s|] fp'] eqn:E.
      * apply scan_s_suffix in E.
        destruct (fscanf fmt fp') as [[items' fp'']|] eqn:E'; [|done].
        simpl. intros [= <- <-]. etrans; [by eapply IH|done].
      * apply scan_s_suffix in E. by intros [= <- <-].
    + destruct (scan_d fp) as [[v|] fp'] eqn:E.
      * apply scan_d_suffix in E. unfold int.
        destruct (_ && _); [|done]. simpl.
        destruct (fscanf fmt fp') as [[items' fp'']|] eqn:E'; [|done].
        simpl. intros [= <- <-]. etrans; [by eapply IH|done].
      * apply scan_d_suffix in E. by intros [= <- <-].
    + intros E. apply IH in E. etrans; [done|apply skip_space_suffix].
Qed.

Lemma int_Res v : INT_MIN ≤ v ≤ INT_MAX → int v = Res v.
Proof.
  intros Hv. unfold int.
  destruct (Z.leb_spec INT_MIN v); [|lia].
  by destruct (Z.leb_spec v INT_MAX); [|lia].
Qed.

Lemma int_inv v v' : int v = Res v' → v' = v ∧ INT_MIN ≤ v ≤ INT_MAX.
Proof.
  unfold int. destruct (Z.leb_spec INT_MIN v); [|done].
  destruct (Z.leb_spec v INT_MAX); [|done]. by intros [= <-].
Qed.

Lemma print_d_head n fp :
  ∃ c rest, print_d n ++ fp = c :: rest ∧ isspace c = false.
Proof.
  unfold print_d. destruct (Z.ltb_spec n 0).
  - by eexists _, _.
  - destruct (digits_spec (Z.to_nat (Z.log2 n)) n)
      as (Hall & Hne & _); [split; [lia|apply fuel_enough; lia]|].
    destruct (digits _ n []) as [|d ds]; [done|].
    apply Forall_cons in Hall as [Hd _].
    eexists _, _. split; [done|]. by apply isdigit_not_space.
Qed.

(** The header ["P6 <width> <height> <max_val>"], with any white space
    between its fields, under a format that starts as both [load_image] do. *)
Lemma fscanf_header fmt ws0 ws1 ws2 ws3 w h m fp :
  Forall (fun c => isspace c = true) ws0 →
  Forall (fun c => isspace c = true) ws1 →
  Forall (fun c => isspace c = true) ws2 → ws2 ≠ [] →
  Forall (fun c => isspace c = true) ws3 → ws3 ≠ [] →
  INT_MIN ≤ w ≤ INT_MAX → INT_MIN ≤ h ≤ INT_MAX → INT_MIN ≤ m ≤ INT_MAX →
  match fp with c :: _ => isdigit c = false | [] => True end →
  fscanf ([conv_s 2; white; conv_d; white; conv_d; white; conv_d] ++ fmt)
    (ws0 ++ codes "P6" ++ ws1 ++ print_d w ++ ws2 ++ print_d h ++ ws3 ++
     print_d m ++ fp) =
  '(items, fp') ← fscanf fmt fp;
  Res (item_s (codes "P6") :: item_d w :: item_d h :: item_d m :: items, fp').
Proof.
  intros H0 H1 H2 Hne2 H3 Hne3 Hw Hh Hm Hfp.
  assert (∀ ws rest, Forall (fun c => isspace c = true) ws → ws ≠ [] →
            match ws ++ rest with
            | c :: _ => isdigit c = false
            | [] => True
            end) as Hsep.
  { intros [|c ws] rest Hws Hne; [done|]. simpl.
    apply Forall_cons in Hws as [Hc _]. unfold isspace in Hc.
    unfold isdigit. lia. }
  cbn [app fscanf]. unfold scan_s. rewrite skip_space_app by done.
  change (codes "P6" ++ ?l) with (80 :: 54 :: l).
  rewrite skip_space_cons by done. cbn [scan_word]. cbn.
  rewrite scan_d_skip_space, (scan_d_print_d ws1)
    by first [done | by apply Hsep].
  rewrite int_Res by done. cbn.
  rewrite scan_d_skip_space, (scan_d_print_d ws2)
    by first [done | by apply Hsep].
  rewrite int_Res by done. cbn.
  rewrite scan_d_skip_space, (scan_d_print_d ws3) by done.
  rewrite int_Res by done. cbn.
  by destruct (fscanf fmt fp) as [[items fp']|].
Qed.

(** ** Image files of the shared-memory program *)

Lemma size_t_small v : 0 ≤ v < 2 ^ 64 → size_t v = v.
Proof. intros Hv. unfold size_t. by apply Z.mod_small. Qed.

Lemma create_image_int_Res width height channels :
  0 < width → 0 < height → 0 < channels →
  width * height * channels ≤ INT_MAX →
  create_image_int width height channels =
  Res (create_image width height channels).
Proof.
  intros Hw Hh Hc Hn. unfold create_image_int.
  rewrite int_Res by (unfold INT_MIN; nia). cbn.
  by rewrite int_Res by (unfold INT_MIN; nia).
Qed.

Lemma expected_small w h c :
  0 < w → 0 < h → 0 < c → w * h * c ≤ INT_MAX →
  size_t (size_t (size_t w * size_t h) * size_t c) = w * h * c.
Proof.
  intros Hw Hh Hc Hn. unfold INT_MAX in Hn.
  assert (w ≤ w * h) by nia. assert (h ≤ w * h) by nia.
  assert (w * h ≤ w * h * c) by nia. assert (c ≤ w * h * c) by nia.
  assert (2 ^ 64 = 18446744073709551616) as H64 by done.
  rewrite (size_t_small w), (size_t_small h) by lia.
  rewrite (size_t_small (w * h)), (size_t_small c) by lia.
  apply size_t_small. lia.
Qed.

(** [load_image] on a file with a well-formed header. *)
Lemma load_image_header fs filename ws0 ws1 ws2 ws3 w h m c rest :
  file fs filename =
    Some (ws0 ++ codes "P6" ++ ws1 ++ print_d w ++ ws2 ++ print_d h ++ ws3 ++
          print_d m ++ c :: rest) →
  Forall (fun c => isspace c = true) ws0 →
  Forall (fun c => isspace c = true) ws1 →
  Forall (fun c => isspace c = true) ws2 → ws2 ≠ [] →
  Forall (fun c => isspace c = true) ws3 → ws3 ≠ [] →
  0 < w → 0 < h → w * h * 3 ≤ INT_MAX → INT_MIN ≤ m ≤ INT_MAX →
  isdigit c = false →
  load_image fs filename =
  if w * h * 3 <=? Z.of_nat (length rest)
  then Res (Some {| data := take (Z.to_nat (w * h * 3)) rest; width := w;
                    height := h; channels := 3 |})
  else Res None.
Proof.
  intros Hfile H0 H1 H2 Hne2 H3 Hne3 Hw Hh Hn Hm Hc.
  unfold load_image. rewrite Hfile.
  pose proof (fscanf_header [] ws0 ws1 ws2 ws3 w h m (c :: rest)) as Hscan.
  change (?fmt ++ []) with fmt in Hscan. rewrite Hscan; try done;
    [|unfold INT_MIN, INT_MAX in *; nia..].
  cbn [fscanf mbind result_bind]. rewrite bool_decide_eq_true_2 by done.
  cbn [negb]. destruct (Z.leb_spec w 0); [lia|].
  destruct (Z.leb_spec h 0); [lia|]. cbn [orb].
  rewrite create_image_int_Res by lia. cbn [mbind result_bind].
  assert (size_t (size_t w * size_t h * 3) = w * h * 3) as ->.
  { unfold INT_MAX in Hn.
    assert (w ≤ w * h) by nia. assert (h ≤ w * h) by nia.
    assert (2 ^ 64 = 18446744073709551616) as H64 by done.
    rewrite (size_t_small w), (size_t_small h) by lia.
    apply size_t_small. lia. }
  unfold fread. cbn [data create_image].
  rewrite length_take.
  destruct (Z.leb_spec (w * h * 3) (Z.of_nat (length rest))) as [Hle|Hgt].
  - replace (Z.to_nat (w * h * 3) `min` length rest)%nat
      with (Z.to_nat (w * h * 3)) by lia.
    rewrite Z2Nat.id by lia. rewrite Z.eqb_refl. cbn [negb].
    rewrite drop_ge by (rewrite length_replicate; lia).
    by rewrite app_nil_r.
  - replace (Z.to_nat (w * h * 3) `min` length rest)%nat
      with (length rest) by lia.
    destruct (Z.eqb_spec (Z.of_nat (length rest)) (w * h * 3)); [lia|done].
Qed.

Lemma create_image_int_inv width height channels img :
  create_image_int width height channels = Res img →
  img = create_image width height channels ∧
  INT_MIN ≤ width * height * channels ≤ INT_MAX.
Proof.
  unfold create_image_int.
  destruct (int (width * height)) as [n|] eqn:E1; [|done].
  apply int_inv in E1 as [-> _]. cbn.
  destruct (int (width * height * channels)) as [n|] eqn:E2; [|done].
  apply int_inv in E2 as [-> ?]. cbn. by intros [= <-].
Qed.

Lemma fscanf_s_inv w fmt fp format items rest :
  fscanf (conv_s w :: fmt) fp = Res (item_s format :: items, rest) →
  ∃ fp', skip_space fp = format ++ fp'.
Proof.
  simpl. unfold scan_s.
  destruct (scan_word w (skip_space fp)) as [word fp'] eqn:E.
  apply scan_word_app in E. destruct word as [|c word]; [done|].
  destruct (fscanf fmt fp') as [[items' fp'']|]; [|done].
  cbn. intros [= <- <- <-]. by exists fp'.
Qed.

(** X1.  Every image [load_image] returns is well formed: positive
    dimensions, three channels, exactly [width * height * 3] bytes, a byte
    count that fits an [int]; the file starts, after white space, with
    ["P6"], and the pixel bytes are a segment of the file. *)
Theorem load_image_sound (fs : filesystem) (filename : string) (img : Image) :
  load_image fs filename = Res (Some img) →
  0 < width img ∧ 0 < height img ∧ channels img = 3 ∧
  Z.of_nat (length (data img)) = width img * height img * 3 ∧
  width img * height img * 3 ≤ INT_MAX ∧
  ∃ fp, file fs filename = Some fp ∧
    (∃ rest, skip_space fp = codes "P6" ++ rest) ∧
    (∃ header rest, fp = header ++ data img ++ rest).
Proof.
  unfold load_image. destruct (file fs filename) as [fp|]; [|done].
  destruct (fscanf _ fp) as [[items fp']|] eqn:Hscan; [|done].
  cbn [mbind result_bind].
  destruct items as [|[format|] [|[|w] [|[|h] [|[|m] [|]]]]]; try done.
  destruct (bool_decide_reflect (format = codes "P6")) as [->|]; [|done].
  cbn [negb]. destruct (Z.leb_spec w 0); [done|].
  destruct (Z.leb_spec h 0); [done|]. cbn [orb].
  destruct fp' as [|c fp']; [done|].
  destruct (create_image_int w h 3) as [created|] eqn:Hcreate; [|done].
  apply create_image_int_inv in Hcreate as [-> [_ Hn]].
  cbn [mbind result_bind].
  assert (size_t (size_t w * size_t h * 3) = w * h * 3) as ->.
  { unfold INT_MAX in Hn.
    assert (w ≤ w * h) by nia. assert (h ≤ w * h) by nia.
    assert (2 ^ 64 = 18446744073709551616) as H64 by done.
    rewrite (size_t_small w), (size_t_small h) by lia.
    apply size_t_small. lia. }
  unfold fread. cbn [data create_image]. rewrite length_take.
  destruct (Z.eqb_spec (Z.of_nat (Z.to_nat (w * h * 3) `min` length fp'))
              (w * h * 3)) as [Hread|]; [|done].
  cbn [negb]. intros [= <-]. cbn [width height channels data].
  rewrite drop_ge by (rewrite length_replicate; lia).
  rewrite app_nil_r, length_take.
  split; [done|]. split; [done|]. split; [done|]. split; [done|].
  split; [done|]. exists fp. split; [done|]. split.
  - by apply fscanf_s_inv in Hscan.
  - apply fscanf_suffix in Hscan as [header ->].
    exists (header ++ [c]), (drop (Z.to_nat (w * h * 3)) fp').
    rewrite <- app_assoc. simpl. by rewrite take_drop.
Qed.

Lemma load_image_sound_witness :
  0 < 1 ∧ 0 < 2 ∧ 3 = 3 ∧ Z.of_nat 6 = 1 * 2 * 3 ∧ 1 * 2 * 3 ≤ INT_MAX ∧
  ∃ fp, file two_pixels_file "in.ppm" = Some fp ∧
    (∃ rest, skip_space fp = codes "P6" ++ rest) ∧
    (∃ header rest, fp = header ++ [100; 150; 200; 250; 7; 230] ++ rest).
Proof.
  apply (load_image_sound two_pixels_file "in.ppm" two_pixels).
  vm_compute. reflexivity.
Defined.

Lemma ppm_header_app width height data :
  ppm_header width height ++ data =
  [] ++ codes "P6" ++ [10] ++ print_d width ++ [32] ++ print_d height ++
  [10] ++ print_d 255 ++ 10 :: data.
Proof.
  unfold ppm_header. rewrite <- !app_assoc.
  by change (print_d 255) with (codes "255").
Qed.

Lemma fwrite_all data n :
  Z.of_nat (length data) = n → fwrite data n = Res data.
Proof.
  intros Hn. unfold fwrite. rewrite read_range_Ok by lia.
  by rewrite slice_all.
Qed.

Lemma save_image_Res fs filename img :
  writable fs filename = true →
  0 < width img → 0 < height img → 0 < channels img →
  Z.of_nat (length (data img)) = width img * height img * channels img →
  width img * height img * channels img ≤ INT_MAX →
  save_image fs filename img =
  Res (write_file fs filename
         (ppm_header (width img) (height img) ++ data img)).
Proof.
  intros Hwr Hw Hh Hc Hlen Hn. unfold save_image. rewrite Hwr.
  rewrite expected_small by done. by rewrite fwrite_all by done.
Qed.

Lemma file_write_file fs filename bytes :
  file (write_file fs filename bytes) filename = Some bytes.
Proof. unfold write_file. simpl. by rewrite fn_lookup_insert. Qed.

Lemma load_image_saved fs filename w h data :
  file fs filename = Some (ppm_header w h ++ data) →
  0 < w → 0 < h → Z.of_nat (length data) = w * h * 3 → w * h * 3 ≤ INT_MAX →
  load_image fs filename =
  Res (Some {| data := data; width := w; height := h; channels := 3 |}).
Proof.
  intros Hfile Hw Hh Hlen Hn. rewrite ppm_header_app in Hfile.
  rewrite (load_image_header _ _ _ _ _ _ _ _ _ _ _ Hfile); try done;
    try (by repeat constructor).
  destruct (Z.leb_spec (w * h * 3) (Z.of_nat (length data))); [|lia].
  by rewrite take_ge by lia.
Qed.

(** X2.  Round trip: an image with three channels that [save_image] writes,
    [load_image] reads back unchanged. *)
Theorem save_image_load_image (fs : filesystem) (filename : string)
    (img : Image) :
  writable fs filename = true →
  0 < width img → 0 < height img → channels img = 3 →
  Z.of_nat (length (data img)) = width img * height img * 3 →
  width img * height img * 3 ≤ INT_MAX →
  ∃ fs', save_image fs filename img = Res fs' ∧
         load_image fs' filename = Res (Some img).
Proof.
  intros Hwr Hw Hh Hc Hlen Hn. destruct img as [d w h c].
  simpl in *. subst c.
  eexists. split; [by apply save_image_Res|].
  apply load_image_saved; [apply file_write_file|done..].
Qed.

Lemma save_image_load_image_witness :
  ∃ fs', save_image no_files "out.ppm" two_pixels = Res fs' ∧
         load_image fs' "out.ppm" = Res (Some two_pixels).
Proof.
  apply (save_image_load_image no_files "out.ppm" two_pixels);
    [reflexivity|simpl; lia|simpl; lia|reflexivity|reflexivity|done].
Defined.

(** X3.  [load_image] is lenient: any white space between the fields of
    the header, any [max_val], any single byte that is not a digit after
    [max_val], and any bytes after the pixels give the same image. *)
Theorem load_image_lenient (fs : filesystem) (filename : string)
    (ws0 ws1 ws2 ws3 : list Z) (w h m c : Z) (pixels extra : list Z) :
  file fs filename =
    Some (ws0 ++ codes "P6" ++ ws1 ++ print_d w ++ ws2 ++ print_d h ++ ws3 ++
          print_d m ++ c :: pixels ++ extra) →
  Forall (fun c => isspace c = true) ws0 →
  Forall (fun c => isspace c = true) ws1 →
  Forall (fun c => isspace c = true) ws2 → ws2 ≠ [] →
  Forall (fun c => isspace c = true) ws3 → ws3 ≠ [] →
  0 < w → 0 < h → w * h * 3 ≤ INT_MAX → INT_MIN ≤ m ≤ INT_MAX →
  isdigit c = false →
  Z.of_nat (length pixels) = w * h * 3 →
  load_image fs filename =
  Res (Some {| data := pixels; width := w; height := h; channels := 3 |}).
Proof.
  intros Hfile H0 H1 H2 Hne2 H3 Hne3 Hw Hh Hn Hm Hc Hlen.
  rewrite (load_image_header _ _ _ _ _ _ _ _ _ _ _ Hfile) by done.
  rewrite length_app.
  destruct (Z.leb_spec (w * h * 3)
              (Z.of_nat (length pixels + length extra))); [|lia].
  by rewrite take_app_length' by lia.
Qed.

(** White space of several kinds, [max_val] 65535, the byte [x] after it
    and two bytes after the pixel. *)
Lemma load_image_lenient_witness :
  load_image
    (write_file no_files "odd.ppm"
       ([32; 10] ++ codes "P6" ++ [] ++ print_d 1 ++ [9; 13] ++ print_d 1 ++
        [10; 10] ++ print_d 65535 ++ 120 :: [1; 2; 3] ++ [4; 5]))
    "odd.ppm" =
  Res (Some {| data := [1; 2; 3]; width := 1; height := 1; channels := 3 |}).
Proof.
  apply (load_image_lenient _ "odd.ppm" [32; 10] [] [9; 13] [10; 10]
           1 1 65535 120 [1; 2; 3] [4; 5]);
    try done; try (by repeat constructor); lia.
Defined.

(** X4.  A file with fewer than [width * height * 3] bytes after the header
    is not loaded at all. *)
Theorem load_image_truncated (fs : filesystem) (filename : string)
    (ws0 ws1 ws2 ws3 : list Z) (w h m c : Z) (pixels : list Z) :
  file fs filename =
    Some (ws0 ++ codes "P6" ++ ws1 ++ print_d w ++ ws2 ++ print_d h ++ ws3 ++
          print_d m ++ c :: pixels) →
  Forall (fun c => isspace c = true) ws0 →
  Forall (fun c => isspace c = true) ws1 →
  Forall (fun c => isspace c = true) ws2 → ws2 ≠ [] →
  Forall (fun c => isspace c = true) ws3 → ws3 ≠ [] →
  0 < w → 0 < h → w * h * 3 ≤ INT_MAX → INT_MIN ≤ m ≤ INT_MAX →
  isdigit c = false →
  Z.of_nat (length pixels) < w * h * 3 →
  load_image fs filename = Res None.
Proof.
  intros Hfile H0 H1 H2 Hne2 H3 Hne3 Hw Hh Hn Hm Hc Hlen.
  rewrite (load_image_header _ _ _ _ _ _ _ _ _ _ _ Hfile) by done.
  by destruct (Z.leb_spec (w * h * 3) (Z.of_nat (length pixels))); [lia|].
Qed.

Lemma load_image_truncated_witness :
  load_image
    (write_file no_files "short.ppm" (ppm_header 1 2 ++ [1; 2; 3; 4; 5]))
    "short.ppm" = Res None.
Proof.
  apply (load_image_truncated _ "short.ppm" [] [10] [32] [10] 1 2 255 10
           [1; 2; 3; 4; 5]);
    try done; try (by repeat constructor); simpl; lia.
Defined.

Lemma scan_d_no_number ws c fp :
  Forall (fun c => isspace c = true) ws →
  isspace c = false → isdigit c = false → c ≠ 45 → c ≠ 43 →
  scan_d (ws ++ c :: fp) = (None, c :: fp).
Proof.
  intros Hws Hsp Hd H45 H43. unfold scan_d.
  rewrite skip_space_app, skip_space_cons by done.
  destruct (Z.eqb_spec c 45); [done|]. destruct (Z.eqb_spec c 43); [done|].
  by rewrite Hd.
Qed.

(** X5.  Comment lines are not understood: when the first byte after the
    magic number and white space is neither a digit nor a sign, as the [#]
    of a comment, the file is not loaded. *)
Theorem load_image_no_comment (fs : filesystem) (filename : string)
    (ws0 ws1 : list Z) (c : Z) (rest : list Z) :
  file fs filename = Some (ws0 ++ codes "P6" ++ ws1 ++ c :: rest) →
  Forall (fun c => isspace c = true) ws0 →
  Forall (fun c => isspace c = true) ws1 →
  isspace c = false → isdigit c = false → c ≠ 45 → c ≠ 43 →
  load_image fs filename = Res None.
Proof.
  intros Hfile H0 H1 Hsp Hd H45 H43. unfold load_image. rewrite Hfile.
  cbn [fscanf]. unfold scan_s. rewrite skip_space_app by done.
  change (codes "P6" ++ ?l) with (80 :: 54 :: l).
  rewrite skip_space_cons by done. cbn [scan_word]. cbn.
  by rewrite scan_d_skip_space, scan_d_no_number by done.
Qed.

(** A header with a comment line after the magic number. *)
Lemma load_image_no_comment_witness :
  load_image
    (write_file no_files "c.ppm"
       ([] ++ codes "P6" ++ [10] ++ 35 :: codes " made by hand" ++ [10] ++
        codes "1 1" ++ [10] ++ codes "255" ++ [10; 1; 2; 3]))
    "c.ppm" = Res None.
Proof.
  apply (load_image_no_comment _ "c.ppm" [] [10] 35
           (codes " made by hand" ++ [10] ++ codes "1 1" ++ [10] ++
            codes "255" ++ [10; 1; 2; 3]));
    try done; by repeat constructor.
Defined.

(** ** Image files of the distributed program *)

Lemma skip_space_stop fp :
  match fp with c :: _ => isspace c = false | [] => True end →
  skip_space fp = fp.
Proof. destruct fp as [|c fp]; [done|]. apply skip_space_cons. Qed.

(** [load_image] of the distributed program on a file with a well-formed
    header: the bytes after the header and the white space that follows it,
    padded with the zeros of [calloc]. *)
Lemma load_image_mpi_header fs filename ws0 ws1 ws2 ws3 w h m rest :
  file fs filename =
    Some (ws0 ++ codes "P6" ++ ws1 ++ print_d w ++ ws2 ++ print_d h ++ ws3 ++
          print_d m ++ rest) →
  Forall (fun c => isspace c = true) ws0 →
  Forall (fun c => isspace c = true) ws1 →
  Forall (fun c => isspace c = true) ws2 → ws2 ≠ [] →
  Forall (fun c => isspace c = true) ws3 → ws3 ≠ [] →
  INT_MIN ≤ w ≤ INT_MAX → INT_MIN ≤ h ≤ INT_MAX → INT_MIN ≤ m ≤ INT_MAX →
  0 ≤ w * h → w * h * 3 ≤ INT_MAX →
  match rest with c :: _ => isdigit c = false | [] => True end →
  load_image_mpi fs filename =
  let bytes := take (Z.to_nat (w * h * 3)) (skip_space rest) in
  Res (Some {| data := bytes ++
                       replicate (Z.to_nat (w * h * 3) - length bytes) 0;
               width := w; height := h; channels := 3 |}).
Proof.
  intros Hfile H0 H1 H2 Hne2 H3 Hne3 Hw Hh Hm Hpos Hn Hrest.
  unfold load_image_mpi. rewrite Hfile.
  rewrite (fscanf_header [white]) by done.
  cbn [fscanf mbind result_bind]. rewrite bool_decide_eq_true_2 by done.
  cbn [negb]. unfold create_image_int.
  rewrite !int_Res by (unfold INT_MIN, INT_MAX in *; lia).
  cbn [mbind result_bind].
  rewrite !int_Res by (unfold INT_MIN, INT_MAX in *; lia).
  cbn [mbind result_bind].
  destruct (Z.ltb_spec (w * h * 3) 0); [lia|].
  rewrite size_t_small by (unfold INT_MAX in Hn; lia).
  unfold fread. cbn [data create_image]. cbv zeta.
  by rewrite drop_replicate.
Qed.

(** X6.  The round trip of the distributed program loses the white space at
    the start of the pixels: when the image data starts with [k] bytes that
    are white space (codes 9 to 13 and 32), [load_image] reads the file
    [save_image] wrote as the remaining bytes followed by [k] zeros.  The
    image comes back unchanged exactly when [k] is 0. *)
Theorem save_image_mpi_load_image_mpi (fs : filesystem) (filename : string)
    (w h : Z) (ws pixels : list Z) :
  writable fs filename = true →
  0 < w → 0 < h →
  Z.of_nat (length (ws ++ pixels)) = w * h * 3 → w * h * 3 ≤ INT_MAX →
  Forall (fun c => isspace c = true) ws →
  match pixels with c :: _ => isspace c = false | [] => True end →
  ∃ fs',
    save_image_mpi fs filename
      {| data := ws ++ pixels; width := w; height := h; channels := 3 |} =
      Res fs' ∧
    load_image_mpi fs' filename =
      Res (Some {| data := pixels ++ replicate (length ws) 0; width := w;
                   height := h; channels := 3 |}).
Proof.
  intros Hwr Hw Hh Hlen Hn Hws Hpix.
  assert (0 ≤ w * h ≤ w * h * 3) by nia.
  assert (w ≤ w * h ∧ h ≤ w * h) as [? ?] by nia.
  eexists. split.
  - unfold save_image_mpi. rewrite Hwr. cbn [width height channels data].
    rewrite !int_Res by (unfold INT_MIN, INT_MAX in *; lia).
    cbn [mbind result_bind].
    rewrite !int_Res by (unfold INT_MIN, INT_MAX in *; lia).
    cbn [mbind result_bind].
    rewrite size_t_small by (unfold INT_MAX in Hn; lia).
    by rewrite fwrite_all by done.
  - erewrite (load_image_mpi_header _ _ [] [10] [32] [10] w h 255
                (10 :: ws ++ pixels));
      [|rewrite file_write_file, ppm_header_app; reflexivity
       |try done; try (by repeat constructor);
        unfold INT_MIN, INT_MAX in *; lia..].
    cbv zeta.
    change (10 :: ws ++ pixels) with ([10] ++ ws ++ pixels).
    rewrite !skip_space_app by (done || by repeat constructor).
    rewrite skip_space_stop by done.
    rewrite length_app in Hlen.
    rewrite take_ge by lia.
    by replace (Z.to_nat (w * h * 3) - length pixels)%nat with (length ws)
      by lia.
Qed.

(** An image whose first two bytes are a line feed and a space. *)
Lemma save_image_mpi_load_image_mpi_witness :
  ∃ fs',
    save_image_mpi no_files "out.ppm"
      {| data := [10; 32] ++ [7; 8; 9; 10]; width := 1; height := 2;
         channels := 3 |} = Res fs' ∧
    load_image_mpi fs' "out.ppm" =
      Res (Some {| data := [7; 8; 9; 10] ++ replicate 2 0; width := 1;
                   height := 2; channels := 3 |}).
Proof.
  apply (save_image_mpi_load_image_mpi no_files "out.ppm" 1 2 [10; 32]
           [7; 8; 9; 10]);
    try done; try (by repeat constructor); lia.
Defined.

(** X7.  [load_image] of the distributed program checks nothing but the
    magic number: dimensions of either sign are accepted as long as their
    product is not negative, and a file with too few bytes gives an image
    whose missing bytes are 0. *)
Theorem load_image_mpi_unchecked (fs : filesystem) (filename : string)
    (ws0 ws1 ws2 ws3 sep : list Z) (w h m : Z) (pixels : list Z) :
  file fs filename =
    Some (ws0 ++ codes "P6" ++ ws1 ++ print_d w ++ ws2 ++ print_d h ++ ws3 ++
          print_d m ++ sep ++ pixels) →
  Forall (fun c => isspace c = true) ws0 →
  Forall (fun c => isspace c = true) ws1 →
  Forall (fun c => isspace c = true) ws2 → ws2 ≠ [] →
  Forall (fun c => isspace c = true) ws3 → ws3 ≠ [] →
  Forall (fun c => isspace c = true) sep → sep ≠ [] →
  INT_MIN ≤ w ≤ INT_MAX → INT_MIN ≤ h ≤ INT_MAX → INT_MIN ≤ m ≤ INT_MAX →
  0 ≤ w * h → w * h * 3 ≤ INT_MAX →
  match pixels with c :: _ => isspace c = false | [] => True end →
  Z.of_nat (length pixels) ≤ w * h * 3 →
  load_image_mpi fs filename =
  Res (Some {| data := pixels ++
                 replicate (Z.to_nat (w * h * 3) - length pixels) 0;
               width := w; height := h; channels := 3 |}).
Proof.
  intros Hfile H0 H1 H2 Hne2 H3 Hne3 Hsep Hnesep Hw Hh Hm Hpos Hn Hpix Hlen.
  rewrite (load_image_mpi_header _ _ _ _ _ _ _ _ _ _ Hfile); try done.
  - cbv zeta. rewrite skip_space_app, skip_space_stop by done.
    by rewrite take_ge by lia.
  - destruct sep as [|c sep]; [done|]. simpl.
    apply Forall_cons in Hsep as [Hc _]. unfold isspace in Hc.
    unfold isdigit. lia.
Qed.

(** Negative dimensions and two bytes where three are announced. *)
Lemma load_image_mpi_unchecked_witness :
  load_image_mpi
    (write_file no_files "neg.ppm"
       ([] ++ codes "P6" ++ [10] ++ print_d (-1) ++ [32] ++ print_d (-1) ++
        [10] ++ print_d 255 ++ [10] ++ [1; 2]))
    "neg.ppm" =
  Res (Some {| data := [1; 2] ++ replicate (Z.to_nat (-1 * -1 * 3) - 2) 0;
               width := -1; height := -1; channels := 3 |}).
Proof.
  apply (load_image_mpi_unchecked _ "neg.ppm" [] [10] [32] [10] [10]
           (-1) (-1) 255 [1; 2]);
    try done; try (by repeat constructor); unfold INT_MIN, INT_MAX; simpl; lia.
Defined.

Lemma load_image_inv fs filename img :
  load_image fs filename = Res (Some img) →
  0 < width img ∧ 0 < height img ∧ channels img = 3 ∧
  Z.of_nat (length (data img)) = width img * height img * 3 ∧
  width img * height img * 3 ≤ INT_MAX.
Proof.
  unfold load_image. destruct (file fs filename) as [fp|]; [|done].
  destruct (fscanf _ fp) as [[items fp']|] eqn:Hscan; [|done].
  cbn [mbind result_bind].
  destruct items as [|[format|] [|[|w] [|[|h] [|[|m] [|]]]]]; try done.
  destruct (bool_decide_reflect (format = codes "P6")) as [->|]; [|done].
  cbn [negb]. destruct (Z.leb_spec w 0); [done|].
  destruct (Z.leb_spec h 0); [done|]. cbn [orb].
  destruct fp' as [|c fp']; [done|].
  destruct (create_image_int w h 3) as [created|] eqn:Hcreate; [|done].
  apply create_image_int_inv in Hcreate as [-> [_ Hn]].
  cbn [mbind result_bind].
  assert (size_t (size_t w * size_t h * 3) = w * h * 3) as ->.
  { unfold INT_MAX in Hn.
    assert (w ≤ w * h) by nia. assert (h ≤ w * h) by nia.
    assert (2 ^ 64 = 18446744073709551616) as H64 by done.
    rewrite (size_t_small w), (size_t_small h) by lia.
    apply size_t_small. lia. }
  unfold fread. cbn [data create_image]. rewrite length_take.
  destruct (Z.eqb_spec (Z.of_nat (Z.to_nat (w * h * 3) `min` length fp'))
              (w * h * 3)) as [Hread|]; [|done].
  cbn [negb]. intros [= <-]. cbn [width height channels data].
  rewrite drop_ge by (rewrite length_replicate; lia).
  by rewrite app_nil_r, length_take.
Qed.

Lemma load_image_mpi_inv fs filename img :
  load_image_mpi fs filename = Res (Some img) →
  channels img = 3 ∧
  Z.of_nat (length (data img)) = width img * height img * 3 ∧
  0 ≤ width img * height img * 3 ≤ INT_MAX.
Proof.
  unfold load_image_mpi. destruct (file fs filename) as [fp|]; [|done].
  destruct (fscanf _ fp) as [[items fp']|] eqn:Hscan; [|done].
  cbn [mbind result_bind].
  destruct items as [|[format|] items]; try done.
  destruct (bool_decide (format = codes "P6")); [|done]. cbn [negb].
  destruct items as [|[|w] [|[|h] items]]; try done.
  destruct (create_image_int w h 3) as [created|] eqn:Hcreate; [|done].
  apply create_image_int_inv in Hcreate as [-> [_ Hn]].
  cbn [mbind result_bind].
  destruct (int (w * h)) as [n|] eqn:E1; [|done].
  apply int_inv in E1 as [-> _]. cbn [mbind result_bind].
  destruct (int (w * h * 3)) as [n|] eqn:E2; [|done].
  apply int_inv in E2 as [-> _]. cbn [mbind result_bind].
  destruct (Z.ltb_spec (w * h * 3) 0); [done|].
  rewrite size_t_small by (unfold INT_MAX in Hn; lia).
  unfold fread. cbn [data create_image]. intros [= <-].
  cbn [width height channels data].
  rewrite length_app, length_drop, length_replicate, length_take.
  split; [done|]. split; lia.
Qed.

Lemma skip_space_all ws :
  Forall (fun c => isspace c = true) ws → skip_space ws = [].
Proof. intros Hws. rewrite <- (app_nil_r ws). by rewrite skip_space_app. Qed.

(** X8.  An empty file, or one of white space only: the shared-memory
    program does not load it; the distributed program compares the format
    it never read with ["P6"], which is undefined. *)
Theorem load_image_blank_file (fs : filesystem) (filename : string)
    (ws : list Z) :
  file fs filename = Some ws →
  Forall (fun c => isspace c = true) ws →
  load_image fs filename = Res None ∧
  load_image_mpi fs filename = Undef Indeterminate.
Proof.
  intros Hfile Hws. unfold load_image, load_image_mpi. rewrite Hfile.
  cbn [fscanf]. unfold scan_s. by rewrite skip_space_all.
Qed.

Lemma load_image_blank_file_witness :
  load_image (write_file no_files "blank.ppm" [32; 10; 9]) "blank.ppm" =
    Res None ∧
  load_image_mpi (write_file no_files "blank.ppm" [32; 10; 9]) "blank.ppm" =
    Undef Indeterminate.
Proof.
  apply (load_image_blank_file _ "blank.ppm" [32; 10; 9]);
    [reflexivity|by repeat constructor].
Defined.

(** ** Whole runs of the shared-memory filters *)

(** Every filter of the shared-memory program completes on a well-formed
    image and returns an image of the same shape. *)
Lemma omp_main_shape filter (img : Image) :
  0 < width img → 0 < height img → 0 < channels img →
  Z.of_nat (length (data img)) = width img * height img * channels img →
  ∃ output, omp_main filter img = Ok output ∧
    width output = width img ∧ height output = height img ∧
    channels output = channels img ∧
    Z.of_nat (length (data output)) = width img * height img * channels img.
Proof.
  intros Hw Hh Hc Hlen.
  assert (Z.of_nat (length (data (create_image (width img) (height img)
                                    (channels img)))) =
          width img * height img * channels img) as Hout
    by (apply create_image_len; lia).
  destruct filter.
  - edestruct (omp_main_fills Grayscale img)
      as (output & Hrun & ? & ? & ? & ? & _); [done|lia|done| |by eauto 10].
    by apply grayscale_filter_fills; [|lia|..].
  - edestruct (omp_main_fills Blur img)
      as (output & Hrun & ? & ? & ? & ? & _); [done|lia|done| |by eauto 10].
    by apply gaussian_blur_filter_fills; [|lia|..].
  - edestruct (omp_main_fills Edge img)
      as (output & Hrun & ? & ? & ? & ? & _); [done|lia|done| |by eauto 10].
    by apply sobel_edge_filter_fills; [|lia|..].
  - edestruct (omp_main_fills Brighten img)
      as (output & Hrun & ? & ? & ? & ? & _); [done|lia|done| |by eauto 10].
    by apply brightness_filter_fills; [|lia|..].
Qed.

(** ** The programs *)

Lemma omp_program_run team prog input_file output_file filter_type threads
    more fs t img filter output :
  atoi threads = Res t → 1 ≤ t → team t = true →
  load_image fs input_file = Res (Some img) →
  filter_of filter_type = Some filter →
  omp_main filter img = Ok output →
  omp_program team
    (prog :: input_file :: output_file :: filter_type :: threads :: more) fs =
  fs' ← save_image fs output_file output; Res (Exit 0, fs').
Proof.
  intros Hatoi Ht Hteam Hload Hfilter Hrun. unfold omp_program.
  replace (length _ <? 5)%nat with false
    by (symmetry; apply Nat.ltb_ge; simpl; lia).
  unfold arg. cbn [nth]. rewrite Hatoi. cbn [mbind result_bind].
  destruct (Z.ltb_spec t 1); [lia|].
  rewrite Hload. cbn [mbind result_bind].
  destruct (load_image_inv _ _ _ Hload) as (Hw & Hh & Hc & Hlen & Hn).
  rewrite Hc. rewrite create_image_int_Res by done.
  cbn [mbind result_bind]. rewrite Hfilter, Hteam, Hrun. done.
Qed.

(** X9.  A run of the shared-memory program on a loadable image and a known
    filter exits with status 0 and leaves, in the output file, the header
    of the input dimensions followed by the bytes of the filtered image;
    [load_image] reads that file back as the filtered image.  This holds
    for every thread count from 1 on that the OpenMP runtime can start, and
    the file is the same for all of them. *)
Theorem omp_program_writes_filtered_image (team : Z → bool)
    (prog input_file output_file filter_type threads : string)
    (more : list string) (fs : filesystem) (t : Z) (img : Image)
    (filter : FilterKind) :
  atoi threads = Res t → 1 ≤ t → team t = true →
  load_image fs input_file = Res (Some img) →
  filter_of filter_type = Some filter →
  writable fs output_file = true →
  ∃ output fs',
    omp_main filter img = Ok output ∧
    omp_program team
      (prog :: input_file :: output_file :: filter_type :: threads :: more)
      fs = Res (Exit 0, fs') ∧
    file fs' output_file =
      Some (ppm_header (width img) (height img) ++ data output) ∧
    (∀ name, name ≠ output_file → file fs' name = file fs name) ∧
    load_image fs' output_file = Res (Some output).
Proof.
  intros Hatoi Ht Hteam Hload Hfilter Hwr.
  destruct (load_image_inv _ _ _ Hload) as (Hw & Hh & Hc & Hlen & Hn).
  destruct (omp_main_shape filter img) as (output & Hrun & Hw' & Hh' & Hc' &
    Hlen'); [lia..|].
  rewrite Hc in *.
  exists output, (write_file fs output_file
                    (ppm_header (width img) (height img) ++ data output)).
  split; [done|]. split; [|split; [|split]].
  - rewrite (omp_program_run _ _ _ _ _ _ _ _ _ _ _ _ Hatoi Ht Hteam Hload
               Hfilter Hrun).
    rewrite save_image_Res by (rewrite ?Hw', ?Hh', ?Hc'; done || lia).
    by rewrite Hw', Hh'.
  - apply file_write_file.
  - intros name Hname. unfold write_file. simpl.
    by rewrite fn_lookup_insert_ne.
  - destruct output as [d w h c]. simpl in *. subst w h c.
    apply load_image_saved; [apply file_write_file|done..].
Qed.

Lemma omp_program_writes_filtered_image_witness :
  ∃ output fs',
    omp_main Brighten two_pixels = Ok output ∧
    omp_program (up_to 64) ["omp"; "in.ppm"; "out.ppm"; "brighten"; "4"]
      two_pixels_file = Res (Exit 0, fs') ∧
    file fs' "out.ppm" = Some (ppm_header 1 2 ++ data output) ∧
    (∀ name, name ≠ "out.ppm" → file fs' name = file two_pixels_file name) ∧
    load_image fs' "out.ppm" = Res (Some output).
Proof.
  apply (omp_program_writes_filtered_image (up_to 64) "omp" "in.ppm"
           "out.ppm" "brighten" "4" [] two_pixels_file 4 two_pixels Brighten);
    [reflexivity|lia|reflexivity|vm_compute; reflexivity|reflexivity|
     reflexivity].
Defined.

(** X10.  When the output file cannot be opened, the shared-memory program
    says nothing: with a thread count the OpenMP runtime can start, it still
    exits with status 0 and no file has changed. *)
Theorem omp_program_silent_when_unwritable (team : Z → bool)
    (prog input_file output_file filter_type threads : string)
    (more : list string) (fs : filesystem) (t : Z) (img : Image)
    (filter : FilterKind) :
  atoi threads = Res t → 1 ≤ t → team t = true →
  load_image fs input_file = Res (Some img) →
  filter_of filter_type = Some filter →
  writable fs output_file = false →
  omp_program team
    (prog :: input_file :: output_file :: filter_type :: threads :: more) fs =
  Res (Exit 0, fs).
Proof.
  intros Hatoi Ht Hteam Hload Hfilter Hwr.
  destruct (load_image_inv _ _ _ Hload) as (Hw & Hh & Hc & Hlen & Hn).
  destruct (omp_main_shape filter img) as (output & Hrun & _); [lia..|].
  rewrite (omp_program_run _ _ _ _ _ _ _ _ _ _ _ _ Hatoi Ht Hteam Hload
             Hfilter Hrun).
  unfold save_image. by rewrite Hwr.
Qed.

Lemma omp_program_silent_when_unwritable_witness :
  omp_program (up_to 64) ["omp"; "in.ppm"; "out.ppm"; "blur"; "2"]
    (read_only two_pixels_file) = Res (Exit 0, read_only two_pixels_file).
Proof.
  apply (omp_program_silent_when_unwritable (up_to 64) "omp" "in.ppm"
           "out.ppm" "blur" "2" [] (read_only two_pixels_file) 2 two_pixels
           Blur);
    [reflexivity|lia|reflexivity|vm_compute; reflexivity|reflexivity|
     reflexivity].
Defined.




(** The image the shared-memory program computes, for the filters that
    write every byte. *)
Lemma omp_main_image filter width height channels input :
  0 < width → 0 < height → 0 < channels →
  Z.of_nat (length input) = width * height * channels →
  filter ≠ Edge → (filter = Grayscale → channels ≤ 4) →
  omp_main filter {| data := input; width := width; height := height;
                     channels := channels |} =
  Ok {| data := buffer_of (width * height * channels)
                  (mpi_spec filter width height channels input);
        width := width; height := height; channels := channels |}.
Proof.
  intros Hw Hh Hc Hlen Hedge Hgray.
  assert (Z.of_nat (length (data (create_image width height channels))) =
          width * height * channels) as Hout
    by (apply create_image_len; lia).
  destruct filter; [| |done|].
  - edestruct (omp_main_fills Grayscale
                 {| data := input; width := width; height := height;
                    channels := channels |})
      as (output & Hrun & Hw' & Hh' & Hc' & Hlen' & Hin & _);
      [done|simpl; lia|done| |].
    { simpl. by apply grayscale_filter_fills; [|lia|..]. }
    simpl in *. rewrite Hrun. f_equal. destruct output as [d w h c].
    simpl in *. subst w h c. f_equal. apply buffer_of_eq; [done|].
    intros idx Hidx. apply Hin.
    destruct (offset_cover width channels Hw Hc height idx Hidx)
      as (Heq & Hi & Hj & Hcc).
    exists (row_of width channels idx). split; [done|].
    exists (col_of width channels idx). split; [done|].
    exists (chan_of channels idx). split; [|done].
    specialize (Hgray eq_refl). lia.
  - by apply omp_blur_image.
  - edestruct (omp_main_fills Brighten
                 {| data := input; width := width; height := height;
                    channels := channels |})
      as (output & Hrun & Hw' & Hh' & Hc' & Hlen' & Hin & _);
      [done|simpl; lia|done| |].
    { simpl. by apply brightness_filter_fills; [|lia|..]. }
    simpl in *. rewrite Hrun. f_equal. destruct output as [d w h c].
    simpl in *. subst w h c. f_equal. by apply buffer_of_eq.
Qed.

(** X12.  The two programs compute the same image: for grayscale (up to
    four channels), blur and brighten, the distributed program with any
    number of workers (at most one per row for blur) returns what the
    shared-memory program returns. *)
Theorem strategies_agree (width height channels size : Z) (input : list Z)
    (filter : FilterKind) :
  0 < width → 0 < height → 0 < channels → 1 ≤ size →
  Z.of_nat (length input) = width * height * channels →
  filter ≠ Edge → (filter = Grayscale → channels ≤ 4) →
  (filter = Blur → size ≤ height) →
  mpi_main size filter {| data := input; width := width; height := height;
                          channels := channels |} =
  omp_main filter {| data := input; width := width; height := height;
                     channels := channels |}.
Proof.
  intros Hw Hh Hc Hs Hlen Hedge Hgray Hblur.
  rewrite omp_main_image by done.
  apply mpi_main_image; try done. intros [?|?]; [by apply Hblur|done].
Qed.

Lemma strategies_agree_witness :
  mpi_main 2 Blur two_pixels = omp_main Blur two_pixels.
Proof.
  apply (strategies_agree 1 2 3 2 [100; 150; 200; 250; 7; 230] Blur);
    try done; lia.
Defined.

Lemma mpi_program_run size prog input_file output_file filter_type more fs
    img filter :
  load_image_mpi fs input_file = Res (Some img) →
  filter_of filter_type = Some filter →
  mpi_program size (prog :: input_file :: output_file :: filter_type :: more)
    fs =
  output ← of_outcome (mpi_main size filter img);
  fs' ← save_image_mpi fs output_file output; Res (Exit 0, fs').
Proof.
  intros Hload Hfilter. unfold mpi_program.
  replace (length _ <? 4)%nat with false
    by (symmetry; apply Nat.ltb_ge; simpl; lia).
  unfold arg. cbn [nth]. rewrite Hload. cbn [mbind result_bind].
  by rewrite Hfilter.
Qed.

Lemma save_image_mpi_Res fs filename img :
  writable fs filename = true →
  0 < width img → 0 < height img → 0 < channels img →
  Z.of_nat (length (data img)) = width img * height img * channels img →
  width img * height img * channels img ≤ INT_MAX →
  save_image_mpi fs filename img =
  Res (write_file fs filename
         (ppm_header (width img) (height img) ++ data img)).
Proof.
  intros Hwr Hw Hh Hc Hlen Hn. unfold save_image_mpi. rewrite Hwr.
  assert (0 < width img * height img ≤ width img * height img * channels img)
    by nia.
  rewrite !int_Res by (unfold INT_MIN, INT_MAX in *; lia).
  cbn [mbind result_bind].
  rewrite !int_Res by (unfold INT_MIN, INT_MAX in *; lia).
  cbn [mbind result_bind].
  rewrite size_t_small by (unfold INT_MAX in Hn; lia).
  by rewrite fwrite_all by done.
Qed.

Lemma mpi_program_writes_filtered_image_aux (size : Z)
    (prog input_file output_file filter_type : string) (more : list string)
    (fs : filesystem) (img : Image) (filter : FilterKind) :
  1 ≤ size →
  load_image_mpi fs input_file = Res (Some img) →
  0 < width img → 0 < height img →
  filter_of filter_type = Some filter →
  (filter = Blur ∨ filter = Edge → size ≤ height img) →
  writable fs output_file = true →
  mpi_program size (prog :: input_file :: output_file :: filter_type :: more)
    fs =
  Res (Exit 0,
       write_file fs output_file
         (ppm_header (width img) (height img) ++
          buffer_of (width img * height img * 3)
            (mpi_spec filter (width img) (height img) 3 (data img)))).
Proof.
  intros Hs Hload Hw Hh Hfilter Hstencil Hwr.
  destruct (load_image_mpi_inv _ _ _ Hload) as (Hc & Hlen & Hn).
  rewrite (mpi_program_run _ _ _ _ _ _ _ _ _ Hload Hfilter).
  destruct img as [d w h c]. simpl in *. subst c.
  rewrite mpi_main_image by done. cbn [of_outcome mbind result_bind].
  rewrite save_image_mpi_Res; [done..| |];
    cbn [data width height channels];
    [rewrite length_buffer_of; lia|lia].
Qed.

(** X13.  A run of the distributed program on an image of positive
    dimensions and a known filter, with at most one worker per row for the
    stencil filters, exits with status 0 and leaves, in the output file, the
    header followed by the filtered image, whatever the number of workers. *)
Theorem mpi_program_writes_filtered_image (size : Z)
    (prog input_file output_file filter_type : string) (more : list string)
    (fs : filesystem) (img : Image) (filter : FilterKind) :
  1 ≤ size →
  load_image_mpi fs input_file = Res (Some img) →
  0 < width img → 0 < height img →
  filter_of filter_type = Some filter →
  (filter = Blur ∨ filter = Edge → size ≤ height img) →
  writable fs output_file = true →
  mpi_program size (prog :: input_file :: output_file :: filter_type :: more)
    fs =
  Res (Exit 0,
       write_file fs output_file
         (ppm_header (width img) (height img) ++
          buffer_of (width img * height img * 3)
            (mpi_spec filter (width img) (height img) 3 (data img)))).
Proof.
  intros Hs Hload Hw Hh Hfilter Hstencil Hwr.
  by apply mpi_program_writes_filtered_image_aux.
Qed.

Lemma mpi_program_writes_filtered_image_witness :
  mpi_program 2 ["mpi"; "in.ppm"; "out.ppm"; "edge"] two_pixels_file =
  Res (Exit 0,
       write_file two_pixels_file "out.ppm"
         (ppm_header 1 2 ++
          buffer_of (1 * 2 * 3) (mpi_spec Edge 1 2 3 (data two_pixels)))).
Proof.
  apply (mpi_program_writes_filtered_image 2 "mpi" "in.ppm" "out.ppm" "edge"
           [] two_pixels_file two_pixels Edge);
    [lia|vm_compute; reflexivity|simpl; lia|simpl; lia|reflexivity|
     simpl; lia|reflexivity].
Defined.

(** X14.  On an input file that both programs load as the same image, the
    two programs leave the same file system: byte-identical output files,
    for grayscale, blur and brighten, whatever the number of workers (at
    most one per row for blur) and for every thread count from 1 on that
    the OpenMP runtime can start. *)
Theorem programs_write_same_file (team : Z → bool) (size : Z)
    (prog prog' input_file output_file filter_type threads : string)
    (fs : filesystem) (t : Z) (img : Image) (filter : FilterKind) :
  1 ≤ size → atoi threads = Res t → 1 ≤ t → team t = true →
  load_image fs input_file = Res (Some img) →
  load_image_mpi fs input_file = Res (Some img) →
  filter_of filter_type = Some filter →
  filter ≠ Edge → (filter = Blur → size ≤ height img) →
  writable fs output_file = true →
  ∃ fs',
    omp_program team [prog; input_file; output_file; filter_type; threads]
      fs = Res (Exit 0, fs') ∧
    mpi_program size [prog'; input_file; output_file; filter_type] fs =
      Res (Exit 0, fs').
Proof.
  intros Hs Hatoi Ht Hteam Hload Hload' Hfilter Hedge Hblur Hwr.
  destruct (load_image_inv _ _ _ Hload) as (Hw & Hh & Hc & Hlen & Hn).
  exists (write_file fs output_file
            (ppm_header (width img) (height img) ++
             buffer_of (width img * height img * 3)
               (mpi_spec filter (width img) (height img) 3 (data img)))).
  split.
  - destruct img as [d w h c]. simpl in *. subst c.
    rewrite (omp_program_run _ _ _ _ _ _ _ _ _ _ _ _ Hatoi Ht Hteam Hload
               Hfilter
               (omp_main_image filter w h 3 d Hw Hh ltac:(lia) Hlen Hedge
                  ltac:(lia))).
    rewrite save_image_Res; cbn [data width height channels];
      [done|done|done|done|done|rewrite length_buffer_of; lia|lia].
  - rewrite (mpi_program_writes_filtered_image_aux size prog' input_file
               output_file filter_type [] fs img filter); try done.
    intros [->| ->]; [by apply Hblur|done].
Qed.

Lemma programs_write_same_file_witness :
  ∃ fs',
    omp_program (up_to 64) ["omp"; "in.ppm"; "out.ppm"; "grayscale"; "8"]
      two_pixels_file = Res (Exit 0, fs') ∧
    mpi_program 5 ["mpi"; "in.ppm"; "out.ppm"; "grayscale"]
      two_pixels_file = Res (Exit 0, fs').
Proof.
  apply (programs_write_same_file (up_to 64) 5 "omp" "mpi" "in.ppm"
           "out.ppm" "grayscale" "8" two_pixels_file 8 two_pixels Grayscale);
    [lia|reflexivity|lia|reflexivity|vm_compute; reflexivity|
     vm_compute; reflexivity|reflexivity|done|done|reflexivity].
Defined.

Lemma save_image_mpi_files fs filename img fs' :
  save_image_mpi fs filename img = Res fs' →
  writable fs filename = true ∧
  ∀ name, name ≠ filename → file fs' name = file fs name.
Proof.
  unfold save_image_mpi. destruct (writable fs filename); [|done].
  destruct (int _) as [n|]; [|done]. cbn [mbind result_bind].
  destruct (int _) as [n'|]; [|done]. cbn [mbind result_bind].
  destruct (fwrite _ _) as [bytes|]; [|done]. cbn. intros [= <-].
  split; [done|]. intros name Hname. simpl. by rewrite fn_lookup_insert_ne.
Qed.

(** X15.  The distributed program ends with status 0 or 1 or by
    [MPI_Abort] with code 1; it changes no file but the output file, and
    none unless the status is 0.  It aborts only when the input cannot be
    opened or does not start with ["P6"], and it ends with status 0 only
    when the output file could be opened. *)
Theorem mpi_program_exit (size : Z) (argv : list string)
    (fs fs' : filesystem) (st : status) :
  mpi_program size argv fs = Res (st, fs') →
  (st = Exit 0 ∨ st = Exit 1 ∨ st = Aborted 1) ∧
  (st ≠ Exit 0 → fs' = fs) ∧
  (∀ name, name ≠ arg argv 2 → file fs' name = file fs name) ∧
  (st = Aborted 1 → load_image_mpi fs (arg argv 1) = Res None) ∧
  (st = Exit 0 → writable fs (arg argv 2) = true).
Proof.
  unfold mpi_program. destruct (Nat.ltb_spec (length argv) 4).
  { intros [= <- <-]. split; [auto|]. by repeat split. }
  destruct (load_image_mpi fs (arg argv 1)) as [[img|]|] eqn:Hload;
    [| |done].
  2:{ cbn. intros [= <- <-]. split; [auto|]. by repeat split. }
  cbn [mbind result_bind].
  destruct (filter_of (arg argv 3)) as [filter|].
  2:{ destruct (mpi_scatter size img); [|done]. cbn.
      intros [= <- <-]. split; [auto|]. by repeat split. }
  destruct (mpi_main size filter img) as [output|]; [|done].
  cbn [of_outcome mbind result_bind].
  destruct (save_image_mpi fs (arg argv 2) output) as [fs''|] eqn:Hsave;
    [|done].
  cbn. intros [= <- <-].
  apply save_image_mpi_files in Hsave as [Hwr Hfiles].
  split; [auto|]. by repeat split.
Qed.

(** No input file. *)
Lemma mpi_program_exit_witness :
  load_image_mpi no_files "in.ppm" = Res None.
Proof.
  pose proof (mpi_program_exit 4 ["mpi"; "in.ppm"; "out.ppm"; "blur"]
                no_files no_files (Aborted 1) eq_refl)
    as (_ & _ & _ & Habort & _).
  by apply Habort.
Defined.

(** X16.  When the output file cannot be opened, the distributed program
    has no defined behaviour: [save_image] prints to the null stream. *)
Theorem mpi_program_undefined_when_unwritable (size : Z)
    (prog input_file output_file filter_type : string) (more : list string)
    (fs : filesystem) (img : Image) (filter : FilterKind) :
  1 ≤ size →
  load_image_mpi fs input_file = Res (Some img) →
  0 < width img → 0 < height img →
  filter_of filter_type = Some filter →
  (filter = Blur ∨ filter = Edge → size ≤ height img) →
  writable fs output_file = false →
  mpi_program size (prog :: input_file :: output_file :: filter_type :: more)
    fs = Undef NullPointer.
Proof.
  intros Hs Hload Hw Hh Hfilter Hstencil Hwr.
  destruct (load_image_mpi_inv _ _ _ Hload) as (Hc & Hlen & Hn).
  rewrite (mpi_program_run _ _ _ _ _ _ _ _ _ Hload Hfilter).
  destruct img as [d w h c]. simpl in *. subst c.
  rewrite mpi_main_image by done. cbn [of_outcome mbind result_bind].
  unfold save_image_mpi. by rewrite Hwr.
Qed.

Lemma mpi_program_undefined_when_unwritable_witness :
  mpi_program 1 ["mpi"; "in.ppm"; "out.ppm"; "brighten"]
    (read_only two_pixels_file) = Undef NullPointer.
Proof.
  apply (mpi_program_undefined_when_unwritable 1 "mpi" "in.ppm" "out.ppm"
           "brighten" [] (read_only two_pixels_file) two_pixels Brighten);
    [lia|vm_compute; reflexivity|simpl; lia|simpl; lia|reflexivity|
     by intros [|]|reflexivity].
Defined.

(** [mpi_main] is scatter, filter, gather. *)
Lemma mpi_main_steps size filter full_image :
  mpi_main size filter full_image =
  do bands <- mpi_scatter size full_image;
  do bands' <- mpi_filter filter (height full_image) size
                 (width full_image) (channels full_image) bands;
  do full <- mpi_gather size full_image bands';
  Ok {| data := full; width := width full_image;
        height := height full_image; channels := channels full_image |}.
Proof.
  unfold mpi_main, mpi_scatter, mpi_gather.
  by destruct (layout _ _ _ _) as [sendcounts displs].
Qed.

(** ** More about the filters *)

Lemma bytes_Forall l : Forall (fun v => 0 ≤ v < 256) l → bytes l.
Proof.
  intros Hall i v Hv. unfold get in Hv. destruct (0 <=? i); [|done].
  by apply (Forall_lookup_1 _ _ _ _ Hall Hv).
Qed.

Lemma constant_Forall v l :
  Forall (fun b => b = v) l → ∀ idx b, get l idx = Some b → b = v.
Proof.
  intros Hall i b Hb. unfold get in Hb. destruct (0 <=? i); [|done].
  by apply (Forall_lookup_1 _ _ _ _ Hall Hb).
Qed.

Lemma forall_bytes (p : Z → bool) :
  forallb p (seqZ 0 256) = true → ∀ v, 0 ≤ v < 256 → p v = true.
Proof.
  intros Hall v Hv. rewrite forallb_forall in Hall. apply Hall.
  apply list_elem_of_In, elem_of_seqZ. lia.
Qed.

Lemma constant_neighbourhood v :
  0 ≤ v < 256 →
  blur_value (fun _ _ => v) = v ∧
  edge_value_omp (fun _ _ => v) = 0 ∧
  edge_value_mpi (fun _ _ => v) = 0.
Proof.
  intros Hv.
  pose proof (forall_bytes (fun v =>
    (blur_value (fun _ _ => v) =? v) &&
    (edge_value_omp (fun _ _ => v) =? 0) &&
    (edge_value_mpi (fun _ _ => v) =? 0)) ltac:(vm_compute; reflexivity)
    v Hv) as Hall.
  cbv beta in Hall. rewrite !andb_true_iff, !Z.eqb_eq in Hall.
  by destruct Hall as [[? ?] ?].
Qed.

(** X17.  Every constant image, whatever its byte, is a fixed point of the
    blur filter and has edge value 0 on every interior pixel, in both
    programs (with at most one worker per row in the distributed one). *)
Theorem constant_image_fixed_point (width height channels v : Z)
    (input : list Z) :
  0 < width → 0 < height → 0 < channels →
  Z.of_nat (length input) = width * height * channels →
  0 ≤ v < 256 →
  (∀ idx b, get input idx = Some b → b = v) →
  omp_main Blur {| data := input; width := width; height := height;
                   channels := channels |} =
    Ok {| data := input; width := width; height := height;
          channels := channels |} ∧
  (∃ output,
     omp_main Edge {| data := input; width := width; height := height;
                      channels := channels |} = Ok output ∧
     ∀ i j c, 1 ≤ i < height - 1 → 1 ≤ j < width - 1 → 0 ≤ c < channels →
       get (data output) (offset width channels i j c) = Some 0) ∧
  (∀ size, 1 ≤ size ≤ height →
     mpi_main size Blur {| data := input; width := width; height := height;
                           channels := channels |} =
       Ok {| data := input; width := width; height := height;
             channels := channels |} ∧
     ∃ output,
       mpi_main size Edge {| data := input; width := width; height := height;
                             channels := channels |} = Ok output ∧
       ∀ i j c, 1 ≤ i < height - 1 → 1 ≤ j < width - 1 → 0 ≤ c < channels →
         get (data output) (offset width channels i j c) = Some 0).
Proof.
  intros Hw Hh Hc Hlen Hv Huni.
  destruct (constant_neighbourhood v Hv) as (Hblur_v & Homp_v & Hmpi_v).
  assert (∀ i j c, 0 ≤ i < height → 0 ≤ j < width → 0 ≤ c < channels →
            byte input (offset width channels i j c) = v) as Hbyte.
  { intros i j c Hi Hj Hcc.
    assert (0 ≤ offset width channels i j c < Z.of_nat (length input)) as Hb
      by (rewrite Hlen; by apply offset_bounds).
    apply get_byte in Hb. by apply Huni in Hb. }
  assert (input = buffer_of (width * height * channels)
                    (blur_spec width height channels input)) as Hblur.
  { apply buffer_of_eq; [done|]. intros idx Hidx.
    destruct (offset_cover width channels Hw Hc height idx ltac:(lia))
      as (Heq & Hi & Hj & Hcc).
    rewrite (get_byte input) by lia. f_equal.
    rewrite Heq at 1. rewrite Hbyte by done. rewrite Heq.
    set (i := row_of width channels idx) in *.
    set (j := col_of width channels idx) in *.
    set (c := chan_of channels idx) in *.
    destruct (decide (1 ≤ i < height - 1 ∧ 1 ≤ j < width - 1))
      as [[Hi' Hj']|Hno].
    + rewrite (blur_spec_interior width height channels input i j c)
        by (lia || done).
      rewrite <- Hblur_v at 1. apply blur_value_ext.
      intros di dj Hdi Hdj. symmetry. apply Hbyte; lia.
    + rewrite (blur_spec_border width height channels input i j c)
        by (lia || done).
      symmetry. by apply Hbyte. }
  split; [|split].
  - rewrite omp_blur_image by done. by rewrite <- Hblur.
  - destruct (omp_edge_image width height channels input)
      as (output & Hrun & Hin & _); [done..|].
    exists output. split; [done|].
    intros i j c Hi Hj Hcc. rewrite Hin by done. f_equal.
    rewrite (sobel_spec_at width channels input i j c) by (lia || done).
    rewrite <- Homp_v. unfold edge_value_omp.
    rewrite (sobel_sums_ext _ (fun _ _ => v)); [done|].
    intros di dj Hdi Hdj.
    rewrite <- (Hbyte (i + di) (j + dj) 0) by lia.
    f_equal. unfold offset. lia.
  - intros size Hs. split.
    + rewrite mpi_main_image by (done || lia).
      unfold mpi_spec. by rewrite <- Hblur.
    + rewrite mpi_main_image by (done || lia).
      eexists. split; [done|]. intros i j c Hi Hj Hcc. cbn [data].
      rewrite get_buffer_of by (apply offset_bounds; lia). f_equal.
      unfold mpi_spec, edge_image_spec.
      rewrite row_of_offset, col_of_offset by lia.
      rewrite interior_true by lia.
      transitivity (edge_value_mpi (fun _ _ => v)); [|done].
      apply edge_value_mpi_ext.
      intros di dj Hdi Hdj. apply Hbyte; lia.
Qed.

Lemma constant_image_fixed_point_witness :
  omp_main Blur {| data := replicate 27 7; width := 3; height := 3;
                   channels := 3 |} =
  Ok {| data := replicate 27 7; width := 3; height := 3; channels := 3 |}.
Proof.
  apply (constant_image_fixed_point 3 3 3 7 (replicate 27 7));
    [lia|lia|lia|reflexivity|lia|].
  apply constant_Forall. by repeat constructor.
Defined.

(** ** Scatter and gather *)

Lemma concat_bands width height channels size input (k : nat) :
  0 < width → 0 ≤ height → 0 < channels → 1 ≤ size →
  Z.of_nat k ≤ size →
  concat (band_of width height channels size input <$> seqZ 0 (Z.of_nat k)) =
  take (Z.to_nat (row_offset_of height size (Z.of_nat k) * width * channels))
    input.
Proof.
  intros Hw Hh Hc Hs. induction k as [|k IH]; intros Hk.
  - simpl. by rewrite take_0.
  - replace (Z.of_nat (S k)) with (Z.of_nat k + 1) by lia.
    rewrite seqZ_app by lia. rewrite fmap_app, concat_app, IH by lia.
    rewrite (seqZ_cons _ 1), (seqZ_nil _ (Z.pred 1)) by lia.
    simpl. rewrite app_nil_r. unfold band_of, band_rows, slice.
    rewrite Z.add_0_l, take_take_drop. f_equal.
    rewrite row_offset_of_succ by lia.
    pose proof (row_offset_of_nonneg height size Hh Hs (Z.of_nat k)
                  ltac:(lia)).
    pose proof (local_height_of_nonneg height size Hh Hs (Z.of_nat k)).
    rewrite <- Z2Nat.inj_add by nia. f_equal. lia.
Qed.

(** X18.  Scatter cuts the image into [size] consecutive bands, one per
    rank and possibly empty, whose concatenation is the image; gathering the
    bands unchanged restores the image. *)
Theorem scatter_gather_round_trip (width height channels size : Z)
    (input : list Z) :
  0 < width → 0 < height → 0 < channels → 1 ≤ size →
  Z.of_nat (length input) = width * height * channels →
  ∃ bands,
    mpi_scatter size {| data := input; width := width; height := height;
                        channels := channels |} = Ok bands ∧
    Z.of_nat (length bands) = size ∧
    concat bands = input ∧
    mpi_gather size {| data := input; width := width; height := height;
                       channels := channels |} bands = Ok input.
Proof.
  intros Hw Hh Hc Hs Hlen.
  exists (band_of width height channels size input <$> seqZ 0 size).
  pose proof (scatter_bands width height channels size input Hw
                (Z.lt_le_incl _ _ Hh) Hc Hs Hlen) as Hscatter.
  pose proof (gatherv_image width height channels size input (byte input)
                Hw Hh Hc Hs Hlen) as Hgather.
  unfold mpi_scatter, mpi_gather. simpl.
  destruct (layout height size width channels) as [sendcounts displs].
  simpl in Hscatter, Hgather.
  split; [done|]. split; [by rewrite length_fmap, length_seqZ; lia|]. split.
  - replace size with (Z.of_nat (Z.to_nat size)) at 1 2 by lia.
    rewrite concat_bands by lia.
    rewrite Z2Nat.id, row_offset_of_size by lia.
    rewrite take_ge; [done|lia].
  - replace (band_of width height channels size input <$> seqZ 0 size)
      with ((fun rank =>
               buffer_of (local_height_of height size rank * width * channels)
                 (fun idx => byte input
                    (row_offset_of height size rank * width * channels + idx)))
            <$> seqZ 0 size).
    + rewrite Hgather. f_equal. symmetry. apply buffer_of_eq; [done|].
      intros idx Hidx. apply get_byte. lia.
    + apply list_fmap_ext. intros k rank Hrank.
      apply lookup_seqZ in Hrank as [-> Hk]. symmetry.
      assert (0 ≤ 0 + Z.of_nat k < size) as Hr by lia.
      apply buffer_of_eq.
      * by apply (length_band width height channels size input); [|lia|..].
      * intros idx Hidx.
        assert (Z.of_nat (length (band_of width height channels size input
                                    (0 + Z.of_nat k))) =
                local_height_of height size (0 + Z.of_nat k) * width *
                channels) as Hlb
          by (by apply (length_band width height channels size input);
              [|lia|..]).
        rewrite get_byte by lia. f_equal.
        by apply byte_band.
Qed.

Lemma scatter_gather_round_trip_witness :
  ∃ bands,
    mpi_scatter 3 two_pixels = Ok bands ∧
    Z.of_nat (length bands) = 3 ∧
    concat bands = [100; 150; 200; 250; 7; 230] ∧
    mpi_gather 3 two_pixels bands = Ok [100; 150; 200; 250; 7; 230].
Proof.
  apply (scatter_gather_round_trip 1 2 3 3 [100; 150; 200; 250; 7; 230]);
    [lia|lia|lia|lia|reflexivity].
Defined.

(** ** Images without interior pixels *)

Lemma no_interior width height i j :
  height ≤ 2 ∨ width ≤ 2 → interior width height i j = false.
Proof. intros Hsmall. apply interior_false. lia. Qed.

(** X19.  An image at most two pixels high or wide has no interior pixel:
    the blur filter of both programs and the edge filter of the distributed
    program return it unchanged, while the edge filter of the shared-memory
    program returns the all-zero image. *)
Theorem image_without_interior (width height channels : Z) (input : list Z) :
  0 < width → 0 < height → 0 < channels →
  Z.of_nat (length input) = width * height * channels →
  height ≤ 2 ∨ width ≤ 2 →
  omp_main Blur {| data := input; width := width; height := height;
                   channels := channels |} =
    Ok {| data := input; width := width; height := height;
          channels := channels |} ∧
  omp_main Edge {| data := input; width := width; height := height;
                   channels := channels |} =
    Ok {| data := replicate (Z.to_nat (width * height * channels)) 0;
          width := width; height := height; channels := channels |} ∧
  (∀ size filter, 1 ≤ size ≤ height → filter = Blur ∨ filter = Edge →
     mpi_main size filter {| data := input; width := width; height := height;
                             channels := channels |} =
       Ok {| data := input; width := width; height := height;
             channels := channels |}).
Proof.
  intros Hw Hh Hc Hlen Hsmall.
  assert (∀ filter, filter = Blur ∨ filter = Edge →
            buffer_of (width * height * channels)
              (mpi_spec filter width height channels input) = input) as Hid.
  { intros filter Hfilter. symmetry. apply buffer_of_eq; [done|].
    intros idx Hidx. rewrite (get_byte input) by lia. f_equal.
    destruct Hfilter as [-> | ->]; unfold mpi_spec, blur_spec, edge_image_spec;
      by rewrite no_interior. }
  split; [|split].
  - rewrite omp_blur_image by done.
    pose proof (Hid Blur (or_introl eq_refl)) as Hblur.
    unfold mpi_spec in Hblur. by rewrite Hblur.
  - destruct (omp_main_shape Edge
                {| data := input; width := width; height := height;
                   channels := channels |})
      as (output & Hrun & Hw' & Hh' & Hc' & Hlen'); [done..|].
    destruct (omp_edge_image width height channels input)
      as (output' & Hrun' & _ & Hout); [done..|].
    rewrite Hrun in Hrun'. injection Hrun' as <-.
    rewrite Hrun. f_equal. destruct output as [d w h c].
    simpl in *. subst w h c. f_equal.
    apply get_ext_len; [rewrite length_replicate; lia|].
    intros idx Hidx.
    destruct (offset_cover width channels Hw Hc height idx ltac:(lia))
      as (Heq & Hi & Hj & Hcc).
    rewrite get_replicate by lia. rewrite Heq. apply Hout; [done..|lia].
  - intros size filter Hs Hfilter.
    rewrite mpi_main_image by (done || lia). by rewrite Hid.
Qed.

Lemma image_without_interior_witness :
  omp_main Edge two_pixels =
  Ok {| data := replicate (Z.to_nat (1 * 2 * 3)) 0; width := 1; height := 2;
        channels := 3 |}.
Proof.
  apply (image_without_interior 1 2 3 [100; 150; 200; 250; 7; 230]);
    [lia|lia|lia|reflexivity|lia].
Defined.

(** ** What every filter keeps *)

Lemma to_uchar_byte v : 0 ≤ to_uchar v < 256.
Proof. unfold to_uchar. by apply Z.mod_pos_bound. Qed.

Lemma mpi_spec_byte filter width height channels input idx :
  bytes input → 0 ≤ idx < Z.of_nat (length input) →
  0 ≤ mpi_spec filter width height channels input idx < 256.
Proof.
  intros Hbytes Hidx.
  assert (0 ≤ byte input idx < 256) as Hb
    by (apply (Hbytes idx); by apply get_byte).
  destruct filter; unfold mpi_spec.
  - unfold grayscale_spec. cbv zeta.
    destruct (_ <? 3); [apply to_uchar_byte|done].
  - unfold blur_spec. cbv zeta.
    destruct (interior _ _ _ _); [apply to_uchar_byte|done].
  - unfold edge_image_spec. cbv zeta.
    destruct (interior _ _ _ _); [apply to_uchar_byte|done].
  - apply to_uchar_byte.
Qed.

Lemma bytes_buffer_of n f :
  (∀ idx, 0 ≤ idx < n → 0 ≤ f idx < 256) → bytes (buffer_of n f).
Proof.
  intros Hf idx v Hv. pose proof (get_Some_bounds _ _ _ Hv) as Hb.
  rewrite length_buffer_of in Hb.
  rewrite get_buffer_of in Hv by lia. injection Hv as <-. apply Hf. lia.
Qed.

(** X20.  Every filter of both programs maps an image of bytes with at
    most four channels to an image of bytes of the same width, height,
    channel count and length. *)
Theorem filters_keep_shape_and_bytes (w h c : Z) (input : list Z)
    (filter : FilterKind) :
  0 < w → 0 < h → 0 < c ≤ 4 →
  Z.of_nat (length input) = w * h * c →
  bytes input →
  (∃ output,
     omp_main filter {| data := input; width := w; height := h;
                        channels := c |} = Ok output ∧
     width output = w ∧ height output = h ∧ channels output = c ∧
     length (data output) = length input ∧ bytes (data output)) ∧
  (∀ size, 1 ≤ size → (filter = Blur ∨ filter = Edge → size ≤ h) →
     ∃ output,
       mpi_main size filter {| data := input; width := w; height := h;
                               channels := c |} = Ok output ∧
       width output = w ∧ height output = h ∧ channels output = c ∧
       length (data output) = length input ∧ bytes (data output)).
Proof.
  intros Hw Hh Hc Hlen Hbytes.
  assert (bytes (buffer_of (w * h * c) (mpi_spec filter w h c input)))
    as Hspec.
  { apply bytes_buffer_of. intros idx Hidx. apply mpi_spec_byte; [done|lia]. }
  split.
  - assert (filter = Edge ∨ filter ≠ Edge) as [->|Hne]
      by (destruct filter; auto).
    + destruct (omp_main_shape Edge
                  {| data := input; width := w; height := h; channels := c |})
        as (output & Hrun & Hw' & Hh' & Hc' & Hlen');
        [done|done|simpl; lia|done|].
      destruct (omp_edge_image w h c input)
        as (output' & Hrun' & Hin & Hout); [done|done|lia|done|].
      rewrite Hrun in Hrun'. injection Hrun' as <-.
      exists output. simpl in *. repeat (split; [done || lia|]).
      intros idx v Hv. pose proof (get_Some_bounds _ _ _ Hv) as Hb.
      destruct (offset_cover w c Hw ltac:(lia) h idx ltac:(lia))
        as (Heq & Hi & Hj & Hcc).
      rewrite Heq in Hv.
      destruct (decide (1 ≤ row_of w c idx < h - 1 ∧
                        1 ≤ col_of w c idx < w - 1)) as [[? ?]|Hno].
      * rewrite Hin in Hv by done. injection Hv as <-.
        apply to_uchar_byte.
      * rewrite Hout in Hv by done. injection Hv as <-. lia.
    + rewrite omp_main_image by (done || lia).
      eexists. split; [done|]. cbn.
      repeat (split; [done|]). split; [|done].
      rewrite length_buffer_of. lia.
  - intros size Hs Hstencil. rewrite mpi_main_image by (done || lia).
    eexists. split; [done|]. cbn.
    repeat (split; [done|]). split; [|done].
    rewrite length_buffer_of. lia.
Qed.

Lemma filters_keep_shape_and_bytes_witness :
  ∃ output,
    omp_main Edge two_pixels = Ok output ∧
    width output = 1 ∧ height output = 2 ∧ channels output = 3 ∧
    length (data output) = 6%nat ∧ bytes (data output).
Proof.
  apply (filters_keep_shape_and_bytes 1 2 3 [100; 150; 200; 250; 7; 230]
           Edge); [lia|lia|lia|reflexivity|].
  apply bytes_Forall. repeat constructor; lia.
Defined.

(** ** Filters applied again *)

Lemma gray_of_gray v :
  0 ≤ v < 256 →
  v - 1 ≤ gray_of v v v ≤ v ∧ (v = 1 ∨ v = 2 → gray_of v v v = v - 1).
Proof.
  intros Hv.
  pose proof (forall_bytes (fun v =>
    (v - 1 <=? gray_of v v v) && (gray_of v v v <=? v) &&
    (if (v =? 1) || (v =? 2) then gray_of v v v =? v - 1 else true))
    ltac:(vm_compute; reflexivity) v Hv) as Hall.
  cbv beta in Hall. rewrite !andb_true_iff in Hall.
  destruct Hall as [[Hlo Hhi] Hdrop]. split; [lia|].
  intros Hcase. destruct ((v =? 1) || (v =? 2)) eqn:E; [lia|].
  rewrite orb_false_iff, !Z.eqb_neq in E. lia.
Qed.

(** X21.  The grayscale filter is not idempotent.  On an image that is
    already gray (three channels, equal in every pixel) both programs
    return an image in which every byte is the input byte or one less; the
    levels 1 and 2 do drop, so that a second pass changes the image again. *)
Theorem grayscale_of_gray_image (w h : Z) (input : list Z) :
  0 < w → 0 < h → Z.of_nat (length input) = w * h * 3 → bytes input →
  (∀ i j, 0 ≤ i < h → 0 ≤ j < w →
     byte input (offset w 3 i j 1) = byte input (offset w 3 i j 0) ∧
     byte input (offset w 3 i j 2) = byte input (offset w 3 i j 0)) →
  ∃ output,
    omp_main Grayscale {| data := input; width := w; height := h;
                          channels := 3 |} = Ok output ∧
    (∀ size, 1 ≤ size →
       mpi_main size Grayscale {| data := input; width := w; height := h;
                                  channels := 3 |} = Ok output) ∧
    ∀ idx b, get input idx = Some b →
      ∃ b', get (data output) idx = Some b' ∧ b - 1 ≤ b' ≤ b ∧
            (b = 1 ∨ b = 2 → b' = b - 1).
Proof.
  intros Hw Hh Hlen Hbytes Hgray.
  eexists. split; [by apply omp_main_image; try lia|]. split.
  { intros size Hs. apply mpi_main_image; try done. by intros [|]. }
  intros idx b Hb. pose proof (get_Some_bounds _ _ _ Hb) as Hidx.
  cbn [data]. rewrite get_buffer_of by lia. eexists. split; [done|].
  destruct (offset_cover w 3 Hw ltac:(lia) h idx ltac:(lia))
    as (Heq & Hi & Hj & Hc).
  destruct (Hgray _ _ Hi Hj) as [Hg Hb'].
  unfold mpi_spec. rewrite Heq.
  rewrite (grayscale_spec_at w 3 input _ _ (chan_of 3 idx)) by done.
  destruct (Z.ltb_spec (chan_of 3 idx) 3); [|lia].
  rewrite gray_pixel_eq.
  change (1 <? 3) with true. change (2 <? 3) with true. cbv iota.
  rewrite Hg, Hb'.
  assert (byte input (offset w 3 (row_of w 3 idx) (col_of w 3 idx) 0) = b)
    as ->.
  { apply get_Some_byte in Hb. rewrite <- Hb.
    transitivity (byte input (offset w 3 (row_of w 3 idx) (col_of w 3 idx)
                                (chan_of 3 idx))); [|by rewrite <- Heq].
    assert (chan_of 3 idx = 0 ∨ chan_of 3 idx = 1 ∨ chan_of 3 idx = 2)
      as [E | [E | E]] by lia; by rewrite E. }
  apply gray_of_gray. by apply (Hbytes idx).
Qed.

(** The gray levels 2 and 1 of two pixels. *)
Lemma grayscale_of_gray_image_witness :
  ∃ output,
    omp_main Grayscale {| data := [2; 2; 2; 1; 1; 1]; width := 1;
                          height := 2; channels := 3 |} = Ok output ∧
    (∀ size, 1 ≤ size →
       mpi_main size Grayscale {| data := [2; 2; 2; 1; 1; 1]; width := 1;
                                  height := 2; channels := 3 |} = Ok output) ∧
    ∀ idx b, get [2; 2; 2; 1; 1; 1] idx = Some b →
      ∃ b', get (data output) idx = Some b' ∧ b - 1 ≤ b' ≤ b ∧
            (b = 1 ∨ b = 2 → b' = b - 1).
Proof.
  apply (grayscale_of_gray_image 1 2 [2; 2; 2; 1; 1; 1]);
    [lia|lia|reflexivity| |].
  - apply bytes_Forall. repeat constructor; lia.
  - intros i j Hi Hj. assert (j = 0) as -> by lia.
    assert (i = 0 ∨ i = 1) as [-> | ->] by lia; by split.
Defined.

Lemma brighten_byte_twice b :
  0 ≤ b < 256 →
  brighten_byte (brighten_byte b 50) 50 = clamp (b + 100) 0 255.
Proof.
  intros Hb. rewrite (brighten_byte_clamp b) by done.
  rewrite brighten_byte_clamp by (unfold clamp; lia). unfold clamp. lia.
Qed.

(** X22.  Two passes of the brighten filter add up and saturate: every byte
    [b] becomes [clamp (b + 100) 0 255], in both programs and for any
    numbers of workers. *)
Theorem brighten_twice (w h c : Z) (input : list Z) :
  0 < w → 0 < h → 0 < c → Z.of_nat (length input) = w * h * c →
  bytes input →
  ∃ once twice,
    omp_main Brighten {| data := input; width := w; height := h;
                         channels := c |} = Ok once ∧
    omp_main Brighten once = Ok twice ∧
    (∀ size, 1 ≤ size →
       mpi_main size Brighten {| data := input; width := w; height := h;
                                 channels := c |} = Ok once ∧
       mpi_main size Brighten once = Ok twice) ∧
    ∀ idx b, get input idx = Some b →
      get (data twice) idx = Some (clamp (b + 100) 0 255).
Proof.
  intros Hw Hh Hc Hlen Hbytes.
  assert (Z.of_nat (length (buffer_of (w * h * c)
                              (mpi_spec Brighten w h c input))) = w * h * c)
    as Hlen' by (rewrite length_buffer_of; lia).
  eexists _, _. split; [by apply omp_main_image|].
  split; [by apply omp_main_image|]. split.
  { intros size Hs.
    split; apply mpi_main_image; try done; by intros [|]. }
  intros idx b Hb. pose proof (get_Some_bounds _ _ _ Hb) as Hidx.
  cbn [data]. rewrite get_buffer_of by lia. f_equal.
  unfold mpi_spec, brighten_spec.
  rewrite (get_Some_byte _ _ _
             (get_buffer_of (w * h * c)
                (fun idx => brighten_byte (byte input idx) 50) idx
                ltac:(lia))).
  rewrite (get_Some_byte _ _ _ Hb).
  apply brighten_byte_twice. by apply (Hbytes idx).
Qed.

Lemma brighten_twice_witness :
  ∃ once twice,
    omp_main Brighten two_pixels = Ok once ∧
    omp_main Brighten once = Ok twice ∧
    (∀ size, 1 ≤ size →
       mpi_main size Brighten two_pixels = Ok once ∧
       mpi_main size Brighten once = Ok twice) ∧
    ∀ idx b, get [100; 150; 200; 250; 7; 230] idx = Some b →
      get (data twice) idx = Some (clamp (b + 100) 0 255).
Proof.
  apply (brighten_twice 1 2 3 [100; 150; 200; 250; 7; 230]);
    [lia|lia|lia|reflexivity|].
  apply bytes_Forall. repeat constructor; lia.
Defined.

(** ** Locality of the stencil filters *)

(** X23.  The blur and edge value of an interior pixel depends only on the
    pixel's 3x3 neighbourhood: two images of the same shape that agree there
    give the same output bytes at that pixel, in both programs. *)
Theorem stencil_locality (w h c : Z) (input input' : list Z) (i j k : Z)
    (filter : FilterKind) :
  0 < w → 0 < h → 0 < c →
  Z.of_nat (length input) = w * h * c →
  Z.of_nat (length input') = w * h * c →
  1 ≤ i < h - 1 → 1 ≤ j < w - 1 → 0 ≤ k < c →
  filter = Blur ∨ filter = Edge →
  (∀ di dj k', -1 ≤ di ≤ 1 → -1 ≤ dj ≤ 1 → 0 ≤ k' < c →
     byte input (offset w c (i + di) (j + dj) k') =
     byte input' (offset w c (i + di) (j + dj) k')) →
  (∃ out out',
     omp_main filter {| data := input; width := w; height := h;
                        channels := c |} = Ok out ∧
     omp_main filter {| data := input'; width := w; height := h;
                        channels := c |} = Ok out' ∧
     get (data out) (offset w c i j k) = get (data out') (offset w c i j k)) ∧
  (∀ size, 1 ≤ size ≤ h →
     ∃ out out',
       mpi_main size filter {| data := input; width := w; height := h;
                               channels := c |} = Ok out ∧
       mpi_main size filter {| data := input'; width := w; height := h;
                               channels := c |} = Ok out' ∧
       get (data out) (offset w c i j k) =
       get (data out') (offset w c i j k)).
Proof.
  intros Hw Hh Hc Hlen Hlen' Hi Hj Hk Hfilter Hsame.
  assert (0 ≤ offset w c i j k < w * h * c) as Hoff
    by (apply offset_bounds; lia).
  assert (mpi_spec filter w h c input (offset w c i j k) =
          mpi_spec filter w h c input' (offset w c i j k)) as Hspec.
  { destruct Hfilter as [-> | ->]; unfold mpi_spec.
    - rewrite !(blur_spec_interior w h c _ i j k) by (lia || done).
      apply blur_value_ext. intros di dj Hdi Hdj. apply Hsame; lia.
    - unfold edge_image_spec.
      rewrite row_of_offset, col_of_offset by lia.
      rewrite interior_true by lia.
      apply edge_value_mpi_ext. intros di dj Hdi Hdj. apply Hsame; lia. }
  split.
  - destruct Hfilter as [-> | ->].
    + rewrite !omp_blur_image by done. eexists _, _.
      split; [done|]. split; [done|]. cbn [data].
      rewrite !get_buffer_of by done. f_equal. apply Hspec.
    + destruct (omp_edge_image w h c input)
        as (out & Hrun & Hin & _); [done..|].
      destruct (omp_edge_image w h c input')
        as (out' & Hrun' & Hin' & _); [done..|].
      exists out, out'. split; [done|]. split; [done|].
      rewrite Hin, Hin' by done. f_equal.
      rewrite !(sobel_spec_at w c _ i j k) by (lia || done).
      unfold edge_value_omp. rewrite (sobel_sums_ext _
        (fun di dj => byte input' (((i + di) * w + (j + dj)) * c)));
        [done|].
      intros di dj Hdi Hdj.
      pose proof (Hsame di dj 0 ltac:(lia) ltac:(lia) ltac:(lia)) as H0.
      unfold offset in H0. by rewrite !Z.add_0_r in H0.
  - intros size Hs. rewrite !mpi_main_image by (done || lia).
    eexists _, _. split; [done|]. split; [done|]. cbn [data].
    rewrite !get_buffer_of by done. by f_equal.
Qed.

(** Two images of three rows and four columns that differ in the last
    column only, seen from the pixel of row 1 and column 1. *)
Lemma stencil_locality_witness :
  ∃ out out',
    omp_main Edge {| data := [1; 2; 3; 4; 5; 6; 7; 8; 9; 10; 11; 12];
                     width := 4; height := 3; channels := 1 |} = Ok out ∧
    omp_main Edge {| data := [1; 2; 3; 40; 5; 6; 7; 80; 9; 10; 11; 120];
                     width := 4; height := 3; channels := 1 |} = Ok out' ∧
    get (data out) (offset 4 1 1 1 0) = get (data out') (offset 4 1 1 1 0).
Proof.
  apply (stencil_locality 4 3 1 [1; 2; 3; 4; 5; 6; 7; 8; 9; 10; 11; 12]
           [1; 2; 3; 40; 5; 6; 7; 80; 9; 10; 11; 120] 1 1 0 Edge);
    [lia|lia|lia|reflexivity|reflexivity|lia|lia|lia|by right|].
  intros di dj k' Hdi Hdj Hk. assert (k' = 0) as -> by lia.
  assert (di = -1 ∨ di = 0 ∨ di = 1) as [-> | [-> | ->]] by lia;
    (assert (dj = -1 ∨ dj = 0 ∨ dj = 1) as [-> | [-> | ->]] by lia);
    reflexivity.
Defined.
